(** * Highway Racer: a shallow embedding of the game core

    The JavaScript sources (utility.js, constants.js, game-objects.js,
    particles.js, game-engine.js) are embedded as Rocq functions, and the
    properties of the specification are stated over them.

    Numbers.  JavaScript numbers are modelled as exact rationals [Q]; the
    score and the lives counter, which the code only ever changes by
    integers, are [Z].  [Math.floor] is [Qfloor], [Math.min]/[Math.max]
    are [Qmin]/[Qmax].  Rounding of IEEE doubles is not modelled.

    Randomness and clocks.  Every [Math.random()] and [Date.now()] call
    site receives its value as an explicit argument, so each statement
    below quantifies over all outcomes of those calls.

    Presentation.  Canvas drawing, DOM updates, audio and notifications do
    not feed back into the game state and are left out; the state changes
    announced by [setState] are kept in a log. *)

From Stdlib Require Import QArith Qround Qminmax Qabs ZArith List Bool Lia Lqa.
Import ListNotations.
Open Scope Q_scope.

(** ** JavaScript comparison operators on numbers *)

Definition js_lt (a b : Q) : bool :=
  match a ?= b with Lt => true | _ => false end.
Definition js_gt (a b : Q) : bool := js_lt b a.
Definition js_le (a b : Q) : bool :=
  match a ?= b with Gt => false | _ => true end.
Definition js_ge (a b : Q) : bool := js_le b a.

(** ** utility.js *)

(** Anything with [x], [y], [width] and [height] can be tested for
    collision: players, obstacles, power-ups and bare hitboxes. *)
Class Body (A : Type) := {
  body_x : A -> Q;
  body_y : A -> Q;
  body_width : A -> Q;
  body_height : A -> Q
}.

Record Rect := mkRect {
  rect_x : Q;
  rect_y : Q;
  rect_width : Q;
  rect_height : Q
}.

#[export] Instance Rect_Body : Body Rect :=
  {| body_x := rect_x; body_y := rect_y;
     body_width := rect_width; body_height := rect_height |}.

Definition checkCollision {A B : Type} `{Body A} `{Body B}
    (object1 : A) (object2 : B) : bool :=
  js_lt (body_x object1) (body_x object2 + body_width object2) &&
  js_gt (body_x object1 + body_width object1) (body_x object2) &&
  js_lt (body_y object1) (body_y object2 + body_height object2) &&
  js_gt (body_y object1 + body_height object1) (body_y object2).

(** [randomNumber(min, max)], with the [Math.random()] value [r]. *)
Definition randomNumber (r min max : Q) : Q :=
  inject_Z (Qfloor (r * (max - min + 1))) + min.

(** [Math.floor(r * n)] used as an array index. *)
Definition randomIndex (r : Q) (n : nat) : nat :=
  Z.to_nat (Qfloor (r * inject_Z (Z.of_nat n))).

(** ** constants.js *)

Inductive GameState := MENU | PLAYING | PAUSED | GAME_OVER.

Definition GameState_eqb (a b : GameState) : bool :=
  match a, b with
  | MENU, MENU | PLAYING, PLAYING | PAUSED, PAUSED | GAME_OVER, GAME_OVER => true
  | _, _ => false
  end.

Inductive ObstacleKind := car | truck | debris.

Inductive PowerUpKind := shield | slowTime | extraLife | scoreBoost.

Inductive Effect := invincibility | slowMotion | addLife | doubleScore.

Definition PowerUpKind_eqb (a b : PowerUpKind) : bool :=
  match a, b with
  | shield, shield | slowTime, slowTime
  | extraLife, extraLife | scoreBoost, scoreBoost => true
  | _, _ => false
  end.

Definition Effect_eqb (a b : Effect) : bool :=
  match a, b with
  | invincibility, invincibility | slowMotion, slowMotion
  | addLife, addLife | doubleScore, doubleScore => true
  | _, _ => false
  end.

(** [GAME_CONFIG] is a mutable global object: [setDifficulty] overwrites
    six of its fields, so the engine state carries the current value. *)
Record Config := mkConfig {
  LANE_COUNT : nat;
  BASE_GAME_SPEED : Q;
  MAX_GAME_SPEED : Q;
  SPEED_INCREMENT : Q;
  SPEED_INCREASE_INTERVAL : Q;
  BASE_OBSTACLE_INTERVAL : Q;
  MIN_OBSTACLE_INTERVAL : Q;
  OBSTACLE_INTERVAL_DECREASE_RATE : Q;
  POWER_UP_SPAWN_CHANCE : Q;
  POWER_UP_MIN_SPAWN_INTERVAL : Q;
  STARTING_LIVES : Z;
  INVINCIBILITY_DURATION : Q;
  PLAYER_WIDTH : Q;
  PLAYER_HEIGHT : Q;
  DIFFICULTY_INCREASE_RATE : Q;
  SCORE_MULTIPLIER : Q;
  BASE_SPEED_FACTOR : Q;
  MAX_PARTICLES : nat
}.

Definition GAME_CONFIG : Config := {|
  LANE_COUNT := 3;
  BASE_GAME_SPEED := 1;
  MAX_GAME_SPEED := 35 # 10;
  SPEED_INCREMENT := 1 # 10;
  SPEED_INCREASE_INTERVAL := 15000;
  BASE_OBSTACLE_INTERVAL := 2000;
  MIN_OBSTACLE_INTERVAL := 500;
  OBSTACLE_INTERVAL_DECREASE_RATE := 1 # 100000;
  POWER_UP_SPAWN_CHANCE := 35 # 100;
  POWER_UP_MIN_SPAWN_INTERVAL := 8000;
  STARTING_LIVES := 3;
  INVINCIBILITY_DURATION := 2000;
  PLAYER_WIDTH := 40;
  PLAYER_HEIGHT := 70;
  DIFFICULTY_INCREASE_RATE := 1 # 10000;
  SCORE_MULTIPLIER := 10;
  BASE_SPEED_FACTOR := 150;
  MAX_PARTICLES := 100
|}.

Record Preset := mkPreset {
  preset_BASE_GAME_SPEED : Q;
  preset_MAX_GAME_SPEED : Q;
  preset_SPEED_INCREASE_INTERVAL : Q;
  preset_POWER_UP_SPAWN_CHANCE : Q;
  preset_STARTING_LIVES : Z;
  preset_OBSTACLE_INTERVAL_DECREASE_RATE : Q
}.

Inductive Difficulty := EASY | MEDIUM | HARD | EXTREME.

Definition DIFFICULTY_PRESETS (d : Difficulty) : Preset :=
  match d with
  | EASY => mkPreset (8 # 10) 2 25000 (3 # 10) 5 (5 # 1000000)
  | MEDIUM => mkPreset 1 3 15000 (25 # 100) 3 (1 # 100000)
  | HARD => mkPreset (12 # 10) (35 # 10) 10000 (2 # 10) 3 (2 # 100000)
  | EXTREME => mkPreset (15 # 10) 4 8000 (15 # 100) 2 (3 # 100000)
  end.

Record ObstacleType := mkObstacleType {
  ot_type : ObstacleKind;
  ot_width : Q;
  ot_height : Q;
  ot_points : Q;
  ot_hitboxAdjustment : option Rect
}.

Definition OBSTACLE_TYPES : list ObstacleType :=
  [ mkObstacleType car 50 80 10 (Some (mkRect 0 0 (-5) (-5)));
    mkObstacleType truck 70 120 20 (Some (mkRect 0 0 (-5) (-5)));
    mkObstacleType debris 30 30 5 (Some (mkRect 0 0 (-2) (-2))) ].

(** The [extraLife] entry has no [duration] property. *)
Record PowerUpType := mkPowerUpType {
  pt_type : PowerUpKind;
  pt_duration : option Q;
  pt_width : Q;
  pt_height : Q;
  pt_effect : Effect
}.

Definition POWER_UP_TYPES : list PowerUpType :=
  [ mkPowerUpType shield (Some 5000) 30 30 invincibility;
    mkPowerUpType slowTime (Some 5000) 30 30 slowMotion;
    mkPowerUpType extraLife None 30 30 addLife;
    mkPowerUpType scoreBoost (Some 5000) 30 30 doubleScore ].

Record EmitterConfig := mkEmitterConfig {
  ec_count : nat;
  ec_speed : Q * Q;
  ec_size : Q * Q;
  ec_lifetime : Q * Q;
  ec_colors : nat;
  ec_gravity : Q
}.

(** [PARTICLE_CONFIG]; the colour lists are kept by their lengths. *)
Definition PARTICLE_CONFIG_crash : EmitterConfig :=
  mkEmitterConfig 30 (50, 150) (2, 6) (500, 1000) 4 200.
Definition PARTICLE_CONFIG_sparkle : EmitterConfig :=
  mkEmitterConfig 10 (20, 50) (1, 3) (300, 600) 3 0.

(** ** game-objects.js: Player *)

Record Player := mkPlayer {
  p_x : Q;
  p_y : Q;
  p_width : Q;
  p_height : Q;
  p_laneWidth : Q;
  p_lane : Z;
  p_targetLane : Z;
  p_laneChangeSpeed : Q;
  p_speed : Q;
  p_isAccelerating : bool;
  p_lives : Z;
  p_invincible : bool;
  p_invincibleTime : Q;
  p_hasShield : bool;
  p_power : option Effect;
  p_powerUpTime : Q;
  p_blinkInterval : Q;
  p_lastBlinkTime : Q;
  p_visible : bool
}.

#[export] Instance Player_Body : Body Player :=
  {| body_x := p_x; body_y := p_y;
     body_width := p_width; body_height := p_height |}.

Definition Player_new (cfg : Config) (laneWidth gameHeight : Q) : Player :=
  let width := PLAYER_WIDTH cfg in
  let height := PLAYER_HEIGHT cfg in
  let x := laneWidth + (laneWidth - width) / 2 in
  let y := gameHeight - height - 20 in
  {| p_x := x; p_y := y; p_width := width; p_height := height;
     p_laneWidth := laneWidth;
     p_lane := 1%Z;
     p_targetLane := 1%Z;
     p_laneChangeSpeed := 10;
     p_speed := BASE_GAME_SPEED cfg;
     p_isAccelerating := false;
     p_lives := STARTING_LIVES cfg;
     p_invincible := false;
     p_invincibleTime := 0;
     p_hasShield := false;
     p_power := None;
     p_powerUpTime := 0;
     p_blinkInterval := 200;
     p_lastBlinkTime := 0;
     p_visible := true |}.

Definition set_p_x (v : Q) (p : Player) : Player :=
  mkPlayer v (p_y p) (p_width p) (p_height p) (p_laneWidth p) (p_lane p)
    (p_targetLane p) (p_laneChangeSpeed p) (p_speed p) (p_isAccelerating p)
    (p_lives p) (p_invincible p) (p_invincibleTime p) (p_hasShield p)
    (p_power p) (p_powerUpTime p) (p_blinkInterval p) (p_lastBlinkTime p)
    (p_visible p).
Definition set_p_lane (v : Z) (p : Player) : Player :=
  mkPlayer (p_x p) (p_y p) (p_width p) (p_height p) (p_laneWidth p) v
    (p_targetLane p) (p_laneChangeSpeed p) (p_speed p) (p_isAccelerating p)
    (p_lives p) (p_invincible p) (p_invincibleTime p) (p_hasShield p)
    (p_power p) (p_powerUpTime p) (p_blinkInterval p) (p_lastBlinkTime p)
    (p_visible p).
Definition set_p_targetLane (v : Z) (p : Player) : Player :=
  mkPlayer (p_x p) (p_y p) (p_width p) (p_height p) (p_laneWidth p) (p_lane p)
    v (p_laneChangeSpeed p) (p_speed p) (p_isAccelerating p)
    (p_lives p) (p_invincible p) (p_invincibleTime p) (p_hasShield p)
    (p_power p) (p_powerUpTime p) (p_blinkInterval p) (p_lastBlinkTime p)
    (p_visible p).
Definition set_p_speed (v : Q) (p : Player) : Player :=
  mkPlayer (p_x p) (p_y p) (p_width p) (p_height p) (p_laneWidth p) (p_lane p)
    (p_targetLane p) (p_laneChangeSpeed p) v (p_isAccelerating p)
    (p_lives p) (p_invincible p) (p_invincibleTime p) (p_hasShield p)
    (p_power p) (p_powerUpTime p) (p_blinkInterval p) (p_lastBlinkTime p)
    (p_visible p).
Definition set_p_isAccelerating (v : bool) (p : Player) : Player :=
  mkPlayer (p_x p) (p_y p) (p_width p) (p_height p) (p_laneWidth p) (p_lane p)
    (p_targetLane p) (p_laneChangeSpeed p) (p_speed p) v
    (p_lives p) (p_invincible p) (p_invincibleTime p) (p_hasShield p)
    (p_power p) (p_powerUpTime p) (p_blinkInterval p) (p_lastBlinkTime p)
    (p_visible p).
Definition set_p_lives (v : Z) (p : Player) : Player :=
  mkPlayer (p_x p) (p_y p) (p_width p) (p_height p) (p_laneWidth p) (p_lane p)
    (p_targetLane p) (p_laneChangeSpeed p) (p_speed p) (p_isAccelerating p)
    v (p_invincible p) (p_invincibleTime p) (p_hasShield p)
    (p_power p) (p_powerUpTime p) (p_blinkInterval p) (p_lastBlinkTime p)
    (p_visible p).
Definition set_p_invincible (v : bool) (p : Player) : Player :=
  mkPlayer (p_x p) (p_y p) (p_width p) (p_height p) (p_laneWidth p) (p_lane p)
    (p_targetLane p) (p_laneChangeSpeed p) (p_speed p) (p_isAccelerating p)
    (p_lives p) v (p_invincibleTime p) (p_hasShield p)
    (p_power p) (p_powerUpTime p) (p_blinkInterval p) (p_lastBlinkTime p)
    (p_visible p).
Definition set_p_invincibleTime (v : Q) (p : Player) : Player :=
  mkPlayer (p_x p) (p_y p) (p_width p) (p_height p) (p_laneWidth p) (p_lane p)
    (p_targetLane p) (p_laneChangeSpeed p) (p_speed p) (p_isAccelerating p)
    (p_lives p) (p_invincible p) v (p_hasShield p)
    (p_power p) (p_powerUpTime p) (p_blinkInterval p) (p_lastBlinkTime p)
    (p_visible p).
Definition set_p_hasShield (v : bool) (p : Player) : Player :=
  mkPlayer (p_x p) (p_y p) (p_width p) (p_height p) (p_laneWidth p) (p_lane p)
    (p_targetLane p) (p_laneChangeSpeed p) (p_speed p) (p_isAccelerating p)
    (p_lives p) (p_invincible p) (p_invincibleTime p) v
    (p_power p) (p_powerUpTime p) (p_blinkInterval p) (p_lastBlinkTime p)
    (p_visible p).
Definition set_p_power (v : option Effect) (p : Player) : Player :=
  mkPlayer (p_x p) (p_y p) (p_width p) (p_height p) (p_laneWidth p) (p_lane p)
    (p_targetLane p) (p_laneChangeSpeed p) (p_speed p) (p_isAccelerating p)
    (p_lives p) (p_invincible p) (p_invincibleTime p) (p_hasShield p)
    v (p_powerUpTime p) (p_blinkInterval p) (p_lastBlinkTime p)
    (p_visible p).
Definition set_p_powerUpTime (v : Q) (p : Player) : Player :=
  mkPlayer (p_x p) (p_y p) (p_width p) (p_height p) (p_laneWidth p) (p_lane p)
    (p_targetLane p) (p_laneChangeSpeed p) (p_speed p) (p_isAccelerating p)
    (p_lives p) (p_invincible p) (p_invincibleTime p) (p_hasShield p)
    (p_power p) v (p_blinkInterval p) (p_lastBlinkTime p)
    (p_visible p).
Definition set_p_lastBlinkTime (v : Q) (p : Player) : Player :=
  mkPlayer (p_x p) (p_y p) (p_width p) (p_height p) (p_laneWidth p) (p_lane p)
    (p_targetLane p) (p_laneChangeSpeed p) (p_speed p) (p_isAccelerating p)
    (p_lives p) (p_invincible p) (p_invincibleTime p) (p_hasShield p)
    (p_power p) (p_powerUpTime p) (p_blinkInterval p) v
    (p_visible p).
Definition set_p_visible (v : bool) (p : Player) : Player :=
  mkPlayer (p_x p) (p_y p) (p_width p) (p_height p) (p_laneWidth p) (p_lane p)
    (p_targetLane p) (p_laneChangeSpeed p) (p_speed p) (p_isAccelerating p)
    (p_lives p) (p_invincible p) (p_invincibleTime p) (p_hasShield p)
    (p_power p) (p_powerUpTime p) (p_blinkInterval p) (p_lastBlinkTime p)
    v.

Definition Player_moveLeft (p : Player) : Player :=
  if (0 <? p_targetLane p)%Z then set_p_targetLane (p_targetLane p - 1)%Z p
  else p.

Definition Player_moveRight (cfg : Config) (p : Player) : Player :=
  if (p_targetLane p <? Z.of_nat (LANE_COUNT cfg) - 1)%Z
  then set_p_targetLane (p_targetLane p + 1)%Z p
  else p.

Definition Player_setSpeed (newSpeed : Q) (p : Player) : Player :=
  set_p_speed newSpeed p.

Definition Player_accelerate (cfg : Config) (p : Player) : Player :=
  set_p_speed (Qmin (p_speed p * (15 # 10)) (MAX_GAME_SPEED cfg))
    (set_p_isAccelerating true p).

Definition Player_decelerate (cfg : Config) (p : Player) : Player :=
  set_p_speed (BASE_GAME_SPEED cfg) (set_p_isAccelerating false p).

(** [applyPowerUp(powerType, duration = 5000)]: the engine calls it without
    a duration for ['addLife'], which [None] stands for. *)
Definition Player_applyPowerUp (powerType : Effect) (duration : option Q)
    (p : Player) : Player :=
  let d := match duration with Some d => d | None => 5000 end in
  let p := set_p_powerUpTime d (set_p_power (Some powerType) p) in
  match powerType with
  | invincibility => set_p_hasShield true (set_p_invincible true p)
  | slowMotion => p
  | addLife => set_p_lives (Z.min (p_lives p + 1) 5) p
  | doubleScore => p
  end.

(** [takeDamage()] returns whether the player died, and the new player. *)
Definition Player_takeDamage (cfg : Config) (p : Player) : bool * Player :=
  if p_invincible p then (false, p)
  else
    let p := set_p_lives (p_lives p - 1)%Z p in
    if (p_lives p <=? 0)%Z then (true, p)
    else
      (false,
       set_p_invincibleTime (INVINCIBILITY_DURATION cfg)
         (set_p_invincible true p)).

Definition Player_update (deltaTime : Q) (p : Player) : Player :=
  let targetX :=
    p_laneWidth p * inject_Z (p_targetLane p)
    + (p_laneWidth p - p_width p) / 2 in
  let dx := targetX - p_x p in
  let p :=
    if js_gt (Qabs dx) (1 # 10)
    then set_p_x (p_x p + dx * p_laneChangeSpeed p * deltaTime) p
    else set_p_lane (p_targetLane p) (set_p_x targetX p) in
  let p :=
    if p_invincible p then
      match p_power p with
      | Some invincibility => p
      | _ =>
        let p := set_p_invincibleTime (p_invincibleTime p - deltaTime * 1000) p in
        if js_le (p_invincibleTime p) 0
        then set_p_visible true (set_p_invincible false p)
        else
          let p := set_p_lastBlinkTime (p_lastBlinkTime p + deltaTime * 1000) p in
          if js_ge (p_lastBlinkTime p) (p_blinkInterval p)
          then set_p_lastBlinkTime 0 (set_p_visible (negb (p_visible p)) p)
          else p
      end
    else p in
  match p_power p with
  | Some pw =>
    let p := set_p_powerUpTime (p_powerUpTime p - deltaTime * 1000) p in
    if js_le (p_powerUpTime p) 0 then
      let p :=
        match pw with
        | invincibility => set_p_hasShield false (set_p_invincible false p)
        | _ => p
        end in
      set_p_visible true (set_p_power None p)
    else p
  | None => p
  end.

(** ** Math.random, Math.cos, Math.sin, Math.PI *)

(** A value returned by [Math.random()] lies in [0, 1). *)
Definition unit_interval (q : Q) : bool := js_le 0 q && js_lt q 1.

Record Draw := mkDraw {
  draw : Q;
  draw_range : unit_interval draw = true
}.

(** The generator behind [Math.random()]: the sequence of values it will
    return and the number of calls made so far. *)
Record RNG := mkRNG {
  rng_values : nat -> Draw;
  rng_calls : nat
}.

Definition Math_random (r : RNG) : Q * RNG :=
  (draw (rng_values r (rng_calls r)), mkRNG (rng_values r) (S (rng_calls r))).

(** The transcendental part of the [Math] object is kept abstract. *)
Class MathLib := {
  Math_PI : Q;
  Math_cos : Q -> Q;
  Math_sin : Q -> Q
}.

(** ** game-objects.js: Obstacle *)

(** [o_hitbox = None] stands for [this.hitbox = this]. *)
Record Obstacle := mkObstacle {
  o_x : Q;
  o_y : Q;
  o_width : Q;
  o_height : Q;
  o_markedForDeletion : bool;
  o_lane : nat;
  o_type : ObstacleKind;
  o_speed : Q;
  o_points : Q;
  o_hitbox : option Rect
}.

#[export] Instance Obstacle_Body : Body Obstacle :=
  {| body_x := o_x; body_y := o_y;
     body_width := o_width; body_height := o_height |}.

Definition Obstacle_bounds (o : Obstacle) : Rect :=
  mkRect (o_x o) (o_y o) (o_width o) (o_height o).

(** The rectangle [checkCollisions] tests: [obstacle.hitbox || obstacle]. *)
Definition Obstacle_hitbox (o : Obstacle) : Rect :=
  match o_hitbox o with
  | Some h => h
  | None => Obstacle_bounds o
  end.

(** The constructor body once the obstacle type is known. *)
Definition Obstacle_of_type (lane : nat) (laneWidth : Q)
    (obstacleType : ObstacleType) (speedDraw : Q) : Obstacle :=
  let x := inject_Z (Z.of_nat lane) * laneWidth
           + (laneWidth - ot_width obstacleType) / 2 in
  let y := - ot_height obstacleType in
  {| o_x := x; o_y := y;
     o_width := ot_width obstacleType;
     o_height := ot_height obstacleType;
     o_markedForDeletion := false;
     o_lane := lane;
     o_type := ot_type obstacleType;
     o_speed := 1 + speedDraw * (5 # 10);
     o_points := ot_points obstacleType;
     o_hitbox :=
       match ot_hitboxAdjustment obstacleType with
       | Some adj =>
         Some (mkRect (x + rect_x adj) (y + rect_y adj)
                 (ot_width obstacleType + rect_width adj)
                 (ot_height obstacleType + rect_height adj))
       | None => None
       end |}.

(** [new Obstacle(lane, laneWidth, type)]; the catalog entry is drawn at
    random when [type] is not given.  An index outside the catalog cannot
    arise from a draw in [0, 1); the first entry stands in for it. *)
Definition Obstacle_new (lane : nat) (laneWidth : Q)
    (type : option ObstacleType) (r : RNG) : Obstacle * RNG :=
  let '(obstacleType, r) :=
    match type with
    | Some t => (t, r)
    | None =>
      let '(v, r) := Math_random r in
      (nth (randomIndex v (length OBSTACLE_TYPES)) OBSTACLE_TYPES
         (mkObstacleType car 50 80 10 (Some (mkRect 0 0 (-5) (-5)))), r)
    end in
  let '(v, r) := Math_random r in
  (Obstacle_of_type lane laneWidth obstacleType v, r).

Definition Obstacle_update (cfg : Config)
    (deltaTime playerSpeed gameHeight timeScale : Q) (o : Obstacle)
    : Obstacle :=
  let y := o_y o
           + o_speed o * playerSpeed * BASE_SPEED_FACTOR cfg
             * deltaTime * timeScale in
  {| o_x := o_x o; o_y := y;
     o_width := o_width o; o_height := o_height o;
     o_markedForDeletion :=
       if js_gt y gameHeight then true else o_markedForDeletion o;
     o_lane := o_lane o; o_type := o_type o;
     o_speed := o_speed o; o_points := o_points o;
     o_hitbox :=
       match o_hitbox o with
       | Some h => Some (mkRect (o_x o) y (rect_width h) (rect_height h))
       | None => None
       end |}.

(** ** game-objects.js: PowerUp *)

(** The pulse, spin and glow fields only feed [draw] and are left out.
    [pu_lastTrailTime] is only read for shield and extraLife, where the
    constructor sets it. *)
Record PowerUp := mkPowerUp {
  pu_x : Q;
  pu_y : Q;
  pu_width : Q;
  pu_height : Q;
  pu_markedForDeletion : bool;
  pu_lane : nat;
  pu_type : PowerUpKind;
  pu_effect : Effect;
  pu_duration : Q;
  pu_lastTrailTime : Q;
  pu_trailInterval : Q;
  pu_shouldCreateTrail : bool
}.

#[export] Instance PowerUp_Body : Body PowerUp :=
  {| body_x := pu_x; body_y := pu_y;
     body_width := pu_width; body_height := pu_height |}.

Definition isImportant (k : PowerUpKind) : bool :=
  match k with shield | extraLife => true | _ => false end.

Definition PowerUp_of_type (lane : nat) (laneWidth : Q)
    (powerUpType : PowerUpType) : PowerUp :=
  let width := pt_width powerUpType in
  let height := pt_height powerUpType in
  let x := inject_Z (Z.of_nat lane) * laneWidth + (laneWidth - width) / 2 in
  let y := - height in
  let important := isImportant (pt_type powerUpType) in
  {| pu_x := x; pu_y := y;
     pu_width := if important then width + 5 else width;
     pu_height := if important then height + 5 else height;
     pu_markedForDeletion := false;
     pu_lane := lane;
     pu_type := pt_type powerUpType;
     pu_effect := pt_effect powerUpType;
     pu_duration :=
       match pt_duration powerUpType with Some d => d | None => 0 end;
     pu_lastTrailTime := 0;
     pu_trailInterval := 100;
     pu_shouldCreateTrail := false |}.

Definition find_PowerUpType (k : PowerUpKind) : option PowerUpType :=
  find (fun p => PowerUpKind_eqb (pt_type p) k) POWER_UP_TYPES.

Definition random_PowerUpType (r : RNG) : PowerUpType * RNG :=
  let '(v, r) := Math_random r in
  (nth (randomIndex v (length POWER_UP_TYPES)) POWER_UP_TYPES
     (mkPowerUpType shield (Some 5000) 30 30 invincibility), r).

(** [new PowerUp(lane, laneWidth, typeOverride = null)]. *)
Definition PowerUp_new (lane : nat) (laneWidth : Q)
    (typeOverride : option PowerUpKind) (r : RNG) : PowerUp * RNG :=
  let '(powerUpType, r) :=
    match typeOverride with
    | Some k =>
      match find_PowerUpType k with
      | Some t => (t, r)
      | None => random_PowerUpType r
      end
    | None => random_PowerUpType r
    end in
  (PowerUp_of_type lane laneWidth powerUpType, r).

(** [now] is the value of [Date.now()]. *)
Definition PowerUp_update (cfg : Config) (now : Q)
    (deltaTime playerSpeed gameHeight timeScale : Q) (u : PowerUp)
    : PowerUp :=
  let scaledDelta := deltaTime * timeScale in
  let y := pu_y u + playerSpeed * BASE_SPEED_FACTOR cfg * scaledDelta in
  let trail :=
    isImportant (pu_type u)
    && js_gt (now - pu_lastTrailTime u) (pu_trailInterval u) in
  {| pu_x := pu_x u; pu_y := y;
     pu_width := pu_width u; pu_height := pu_height u;
     pu_markedForDeletion :=
       if js_gt y gameHeight then true else pu_markedForDeletion u;
     pu_lane := pu_lane u; pu_type := pu_type u;
     pu_effect := pu_effect u; pu_duration := pu_duration u;
     pu_lastTrailTime := if trail then now else pu_lastTrailTime u;
     pu_trailInterval := pu_trailInterval u;
     pu_shouldCreateTrail :=
       if trail then true else pu_shouldCreateTrail u |}.

Definition clear_trail (u : PowerUp) : PowerUp :=
  mkPowerUp (pu_x u) (pu_y u) (pu_width u) (pu_height u)
    (pu_markedForDeletion u) (pu_lane u) (pu_type u) (pu_effect u)
    (pu_duration u) (pu_lastTrailTime u) (pu_trailInterval u) false.

(** ** particles.js *)

Record Particle := mkParticle {
  pa_x : Q;
  pa_y : Q;
  pa_vx : Q;
  pa_vy : Q;
  pa_size : Q;
  pa_color : nat;
  pa_lifetime : Q;
  pa_age : Q;
  pa_gravity : Q
}.

(** Colours are kept as indices into the emitter's colour array, of
    which only the length matters. *)
Record Emitter := mkEmitter {
  em_x : Q;
  em_y : Q;
  em_count : nat;
  em_speed : Q * Q;
  em_size : Q * Q;
  em_lifetime : Q * Q;
  em_colors : nat;
  em_gravity : Q;
  em_oneShot : bool;
  em_active : bool;
  em_lastEmitTime : Q;
  em_emitInterval : Q
}.

Record ParticleSystem := mkParticleSystem {
  particles : list Particle;
  emitters : list Emitter
}.

Definition ParticleSystem_new : ParticleSystem := mkParticleSystem [] [].

(** [Array.prototype.shift]. *)
Definition shift {A : Type} (l : list A) : list A := tl l.

(** One iteration of the loop in [emit]. *)
Definition emit_one `{MathLib} (cfg : Config) (emitter : Emitter)
    (st : list Particle * RNG) : list Particle * RNG :=
  let '(ps, r) := st in
  let ps :=
    if (MAX_PARTICLES cfg <=? length ps)%nat then shift ps else ps in
  let '(a, r) := Math_random r in
  let angle := a * Math_PI * 2 in
  let '(v, r) := Math_random r in
  let speed := randomNumber v (fst (em_speed emitter)) (snd (em_speed emitter)) in
  let '(v, r) := Math_random r in
  let size := randomNumber v (fst (em_size emitter)) (snd (em_size emitter)) in
  let '(v, r) := Math_random r in
  let lifetime :=
    randomNumber v (fst (em_lifetime emitter)) (snd (em_lifetime emitter)) in
  let '(v, r) := Math_random r in
  let color := randomIndex v (em_colors emitter) in
  (ps ++ [ {| pa_x := em_x emitter; pa_y := em_y emitter;
              pa_vx := Math_cos angle * speed;
              pa_vy := Math_sin angle * speed;
              pa_size := size; pa_color := color;
              pa_lifetime := lifetime; pa_age := 0;
              pa_gravity := em_gravity emitter |} ], r).

Fixpoint emit_loop `{MathLib} (cfg : Config) (emitter : Emitter)
    (count : nat) (st : list Particle * RNG) : list Particle * RNG :=
  match count with
  | O => st
  | S n => emit_loop cfg emitter n (emit_one cfg emitter st)
  end.

(** [emit(emitter)], on the particle array and the generator. *)
Definition emit `{MathLib} (cfg : Config) (emitter : Emitter)
    (st : list Particle * RNG) : list Particle * RNG :=
  if negb (em_active emitter) then st
  else emit_loop cfg emitter (em_count emitter) st.

(** The argument of [createEmitter]; absent properties are [None]. *)
Record EmitterArgs := mkEmitterArgs {
  ea_x : option Q;
  ea_y : option Q;
  ea_count : option nat;
  ea_speed : option (Q * Q);
  ea_size : option (Q * Q);
  ea_lifetime : option (Q * Q);
  ea_colors : option nat;
  ea_gravity : option Q;
  ea_oneShot : option bool;
  ea_emitInterval : option Q
}.

Definition or_default {A : Type} (o : option A) (d : A) : A :=
  match o with Some a => a | None => d end.

(** [config.emitInterval || 200]: zero is falsy. *)
Definition or_default_Q (o : option Q) (d : Q) : Q :=
  match o with
  | Some a => if Qeq_bool a 0 then d else a
  | None => d
  end.

Definition createEmitter `{MathLib} (cfg : Config) (config : EmitterArgs)
    (s : ParticleSystem) (r : RNG) : ParticleSystem * RNG :=
  let emitter := {|
    em_x := or_default (ea_x config) 0;
    em_y := or_default (ea_y config) 0;
    em_count :=
      match ea_count config with
      | Some O | None => 10%nat
      | Some n => n
      end;
    em_speed := or_default (ea_speed config) (20, 50);
    em_size := or_default (ea_size config) (2, 5);
    em_lifetime := or_default (ea_lifetime config) (500, 1000);
    em_colors := or_default (ea_colors config) 1%nat;
    em_gravity := or_default (ea_gravity config) 0;
    em_oneShot := or_default (ea_oneShot config) true;
    em_active := true;
    em_lastEmitTime := 0;
    em_emitInterval := or_default_Q (ea_emitInterval config) 200
  |} in
  let es := emitters s ++ [emitter] in
  if em_oneShot emitter then
    let '(ps, r) := emit cfg emitter (particles s, r) in
    (mkParticleSystem ps es, r)
  else (mkParticleSystem (particles s) es, r).

(** [explosion(x, y, config)]: [{x, y, ...config, oneShot: true}]. *)
Definition explosion `{MathLib} (cfg : Config) (x y : Q)
    (config : EmitterConfig) (s : ParticleSystem) (r : RNG)
    : ParticleSystem * RNG :=
  createEmitter cfg
    {| ea_x := Some x; ea_y := Some y;
       ea_count := Some (ec_count config);
       ea_speed := Some (ec_speed config);
       ea_size := Some (ec_size config);
       ea_lifetime := Some (ec_lifetime config);
       ea_colors := Some (ec_colors config);
       ea_gravity := Some (ec_gravity config);
       ea_oneShot := Some true;
       ea_emitInterval := None |} s r.

(** The emitter loop of [update] runs from the last index down, so the
    tail of the list is handled before its head.  No particle has an
    [emitterIndex] property, so the test
    [!this.particles.some(p => p.emitterIndex === i)] always holds and
    every one-shot emitter is spliced out. *)
Fixpoint update_emitters `{MathLib} (cfg : Config) (delta : Q)
    (es : list Emitter) (st : list Particle * RNG)
    : list Emitter * (list Particle * RNG) :=
  match es with
  | [] => ([], st)
  | e :: rest =>
    let '(rest, st) := update_emitters cfg delta rest st in
    let '(e, st) :=
      if negb (em_oneShot e) && em_active e then
        let t := em_lastEmitTime e + delta * 1000 in
        if js_ge t (em_emitInterval e) then
          (mkEmitter (em_x e) (em_y e) (em_count e) (em_speed e) (em_size e)
             (em_lifetime e) (em_colors e) (em_gravity e) (em_oneShot e)
             (em_active e) 0 (em_emitInterval e),
           emit cfg e st)
        else
          (mkEmitter (em_x e) (em_y e) (em_count e) (em_speed e) (em_size e)
             (em_lifetime e) (em_colors e) (em_gravity e) (em_oneShot e)
             (em_active e) t (em_emitInterval e),
           st)
      else (e, st) in
    if em_oneShot e then (rest, st) else (e :: rest, st)
  end.

Definition Particle_step (delta : Q) (p : Particle) : Particle :=
  let vy := pa_vy p + pa_gravity p * delta in
  {| pa_x := pa_x p + pa_vx p * delta;
     pa_y := pa_y p + vy * delta;
     pa_vx := pa_vx p; pa_vy := vy;
     pa_size := pa_size p; pa_color := pa_color p;
     pa_lifetime := pa_lifetime p;
     pa_age := pa_age p + delta * 1000;
     pa_gravity := pa_gravity p |}.

(** The particle loop of [update]: move, age and splice out the dead. *)
Fixpoint update_particles (delta : Q) (ps : list Particle) : list Particle :=
  match ps with
  | [] => []
  | p :: rest =>
    let rest := update_particles delta rest in
    let p := Particle_step delta p in
    if js_ge (pa_age p) (pa_lifetime p) then rest else p :: rest
  end.

Definition ParticleSystem_update `{MathLib} (cfg : Config) (delta : Q)
    (s : ParticleSystem) (r : RNG) : ParticleSystem * RNG :=
  let '(es, (ps, r)) := update_emitters cfg delta (emitters s) (particles s, r) in
  (mkParticleSystem (update_particles delta ps) es, r).

Definition ParticleSystem_clear (s : ParticleSystem) : ParticleSystem :=
  mkParticleSystem [] [].

(** [stopEmitter(emitter)], the emitter being named by its index. *)
Definition stopEmitter (i : nat) (s : ParticleSystem) : ParticleSystem :=
  mkParticleSystem (particles s)
    (map (fun '(j, e) =>
            if Nat.eqb i j then
              mkEmitter (em_x e) (em_y e) (em_count e) (em_speed e)
                (em_size e) (em_lifetime e) (em_colors e) (em_gravity e)
                (em_oneShot e) false (em_lastEmitTime e) (em_emitInterval e)
            else e)
         (combine (seq 0 (length (emitters s))) (emitters s))).

(** ** game-engine.js *)

(** The deferred callbacks registered with [setTimeout] in [applyPowerUp]:
    what each will do and the wall-clock time at which it falls due. *)
Inductive TimerAction := ResetTimeScale | ResetScoreMultiplier.

Record Timer := mkTimer {
  timer_due : Q;
  timer_action : TimerAction
}.

(** The fields of [GameEngine] that carry game state, the current
    [GAME_CONFIG], the canvas size, the pending [setTimeout] callbacks, the
    [Math.random] generator and the log of [stateChange] events emitted by
    [setState].  [animationPending] tells whether a [requestAnimationFrame]
    callback is outstanding.  [timeSinceLastPowerUp] is read by
    [spawnPowerUp] and assigned nowhere. *)
Record Engine := mkEngine {
  config : Config;
  canvas_width : Q;
  canvas_height : Q;
  state : GameState;
  score : Z;
  highScore : Z;
  gameTime : Q;
  lastObstacleTime : Q;
  lastSpeedIncreaseTime : Q;
  lastPowerUpTime : Q;
  timeScale : Q;
  scoreMultiplier : Q;
  gameSpeed : Q;
  roadOffset : Q;
  difficulty : Q;
  player : option Player;
  obstacles : list Obstacle;
  powerUps : list PowerUp;
  particleSystem : ParticleSystem;
  animationPending : bool;
  previousScore : Z;
  timeSinceLastPowerUp : option Q;
  timeSinceLastPowerUpType : option (PowerUpKind -> Q);
  lastPowerUpTypeTime : option Q;
  timers : list Timer;
  rng : RNG;
  stateChanges : list (GameState * GameState)
}.

Definition set_config (v : Config) (g : Engine) : Engine :=
  mkEngine v (canvas_width g) (canvas_height g) (state g) (score g)
    (highScore g) (gameTime g) (lastObstacleTime g) (lastSpeedIncreaseTime
    g) (lastPowerUpTime g) (timeScale g) (scoreMultiplier g) (gameSpeed g)
    (roadOffset g) (difficulty g) (player g) (obstacles g) (powerUps g)
    (particleSystem g) (animationPending g) (previousScore g)
    (timeSinceLastPowerUp g) (timeSinceLastPowerUpType g)
    (lastPowerUpTypeTime g) (timers g) (rng g) (stateChanges g).
Definition set_canvas_width (v : Q) (g : Engine) : Engine :=
  mkEngine (config g) v (canvas_height g) (state g) (score g) (highScore g)
    (gameTime g) (lastObstacleTime g) (lastSpeedIncreaseTime g)
    (lastPowerUpTime g) (timeScale g) (scoreMultiplier g) (gameSpeed g)
    (roadOffset g) (difficulty g) (player g) (obstacles g) (powerUps g)
    (particleSystem g) (animationPending g) (previousScore g)
    (timeSinceLastPowerUp g) (timeSinceLastPowerUpType g)
    (lastPowerUpTypeTime g) (timers g) (rng g) (stateChanges g).
Definition set_canvas_height (v : Q) (g : Engine) : Engine :=
  mkEngine (config g) (canvas_width g) v (state g) (score g) (highScore g)
    (gameTime g) (lastObstacleTime g) (lastSpeedIncreaseTime g)
    (lastPowerUpTime g) (timeScale g) (scoreMultiplier g) (gameSpeed g)
    (roadOffset g) (difficulty g) (player g) (obstacles g) (powerUps g)
    (particleSystem g) (animationPending g) (previousScore g)
    (timeSinceLastPowerUp g) (timeSinceLastPowerUpType g)
    (lastPowerUpTypeTime g) (timers g) (rng g) (stateChanges g).
Definition set_state (v : GameState) (g : Engine) : Engine :=
  mkEngine (config g) (canvas_width g) (canvas_height g) v (score g)
    (highScore g) (gameTime g) (lastObstacleTime g) (lastSpeedIncreaseTime
    g) (lastPowerUpTime g) (timeScale g) (scoreMultiplier g) (gameSpeed g)
    (roadOffset g) (difficulty g) (player g) (obstacles g) (powerUps g)
    (particleSystem g) (animationPending g) (previousScore g)
    (timeSinceLastPowerUp g) (timeSinceLastPowerUpType g)
    (lastPowerUpTypeTime g) (timers g) (rng g) (stateChanges g).
Definition set_score (v : Z) (g : Engine) : Engine :=
  mkEngine (config g) (canvas_width g) (canvas_height g) (state g) v
    (highScore g) (gameTime g) (lastObstacleTime g) (lastSpeedIncreaseTime
    g) (lastPowerUpTime g) (timeScale g) (scoreMultiplier g) (gameSpeed g)
    (roadOffset g) (difficulty g) (player g) (obstacles g) (powerUps g)
    (particleSystem g) (animationPending g) (previousScore g)
    (timeSinceLastPowerUp g) (timeSinceLastPowerUpType g)
    (lastPowerUpTypeTime g) (timers g) (rng g) (stateChanges g).
Definition set_highScore (v : Z) (g : Engine) : Engine :=
  mkEngine (config g) (canvas_width g) (canvas_height g) (state g) (score g)
    v (gameTime g) (lastObstacleTime g) (lastSpeedIncreaseTime g)
    (lastPowerUpTime g) (timeScale g) (scoreMultiplier g) (gameSpeed g)
    (roadOffset g) (difficulty g) (player g) (obstacles g) (powerUps g)
    (particleSystem g) (animationPending g) (previousScore g)
    (timeSinceLastPowerUp g) (timeSinceLastPowerUpType g)
    (lastPowerUpTypeTime g) (timers g) (rng g) (stateChanges g).
Definition set_gameTime (v : Q) (g : Engine) : Engine :=
  mkEngine (config g) (canvas_width g) (canvas_height g) (state g) (score g)
    (highScore g) v (lastObstacleTime g) (lastSpeedIncreaseTime g)
    (lastPowerUpTime g) (timeScale g) (scoreMultiplier g) (gameSpeed g)
    (roadOffset g) (difficulty g) (player g) (obstacles g) (powerUps g)
    (particleSystem g) (animationPending g) (previousScore g)
    (timeSinceLastPowerUp g) (timeSinceLastPowerUpType g)
    (lastPowerUpTypeTime g) (timers g) (rng g) (stateChanges g).
Definition set_lastObstacleTime (v : Q) (g : Engine) : Engine :=
  mkEngine (config g) (canvas_width g) (canvas_height g) (state g) (score g)
    (highScore g) (gameTime g) v (lastSpeedIncreaseTime g) (lastPowerUpTime
    g) (timeScale g) (scoreMultiplier g) (gameSpeed g) (roadOffset g)
    (difficulty g) (player g) (obstacles g) (powerUps g) (particleSystem g)
    (animationPending g) (previousScore g) (timeSinceLastPowerUp g)
    (timeSinceLastPowerUpType g) (lastPowerUpTypeTime g) (timers g) (rng g)
    (stateChanges g).
Definition set_lastSpeedIncreaseTime (v : Q) (g : Engine) : Engine :=
  mkEngine (config g) (canvas_width g) (canvas_height g) (state g) (score g)
    (highScore g) (gameTime g) (lastObstacleTime g) v (lastPowerUpTime g)
    (timeScale g) (scoreMultiplier g) (gameSpeed g) (roadOffset g)
    (difficulty g) (player g) (obstacles g) (powerUps g) (particleSystem g)
    (animationPending g) (previousScore g) (timeSinceLastPowerUp g)
    (timeSinceLastPowerUpType g) (lastPowerUpTypeTime g) (timers g) (rng g)
    (stateChanges g).
Definition set_lastPowerUpTime (v : Q) (g : Engine) : Engine :=
  mkEngine (config g) (canvas_width g) (canvas_height g) (state g) (score g)
    (highScore g) (gameTime g) (lastObstacleTime g) (lastSpeedIncreaseTime
    g) v (timeScale g) (scoreMultiplier g) (gameSpeed g) (roadOffset g)
    (difficulty g) (player g) (obstacles g) (powerUps g) (particleSystem g)
    (animationPending g) (previousScore g) (timeSinceLastPowerUp g)
    (timeSinceLastPowerUpType g) (lastPowerUpTypeTime g) (timers g) (rng g)
    (stateChanges g).
Definition set_timeScale (v : Q) (g : Engine) : Engine :=
  mkEngine (config g) (canvas_width g) (canvas_height g) (state g) (score g)
    (highScore g) (gameTime g) (lastObstacleTime g) (lastSpeedIncreaseTime
    g) (lastPowerUpTime g) v (scoreMultiplier g) (gameSpeed g) (roadOffset
    g) (difficulty g) (player g) (obstacles g) (powerUps g) (particleSystem
    g) (animationPending g) (previousScore g) (timeSinceLastPowerUp g)
    (timeSinceLastPowerUpType g) (lastPowerUpTypeTime g) (timers g) (rng g)
    (stateChanges g).
Definition set_scoreMultiplier (v : Q) (g : Engine) : Engine :=
  mkEngine (config g) (canvas_width g) (canvas_height g) (state g) (score g)
    (highScore g) (gameTime g) (lastObstacleTime g) (lastSpeedIncreaseTime
    g) (lastPowerUpTime g) (timeScale g) v (gameSpeed g) (roadOffset g)
    (difficulty g) (player g) (obstacles g) (powerUps g) (particleSystem g)
    (animationPending g) (previousScore g) (timeSinceLastPowerUp g)
    (timeSinceLastPowerUpType g) (lastPowerUpTypeTime g) (timers g) (rng g)
    (stateChanges g).
Definition set_gameSpeed (v : Q) (g : Engine) : Engine :=
  mkEngine (config g) (canvas_width g) (canvas_height g) (state g) (score g)
    (highScore g) (gameTime g) (lastObstacleTime g) (lastSpeedIncreaseTime
    g) (lastPowerUpTime g) (timeScale g) (scoreMultiplier g) v (roadOffset
    g) (difficulty g) (player g) (obstacles g) (powerUps g) (particleSystem
    g) (animationPending g) (previousScore g) (timeSinceLastPowerUp g)
    (timeSinceLastPowerUpType g) (lastPowerUpTypeTime g) (timers g) (rng g)
    (stateChanges g).
Definition set_roadOffset (v : Q) (g : Engine) : Engine :=
  mkEngine (config g) (canvas_width g) (canvas_height g) (state g) (score g)
    (highScore g) (gameTime g) (lastObstacleTime g) (lastSpeedIncreaseTime
    g) (lastPowerUpTime g) (timeScale g) (scoreMultiplier g) (gameSpeed g) v
    (difficulty g) (player g) (obstacles g) (powerUps g) (particleSystem g)
    (animationPending g) (previousScore g) (timeSinceLastPowerUp g)
    (timeSinceLastPowerUpType g) (lastPowerUpTypeTime g) (timers g) (rng g)
    (stateChanges g).
Definition set_difficulty (v : Q) (g : Engine) : Engine :=
  mkEngine (config g) (canvas_width g) (canvas_height g) (state g) (score g)
    (highScore g) (gameTime g) (lastObstacleTime g) (lastSpeedIncreaseTime
    g) (lastPowerUpTime g) (timeScale g) (scoreMultiplier g) (gameSpeed g)
    (roadOffset g) v (player g) (obstacles g) (powerUps g) (particleSystem
    g) (animationPending g) (previousScore g) (timeSinceLastPowerUp g)
    (timeSinceLastPowerUpType g) (lastPowerUpTypeTime g) (timers g) (rng g)
    (stateChanges g).
Definition set_player (v : option Player) (g : Engine) : Engine :=
  mkEngine (config g) (canvas_width g) (canvas_height g) (state g) (score g)
    (highScore g) (gameTime g) (lastObstacleTime g) (lastSpeedIncreaseTime
    g) (lastPowerUpTime g) (timeScale g) (scoreMultiplier g) (gameSpeed g)
    (roadOffset g) (difficulty g) v (obstacles g) (powerUps g)
    (particleSystem g) (animationPending g) (previousScore g)
    (timeSinceLastPowerUp g) (timeSinceLastPowerUpType g)
    (lastPowerUpTypeTime g) (timers g) (rng g) (stateChanges g).
Definition set_obstacles (v : list Obstacle) (g : Engine) : Engine :=
  mkEngine (config g) (canvas_width g) (canvas_height g) (state g) (score g)
    (highScore g) (gameTime g) (lastObstacleTime g) (lastSpeedIncreaseTime
    g) (lastPowerUpTime g) (timeScale g) (scoreMultiplier g) (gameSpeed g)
    (roadOffset g) (difficulty g) (player g) v (powerUps g) (particleSystem
    g) (animationPending g) (previousScore g) (timeSinceLastPowerUp g)
    (timeSinceLastPowerUpType g) (lastPowerUpTypeTime g) (timers g) (rng g)
    (stateChanges g).
Definition set_powerUps (v : list PowerUp) (g : Engine) : Engine :=
  mkEngine (config g) (canvas_width g) (canvas_height g) (state g) (score g)
    (highScore g) (gameTime g) (lastObstacleTime g) (lastSpeedIncreaseTime
    g) (lastPowerUpTime g) (timeScale g) (scoreMultiplier g) (gameSpeed g)
    (roadOffset g) (difficulty g) (player g) (obstacles g) v (particleSystem
    g) (animationPending g) (previousScore g) (timeSinceLastPowerUp g)
    (timeSinceLastPowerUpType g) (lastPowerUpTypeTime g) (timers g) (rng g)
    (stateChanges g).
Definition set_particleSystem (v : ParticleSystem) (g : Engine) : Engine :=
  mkEngine (config g) (canvas_width g) (canvas_height g) (state g) (score g)
    (highScore g) (gameTime g) (lastObstacleTime g) (lastSpeedIncreaseTime
    g) (lastPowerUpTime g) (timeScale g) (scoreMultiplier g) (gameSpeed g)
    (roadOffset g) (difficulty g) (player g) (obstacles g) (powerUps g) v
    (animationPending g) (previousScore g) (timeSinceLastPowerUp g)
    (timeSinceLastPowerUpType g) (lastPowerUpTypeTime g) (timers g) (rng g)
    (stateChanges g).
Definition set_animationPending (v : bool) (g : Engine) : Engine :=
  mkEngine (config g) (canvas_width g) (canvas_height g) (state g) (score g)
    (highScore g) (gameTime g) (lastObstacleTime g) (lastSpeedIncreaseTime
    g) (lastPowerUpTime g) (timeScale g) (scoreMultiplier g) (gameSpeed g)
    (roadOffset g) (difficulty g) (player g) (obstacles g) (powerUps g)
    (particleSystem g) v (previousScore g) (timeSinceLastPowerUp g)
    (timeSinceLastPowerUpType g) (lastPowerUpTypeTime g) (timers g) (rng g)
    (stateChanges g).
Definition set_previousScore (v : Z) (g : Engine) : Engine :=
  mkEngine (config g) (canvas_width g) (canvas_height g) (state g) (score g)
    (highScore g) (gameTime g) (lastObstacleTime g) (lastSpeedIncreaseTime
    g) (lastPowerUpTime g) (timeScale g) (scoreMultiplier g) (gameSpeed g)
    (roadOffset g) (difficulty g) (player g) (obstacles g) (powerUps g)
    (particleSystem g) (animationPending g) v (timeSinceLastPowerUp g)
    (timeSinceLastPowerUpType g) (lastPowerUpTypeTime g) (timers g) (rng g)
    (stateChanges g).
Definition set_timeSinceLastPowerUp (v : option Q) (g : Engine) : Engine :=
  mkEngine (config g) (canvas_width g) (canvas_height g) (state g) (score g)
    (highScore g) (gameTime g) (lastObstacleTime g) (lastSpeedIncreaseTime
    g) (lastPowerUpTime g) (timeScale g) (scoreMultiplier g) (gameSpeed g)
    (roadOffset g) (difficulty g) (player g) (obstacles g) (powerUps g)
    (particleSystem g) (animationPending g) (previousScore g) v
    (timeSinceLastPowerUpType g) (lastPowerUpTypeTime g) (timers g) (rng g)
    (stateChanges g).
Definition set_timeSinceLastPowerUpType (v : option (PowerUpKind -> Q)) (g : Engine) : Engine :=
  mkEngine (config g) (canvas_width g) (canvas_height g) (state g) (score g)
    (highScore g) (gameTime g) (lastObstacleTime g) (lastSpeedIncreaseTime
    g) (lastPowerUpTime g) (timeScale g) (scoreMultiplier g) (gameSpeed g)
    (roadOffset g) (difficulty g) (player g) (obstacles g) (powerUps g)
    (particleSystem g) (animationPending g) (previousScore g)
    (timeSinceLastPowerUp g) v (lastPowerUpTypeTime g) (timers g) (rng g)
    (stateChanges g).
Definition set_lastPowerUpTypeTime (v : option Q) (g : Engine) : Engine :=
  mkEngine (config g) (canvas_width g) (canvas_height g) (state g) (score g)
    (highScore g) (gameTime g) (lastObstacleTime g) (lastSpeedIncreaseTime
    g) (lastPowerUpTime g) (timeScale g) (scoreMultiplier g) (gameSpeed g)
    (roadOffset g) (difficulty g) (player g) (obstacles g) (powerUps g)
    (particleSystem g) (animationPending g) (previousScore g)
    (timeSinceLastPowerUp g) (timeSinceLastPowerUpType g) v (timers g) (rng
    g) (stateChanges g).
Definition set_timers (v : list Timer) (g : Engine) : Engine :=
  mkEngine (config g) (canvas_width g) (canvas_height g) (state g) (score g)
    (highScore g) (gameTime g) (lastObstacleTime g) (lastSpeedIncreaseTime
    g) (lastPowerUpTime g) (timeScale g) (scoreMultiplier g) (gameSpeed g)
    (roadOffset g) (difficulty g) (player g) (obstacles g) (powerUps g)
    (particleSystem g) (animationPending g) (previousScore g)
    (timeSinceLastPowerUp g) (timeSinceLastPowerUpType g)
    (lastPowerUpTypeTime g) v (rng g) (stateChanges g).
Definition set_rng (v : RNG) (g : Engine) : Engine :=
  mkEngine (config g) (canvas_width g) (canvas_height g) (state g) (score g)
    (highScore g) (gameTime g) (lastObstacleTime g) (lastSpeedIncreaseTime
    g) (lastPowerUpTime g) (timeScale g) (scoreMultiplier g) (gameSpeed g)
    (roadOffset g) (difficulty g) (player g) (obstacles g) (powerUps g)
    (particleSystem g) (animationPending g) (previousScore g)
    (timeSinceLastPowerUp g) (timeSinceLastPowerUpType g)
    (lastPowerUpTypeTime g) (timers g) v (stateChanges g).
Definition set_stateChanges (v : list (GameState * GameState)) (g : Engine) : Engine :=
  mkEngine (config g) (canvas_width g) (canvas_height g) (state g) (score g)
    (highScore g) (gameTime g) (lastObstacleTime g) (lastSpeedIncreaseTime
    g) (lastPowerUpTime g) (timeScale g) (scoreMultiplier g) (gameSpeed g)
    (roadOffset g) (difficulty g) (player g) (obstacles g) (powerUps g)
    (particleSystem g) (animationPending g) (previousScore g)
    (timeSinceLastPowerUp g) (timeSinceLastPowerUpType g)
    (lastPowerUpTypeTime g) (timers g) (rng g) v.

(** [game-engine.js] uses [POWER_UP_TYPES] and [DIFFICULTY_PRESETS]
    without importing them; they are read here as the tables of
    constants.js. *)

Definition Engine_new (highScore : Z) (width height : Q) (r : RNG) : Engine :=
  {| config := GAME_CONFIG;
     canvas_width := width; canvas_height := height;
     state := MENU;
     score := 0%Z;
     highScore := highScore;
     gameTime := 0;
     lastObstacleTime := 0;
     lastSpeedIncreaseTime := 0;
     lastPowerUpTime := 0;
     timeScale := 1;
     scoreMultiplier := 1;
     gameSpeed := 1;
     roadOffset := 0;
     difficulty := 1;
     player := None;
     obstacles := [];
     powerUps := [];
     particleSystem := ParticleSystem_new;
     animationPending := false;
     previousScore := 0%Z;
     timeSinceLastPowerUp := None;
     timeSinceLastPowerUpType := None;
     lastPowerUpTypeTime := None;
     timers := [];
     rng := r;
     stateChanges := [] |}.

Definition laneWidth_of (g : Engine) : Q :=
  canvas_width g / inject_Z (Z.of_nat (LANE_COUNT (config g))).

Definition cancelAnimationFrame (g : Engine) : Engine :=
  set_animationPending false g.

Definition requestAnimationFrame (g : Engine) : Engine :=
  set_animationPending true g.

Definition getObstacleSpawnInterval (g : Engine) : Q :=
  Qmax (MIN_OBSTACLE_INTERVAL (config g))
       (BASE_OBSTACLE_INTERVAL (config g)
        - inject_Z (score g) * OBSTACLE_INTERVAL_DECREASE_RATE (config g)).

Definition getPowerUpSpawnInterval (g : Engine) : Q :=
  Qmax (POWER_UP_MIN_SPAWN_INTERVAL (config g))
       (getObstacleSpawnInterval g * 3).

Definition increaseDifficulty (g : Engine) : Engine :=
  let g := set_difficulty
             (difficulty g + DIFFICULTY_INCREASE_RATE (config g)) g in
  match player g with
  | Some p =>
    if js_lt (p_speed p) (MAX_GAME_SPEED (config g)) then
      let newSpeed :=
        Qmin (p_speed p + SPEED_INCREMENT (config g))
             (MAX_GAME_SPEED (config g)) in
      set_player (Some (Player_setSpeed newSpeed p)) g
    else g
  | None => g
  end.

(** [setDifficulty(difficulty)]; [None] is a name with no preset. *)
Definition setDifficulty (d : option Difficulty) (g : Engine) : Engine :=
  match d with
  | None => g
  | Some d =>
    let preset := DIFFICULTY_PRESETS d in
    let c := config g in
    let c := {|
      LANE_COUNT := LANE_COUNT c;
      BASE_GAME_SPEED := preset_BASE_GAME_SPEED preset;
      MAX_GAME_SPEED := preset_MAX_GAME_SPEED preset;
      SPEED_INCREMENT := SPEED_INCREMENT c;
      SPEED_INCREASE_INTERVAL := preset_SPEED_INCREASE_INTERVAL preset;
      BASE_OBSTACLE_INTERVAL := BASE_OBSTACLE_INTERVAL c;
      MIN_OBSTACLE_INTERVAL := MIN_OBSTACLE_INTERVAL c;
      OBSTACLE_INTERVAL_DECREASE_RATE :=
        preset_OBSTACLE_INTERVAL_DECREASE_RATE preset;
      POWER_UP_SPAWN_CHANCE := preset_POWER_UP_SPAWN_CHANCE preset;
      POWER_UP_MIN_SPAWN_INTERVAL := POWER_UP_MIN_SPAWN_INTERVAL c;
      STARTING_LIVES := preset_STARTING_LIVES preset;
      INVINCIBILITY_DURATION := INVINCIBILITY_DURATION c;
      PLAYER_WIDTH := PLAYER_WIDTH c;
      PLAYER_HEIGHT := PLAYER_HEIGHT c;
      DIFFICULTY_INCREASE_RATE := DIFFICULTY_INCREASE_RATE c;
      SCORE_MULTIPLIER := SCORE_MULTIPLIER c;
      BASE_SPEED_FACTOR := BASE_SPEED_FACTOR c;
      MAX_PARTICLES := MAX_PARTICLES c
    |} in
    let g := set_config c g in
    match player g with
    | Some p =>
      set_player
        (Some (Player_setSpeed (BASE_GAME_SPEED c)
                 (set_p_lives (STARTING_LIVES c) p))) g
    | None => g
    end
  end.

(** The lanes that hold an obstacle within [150] of the top. *)
Definition recentLanes (os : list Obstacle) : list nat :=
  map o_lane (filter (fun o => js_lt (o_y o) 150) os).

Definition safeLanes_of (cfg : Config) (os : list Obstacle) : list nat :=
  filter (fun l => negb (existsb (Nat.eqb l) (recentLanes os)))
         (seq 0 (LANE_COUNT cfg)).

Definition spawnObstacle (g : Engine) : Engine :=
  let laneWidth := laneWidth_of g in
  let '(v, r) := Math_random (rng g) in
  let lane :=
    match obstacles g with
    | _ :: _ =>
      let safeLanes := safeLanes_of (config g) (obstacles g) in
      match safeLanes with
      | _ :: _ => nth (randomIndex v (length safeLanes)) safeLanes 0%nat
      | [] => randomIndex v (LANE_COUNT (config g))
      end
    | [] => randomIndex v (LANE_COUNT (config g))
    end in
  let '(o, r) := Obstacle_new lane laneWidth None r in
  set_rng r (set_obstacles (obstacles g ++ [o]) g).

(** JavaScript truthiness of a possibly undefined number. *)
Definition truthy (o : option Q) : bool :=
  match o with
  | Some q => negb (Qeq_bool q 0)
  | None => false
  end.

(** The weighted choice of [spawnPowerUp], with [rand] the value of
    [Math.random()]; [None] is the [null] that lets the [PowerUp]
    constructor pick a type itself. *)
Definition choosePowerUpType (lives : Z)
    (sinceLast : option Q) (sinceType : option (PowerUpKind -> Q))
    (rand : Q) : option PowerUpKind :=
  if (lives =? 1)%Z then
    if js_lt rand (6 # 10) then Some extraLife
    else if js_lt rand (9 # 10) then Some shield
    else None
  else
    match (if truthy sinceLast then sinceType else None) with
    | Some since =>
      let timeSinceShield := since shield in
      let timeSinceHeart := since extraLife in
      if js_gt timeSinceShield 30000 && js_gt timeSinceHeart 30000 then
        if js_lt rand (45 # 100) then Some shield
        else if js_lt rand (9 # 10) then Some extraLife
        else None
      else if js_gt timeSinceShield 30000 then
        if js_lt rand (6 # 10) then Some shield
        else if js_lt rand (8 # 10) then Some extraLife
        else None
      else if js_gt timeSinceHeart 30000 then
        if js_lt rand (6 # 10) then Some extraLife
        else if js_lt rand (8 # 10) then Some shield
        else None
      else
        if js_lt rand (35 # 100) then Some shield
        else if js_lt rand (7 # 10) then Some extraLife
        else None
    | None =>
      if js_lt rand (4 # 10) then Some shield
      else if js_lt rand (8 # 10) then Some extraLife
      else None
    end.

(** The timer bookkeeping at the end of [spawnPowerUp]. *)
Definition updateTypeTimers (powerUpType : option PowerUpKind)
    (currentTime : Q) (last : option Q) (since : option (PowerUpKind -> Q))
    : PowerUpKind -> Q :=
  let since := or_default since (fun _ => 0) in
  let last := if truthy last then or_default last currentTime else currentTime in
  fun type =>
    if match powerUpType with
       | Some k => PowerUpKind_eqb type k
       | None => false
       end
    then 0
    else since type + (currentTime - last).

(** [spawnPowerUp()]; [now] is the value of [Date.now()] and [p] is
    [this.player]. *)
Definition spawnPowerUp (now : Q) (p : Player) (g : Engine) : Engine :=
  let laneWidth := laneWidth_of g in
  let safeLanes := safeLanes_of (config g) (obstacles g) in
  match safeLanes with
  | [] =>
    set_lastPowerUpTime (gameTime g - getPowerUpSpawnInterval g + 1000) g
  | _ :: _ =>
    let '(v, r) := Math_random (rng g) in
    let lane := nth (randomIndex v (length safeLanes)) safeLanes 0%nat in
    let '(rand, r) := Math_random r in
    let powerUpType :=
      choosePowerUpType (p_lives p) (timeSinceLastPowerUp g)
        (timeSinceLastPowerUpType g) rand in
    let '(u, r) := PowerUp_new lane laneWidth powerUpType r in
    let g := set_rng r (set_powerUps (powerUps g ++ [u]) g) in
    let g :=
      set_timeSinceLastPowerUpType
        (Some (updateTypeTimers powerUpType now (lastPowerUpTypeTime g)
                 (timeSinceLastPowerUpType g))) g in
    set_lastPowerUpTypeTime (Some now) g
  end.

(** The loop of [updateObstacles], from the last index down: the
    obstacles that remain and the score. *)
Fixpoint updateObstacles_loop (cfg : Config)
    (deltaTime playerSpeed gameHeight timeScale scoreMultiplier : Q)
    (os : list Obstacle) (score : Z) : list Obstacle * Z :=
  match os with
  | [] => ([], score)
  | o :: rest =>
    let '(rest, score) :=
      updateObstacles_loop cfg deltaTime playerSpeed gameHeight timeScale
        scoreMultiplier rest score in
    let o := Obstacle_update cfg deltaTime playerSpeed gameHeight timeScale o in
    if o_markedForDeletion o
    then (rest,
          (score + Qfloor (o_points o * playerSpeed * scoreMultiplier))%Z)
    else (o :: rest, score)
  end.

Definition updateObstacles (deltaTime : Q) (p : Player) (g : Engine) : Engine :=
  let '(os, s) :=
    updateObstacles_loop (config g) deltaTime (p_speed p) (canvas_height g)
      (timeScale g) (scoreMultiplier g) (obstacles g) (score g) in
  set_score s (set_obstacles os g).

Definition trailConfig : EmitterConfig :=
  mkEmitterConfig 3 (5, 20) (1, 3) (300, 600) 1 0.

Fixpoint updatePowerUps_loop `{MathLib} (cfg : Config) (now : Q)
    (deltaTime playerSpeed gameHeight timeScale : Q)
    (us : list PowerUp) (st : ParticleSystem * RNG)
    : list PowerUp * (ParticleSystem * RNG) :=
  match us with
  | [] => ([], st)
  | u :: rest =>
    let '(rest, st) :=
      updatePowerUps_loop cfg now deltaTime playerSpeed gameHeight timeScale
        rest st in
    let u := PowerUp_update cfg now deltaTime playerSpeed gameHeight timeScale u in
    let '(u, st) :=
      if pu_shouldCreateTrail u then
        (clear_trail u,
         explosion cfg (pu_x u + pu_width u / 2) (pu_y u + pu_height u / 2)
           trailConfig (fst st) (snd st))
      else (u, st) in
    if pu_markedForDeletion u then (rest, st) else (u :: rest, st)
  end.

Definition updatePowerUps `{MathLib} (now deltaTime : Q) (p : Player)
    (g : Engine) : Engine :=
  let '(us, (ps, r)) :=
    updatePowerUps_loop (config g) now deltaTime (p_speed p) (canvas_height g)
      (timeScale g) (powerUps g) (particleSystem g, rng g) in
  set_rng r (set_particleSystem ps (set_powerUps us g)).

Definition endGame (g : Engine) : Engine :=
  let g := cancelAnimationFrame g in
  if (highScore g <? score g)%Z then set_highScore (score g) g else g.

(** The [stateChange] event that the wrapper of [setState] in app.js
    emits after the state has been set. *)
Definition emit_stateChange (newState oldState : GameState) (g : Engine)
    : Engine :=
  set_stateChanges (stateChanges g ++ [(oldState, newState)]) g.

(** [setState(GAME_STATES.GAME_OVER)]. *)
Definition setState_GAME_OVER (g : Engine) : Engine :=
  let oldState := state g in
  emit_stateChange GAME_OVER oldState (endGame (set_state GAME_OVER g)).

(** [applyPowerUp(powerUp)]; [now] is the time at which [setTimeout] is
    called. *)
Definition applyPowerUp (now : Q) (powerUp : PowerUp) (p : Player)
    (g : Engine) : Engine :=
  match pu_effect powerUp with
  | invincibility =>
    set_player
      (Some (Player_applyPowerUp invincibility (Some (pu_duration powerUp)) p))
      g
  | slowMotion =>
    let g := set_timeScale (5 # 10) g in
    let g :=
      set_timers
        (timers g ++ [mkTimer (now + pu_duration powerUp) ResetTimeScale]) g in
    set_player
      (Some (Player_applyPowerUp slowMotion (Some (pu_duration powerUp)) p)) g
  | addLife =>
    set_player (Some (Player_applyPowerUp addLife None p)) g
  | doubleScore =>
    let g := set_scoreMultiplier 2 g in
    let g :=
      set_timers
        (timers g
         ++ [mkTimer (now + pu_duration powerUp) ResetScoreMultiplier]) g in
    set_player
      (Some (Player_applyPowerUp doubleScore (Some (pu_duration powerUp)) p)) g
  end.

(** A loop that runs from the last index down, stops at the first element
    that satisfies [hit] and splices it out: that element and the rest. *)
Fixpoint splice_last_hit {A : Type} (hit : A -> bool) (l : list A)
    : option (A * list A) :=
  match l with
  | [] => None
  | a :: rest =>
    match splice_last_hit hit rest with
    | Some (h, rest) => Some (h, a :: rest)
    | None => if hit a then Some (a, rest) else None
    end
  end.

(** The obstacle loop of [checkCollisions]. *)
Definition checkObstacleCollisions `{MathLib} (p : Player) (g : Engine)
    : Engine :=
  match splice_last_hit
          (fun o => checkCollision p (Obstacle_hitbox o)) (obstacles g) with
  | None => g
  | Some (_, rest) =>
    let '(ps, r) :=
      explosion (config g) (p_x p + p_width p / 2) (p_y p + p_height p / 2)
        PARTICLE_CONFIG_crash (particleSystem g) (rng g) in
    let g := set_rng r (set_particleSystem ps g) in
    let '(isDead, p) := Player_takeDamage (config g) p in
    let g := set_player (Some p) g in
    let g := if isDead then setState_GAME_OVER g else g in
    set_obstacles rest g
  end.

(** The power-up loop of [checkCollisions]. *)
Definition checkPowerUpCollisions `{MathLib} (now : Q) (p : Player)
    (g : Engine) : Engine :=
  match splice_last_hit (fun u => checkCollision p u) (powerUps g) with
  | None => g
  | Some (powerUp, rest) =>
    let g := applyPowerUp now powerUp p g in
    let g := set_powerUps rest g in
    let '(ps, r) :=
      explosion (config g) (p_x p + p_width p / 2) (p_y p + p_height p / 2)
        PARTICLE_CONFIG_sparkle (particleSystem g) (rng g) in
    set_rng r (set_particleSystem ps g)
  end.

(** Reading [this.player] while it is [null] raises a [TypeError]; the
    state is then left as it is.  While the game is playing the player is
    never [null]. *)
Definition with_player (g : Engine) (k : Player -> Engine) : Engine :=
  match player g with
  | Some p => k p
  | None => g
  end.

Definition checkCollisions `{MathLib} (now : Q) (g : Engine) : Engine :=
  with_player g (fun p =>
    if p_invincible p then g
    else
      let g := checkObstacleCollisions p g in
      with_player g (fun p => checkPowerUpCollisions now p g)).

(** [update(deltaTime)] is given in the order of its body, one definition
    for each of its parts; [p] is [this.player] where a part reads it. *)

(** The road animation. *)
Definition update_road (delta : Q) (p : Player) (g : Engine) : Engine :=
  let offset := roadOffset g + p_speed p * 200 * delta * timeScale g in
  if js_ge offset (canvas_height g)
  then set_roadOffset (offset - canvas_height g) g
  else set_roadOffset offset g.

(** [this.particleSystem.update(delta)]. *)
Definition update_particleSystem `{MathLib} (delta : Q) (g : Engine)
    : Engine :=
  let '(ps, r) :=
    ParticleSystem_update (config g) delta (particleSystem g) (rng g) in
  set_rng r (set_particleSystem ps g).

(** Spawn new obstacles. *)
Definition update_spawnObstacle (g : Engine) : Engine :=
  if js_gt (gameTime g - lastObstacleTime g) (getObstacleSpawnInterval g)
  then set_lastObstacleTime (gameTime g) (spawnObstacle g)
  else g.

(** Spawn new power-ups. *)
Definition update_spawnPowerUp (now : Q) (g : Engine) : Engine :=
  if js_gt (gameTime g - lastPowerUpTime g) (getPowerUpSpawnInterval g)
  then
    let '(v, r) := Math_random (rng g) in
    let g := set_rng r g in
    let g :=
      if js_lt v (POWER_UP_SPAWN_CHANCE (config g))
      then with_player g (fun p => spawnPowerUp now p g)
      else g in
    set_lastPowerUpTime (gameTime g) g
  else g.

(** Increase difficulty over time. *)
Definition update_difficulty (g : Engine) : Engine :=
  if js_gt (gameTime g - lastSpeedIncreaseTime g)
           (SPEED_INCREASE_INTERVAL (config g))
  then set_lastSpeedIncreaseTime (gameTime g) (increaseDifficulty g)
  else g.

(** The score for the distance travelled, [previousScore] and the speed
    display. *)
Definition update_score (delta : Q) (g : Engine) : Engine :=
  with_player g (fun p =>
    let speedFactor := p_speed p * scoreMultiplier g in
    let g :=
      set_score
        (score g
         + Qfloor (delta * speedFactor * SCORE_MULTIPLIER (config g)))%Z g in
    let g := set_previousScore (score g) g in
    if negb (Qfloor (p_speed p * 10) =? Qfloor (gameSpeed g * 10))%Z
    then set_gameSpeed (p_speed p) g
    else g).

(** [update(deltaTime)]; [now] is the value of [Date.now()]. *)
Definition update `{MathLib} (now : Q) (deltaTime : Q) (g : Engine) : Engine :=
  let delta := Qmin deltaTime (1 # 10) in
  with_player g (fun p =>
    let p := Player_update delta p in
    let g := set_player (Some p) g in
    let g := update_road delta p g in
    let g := updateObstacles delta p g in
    let g := updatePowerUps now delta p g in
    let g := update_particleSystem delta g in
    let g := checkCollisions now g in
    let g := update_spawnObstacle g in
    let g := update_spawnPowerUp now g in
    let g := update_difficulty g in
    update_score delta g).

(** [gameLoop(timestamp)]. *)
Definition gameLoop `{MathLib} (now : Q) (timestamp : Q) (g : Engine)
    : Engine :=
  if negb (GameState_eqb (state g) PLAYING) then g
  else
    let deltaTime :=
      if js_gt (gameTime g) 0
      then (timestamp - gameTime g) / 1000
      else 16 # 1000 in
    let g := set_gameTime timestamp g in
    let scaledDelta := deltaTime * timeScale g in
    let g := update now scaledDelta g in
    requestAnimationFrame g.

(** [startGame()] up to its last statement: the reset of the run. *)
Definition startGame_reset (g : Engine) : Engine :=
  let g := set_score 0%Z g in
  let g := set_previousScore 0%Z g in
  let g := set_gameTime 0 g in
  let g := set_lastObstacleTime 0 g in
  let g := set_lastSpeedIncreaseTime 0 g in
  let g := set_lastPowerUpTime 0 g in
  let g := set_timeScale 1 g in
  let g := set_scoreMultiplier 1 g in
  let g := set_gameSpeed (BASE_GAME_SPEED (config g)) g in
  let g := set_roadOffset 0 g in
  let g := set_difficulty 1 g in
  let g := set_obstacles [] g in
  let g := set_powerUps [] g in
  let g := set_particleSystem (ParticleSystem_clear (particleSystem g)) g in
  let g :=
    set_player
      (Some (Player_new (config g) (laneWidth_of g) (canvas_height g))) g in
  cancelAnimationFrame g.

(** [startGame()], which ends with [this.gameLoop(0)]. *)
Definition startGame `{MathLib} (now : Q) (g : Engine) : Engine :=
  gameLoop now 0 (startGame_reset g).

Definition pauseGame (g : Engine) : Engine := cancelAnimationFrame g.

Definition showMenu (g : Engine) : Engine := cancelAnimationFrame g.

(** [resumeGame()]. *)
Definition resumeGame `{MathLib} (now : Q) (g : Engine) : Engine :=
  let g := set_state PLAYING g in
  gameLoop now 0 g.

(** [setState(newState)], as wrapped in app.js. *)
Definition setState `{MathLib} (now : Q) (newState : GameState) (g : Engine)
    : Engine :=
  match newState with
  | GAME_OVER => setState_GAME_OVER g
  | MENU =>
    let oldState := state g in
    emit_stateChange MENU oldState (showMenu (set_state MENU g))
  | PLAYING =>
    let oldState := state g in
    emit_stateChange PLAYING oldState (startGame now (set_state PLAYING g))
  | PAUSED =>
    let oldState := state g in
    emit_stateChange PAUSED oldState (pauseGame (set_state PAUSED g))
  end.

Inductive Input := left | right | accelerate | decelerate.

Definition handleInput (input : Input) (g : Engine) : Engine :=
  if negb (GameState_eqb (state g) PLAYING) then g
  else
    with_player g (fun p =>
      let p :=
        match input with
        | left => Player_moveLeft p
        | right => Player_moveRight (config g) p
        | accelerate => Player_accelerate (config g) p
        | decelerate => Player_decelerate (config g) p
        end in
      set_player (Some p) g).

(** A callback registered by [applyPowerUp]. *)
Definition runTimer (a : TimerAction) (g : Engine) : Engine :=
  match a with
  | ResetTimeScale => set_timeScale 1 g
  | ResetScoreMultiplier => set_scoreMultiplier 1 g
  end.

(** The browser runs, in the order of registration, the callbacks that
    have fallen due at wall-clock time [now], and forgets them. *)
Definition fireTimers (now : Q) (g : Engine) : Engine :=
  let due := filter (fun t => js_le (timer_due t) now) (timers g) in
  let pending := filter (fun t => negb (js_le (timer_due t) now)) (timers g) in
  fold_left (fun g t => runTimer (timer_action t) g) due
    (set_timers pending g).

(** ** The game as driven by the browser *)

(** What the page can make the engine do.  The guards on pausing and
    resuming are those of input-controller.js and app.js, which call
    [setState('paused')] only while playing and [resumeGame()] only while
    paused. *)
Inductive Event :=
| EvFrame (now timestamp : Q)
| EvTimeout (now : Q)
| EvStart (now : Q)
| EvPause
| EvResume (now : Q)
| EvExit
| EvInput (input : Input)
| EvSetDifficulty (d : option Difficulty).

Definition step `{MathLib} (e : Event) (g : Engine) : Engine :=
  match e with
  | EvFrame now timestamp =>
    if animationPending g
    then gameLoop now timestamp (set_animationPending false g)
    else g
  | EvTimeout now => fireTimers now g
  | EvStart now => setState now PLAYING g
  | EvPause =>
    if GameState_eqb (state g) PLAYING then setState 0 PAUSED g else g
  | EvResume now =>
    if GameState_eqb (state g) PAUSED then resumeGame now g else g
  | EvExit => setState 0 MENU g
  | EvInput input => handleInput input g
  | EvSetDifficulty d => setDifficulty d g
  end.

Definition run `{MathLib} (es : list Event) (g : Engine) : Engine :=
  fold_left (fun g e => step e g) es g.

(** ** Vocabulary of the statements *)

Definition contained (inner outer : Rect) : Prop :=
  rect_x outer <= rect_x inner /\
  rect_y outer <= rect_y inner /\
  rect_x inner + rect_width inner <= rect_x outer + rect_width outer /\
  rect_y inner + rect_height inner <= rect_y outer + rect_height outer.

(** What construction establishes and every update keeps: the hitbox
    sits at the obstacle's corner and is no larger than the obstacle. *)
Definition hitbox_anchored (o : Obstacle) : Prop :=
  match o_hitbox o with
  | Some h =>
    rect_x h == o_x o /\ rect_y h == o_y o /\
    rect_width h <= o_width o /\ rect_height h <= o_height o
  | None => True
  end.

Definition shrinking (t : ObstacleType) : Prop :=
  match ot_hitboxAdjustment t with
  | Some adj =>
    rect_x adj == 0 /\ rect_y adj == 0 /\
    rect_width adj <= 0 /\ rect_height adj <= 0
  | None => True
  end.

(** The arguments of one call of [Obstacle.update]. *)
Record UpdateArgs := mkUpdateArgs {
  ua_deltaTime : Q;
  ua_playerSpeed : Q;
  ua_gameHeight : Q;
  ua_timeScale : Q
}.

Definition Obstacle_updates (cfg : Config) (steps : list UpdateArgs)
    (o : Obstacle) : Obstacle :=
  fold_left
    (fun o a =>
       Obstacle_update cfg (ua_deltaTime a) (ua_playerSpeed a)
         (ua_gameHeight a) (ua_timeScale a) o)
    steps o.


(** The operations of the particle system, as its clients may call them in
    any order. *)
Inductive ParticleOp :=
| OpCreateEmitter (config : EmitterArgs)
| OpEmit (emitter : Emitter)
| OpExplosion (x y : Q) (config : EmitterConfig)
| OpUpdate (delta : Q)
| OpClear
| OpStopEmitter (i : nat).

Definition ParticleSystem_apply `{MathLib} (cfg : Config) (op : ParticleOp)
    (st : ParticleSystem * RNG) : ParticleSystem * RNG :=
  let '(s, r) := st in
  match op with
  | OpCreateEmitter config => createEmitter cfg config s r
  | OpEmit emitter =>
    let '(ps, r) := emit cfg emitter (particles s, r) in
    (mkParticleSystem ps (emitters s), r)
  | OpExplosion x y config => explosion cfg x y config s r
  | OpUpdate delta => ParticleSystem_update cfg delta s r
  | OpClear => (ParticleSystem_clear s, r)
  | OpStopEmitter i => (stopEmitter i s, r)
  end.

Definition ParticleSystem_run `{MathLib} (cfg : Config)
    (ops : list ParticleOp) (st : ParticleSystem * RNG)
    : ParticleSystem * RNG :=
  fold_left (fun st op => ParticleSystem_apply cfg op st) ops st.

Definition within_cap (cfg : Config) (st : ParticleSystem * RNG) : Prop :=
  (length (particles (fst st)) <= MAX_PARTICLES cfg)%nat.

(** A concrete environment for worked examples. *)
Definition sampleMath : MathLib :=
  {| Math_PI := 355 # 113; Math_cos := fun _ => 1; Math_sin := fun _ => 0 |}.

Definition draw_0 : Draw := mkDraw 0 eq_refl.
Definition draw_25 : Draw := mkDraw (25 # 100) eq_refl.
Definition draw_42 : Draw := mkDraw (42 # 100) eq_refl.
Definition draw_50 : Draw := mkDraw (50 # 100) eq_refl.
Definition draw_60 : Draw := mkDraw (60 # 100) eq_refl.
Definition draw_95 : Draw := mkDraw (95 # 100) eq_refl.

(** A generator that returns the listed values and then [d] for ever. *)
Definition rng_of_list (l : list Draw) (d : Draw) : RNG :=
  mkRNG (fun k => nth k l d) 0.

Definition sum_Z (l : list Z) : Z := fold_right Z.add 0%Z l.

Definition lives_of (g : Engine) : option Z := option_map p_lives (player g).

(** [quiet g g'] holds when going from [g] to [g'] leaves alone
    everything except positions, spawn bookkeeping, score and effects. *)
Definition quiet (g g' : Engine) : Prop :=
  config g' = config g /\
  canvas_height g' = canvas_height g /\
  state g' = state g /\
  stateChanges g' = stateChanges g /\
  scoreMultiplier g' = scoreMultiplier g /\
  timeScale g' = timeScale g /\
  timers g' = timers g /\
  timeSinceLastPowerUp g' = timeSinceLastPowerUp g /\
  gameTime g' = gameTime g /\
  lives_of g' = lives_of g.

(** The fields that no collision handling touches. *)
Definition steady (g g' : Engine) : Prop :=
  config g' = config g /\
  canvas_height g' = canvas_height g /\
  gameTime g' = gameTime g /\
  timeSinceLastPowerUp g' = timeSinceLastPowerUp g /\
  score g' = score g.

Definition config_ok (c : Config) : Prop := (1 <= STARTING_LIVES c <= 5)%Z.

Definition lives_in_range (g : Engine) : Prop :=
  match lives_of g with
  | Some l => (0 <= l <= 5)%Z
  | None => True
  end.

(** While the game is playing or paused there is a player with a life
    left. *)
Definition alive_while_running (g : Engine) : Prop :=
  state g = PLAYING \/ state g = PAUSED ->
  match lives_of g with
  | Some l => (1 <= l)%Z
  | None => False
  end.

Definition inv (g : Engine) : Prop :=
  config_ok (config g) /\ lives_in_range g /\ alive_while_running g.

(** What one call can do to the state machine: nothing, or one change
    to [GAME_OVER]. *)
Definition at_most_one_game_over (g g' : Engine) : Prop :=
  (state g' = state g /\ stateChanges g' = stateChanges g) \/
  (state g' = GAME_OVER /\
   stateChanges g' = stateChanges g ++ [(state g, GAME_OVER)]).

(** The number of changes to [GAME_OVER] in a log of state changes. *)
Definition game_overs (l : list (GameState * GameState)) : nat :=
  length (filter (fun c => GameState_eqb (snd c) GAME_OVER) l).

Definition unmarked (o : Obstacle) : Prop := o_markedForDeletion o = false.

(** The points an obstacle is worth when it leaves the screen. *)
Definition award (playerSpeed scoreMultiplier : Q) (o : Obstacle) : Z :=
  Qfloor (o_points o * playerSpeed * scoreMultiplier).

(** ** Worked runs *)

(** [n] animation frames, [dt] milliseconds apart, the first at [t]; the
    wall clock and the frame timestamps run together. *)
Definition frames_from (t dt : Q) (n : nat) : list Event :=
  map (fun k => let ts := t + inject_Z (Z.of_nat k) * dt in EvFrame ts ts)
      (seq 0 n).

(** A generator whose draws put every obstacle in lane 0, and the first
    power-up in lane 1 with its type left to the constructor, which takes
    it from the draw [d]. *)
Definition pickup_rng (d : Draw) : RNG :=
  rng_of_list [draw_0; draw_0; draw_0; draw_0; draw_0; draw_95; d] draw_0.

(** A game on a 600 by 800 canvas: started, first frame at 9 s, then a
    frame every 100 ms. *)
Definition pickup_run (d : Draw) (n : nat) : Engine :=
  run (H := sampleMath) (EvStart 0 :: frames_from 9000 100 n)
    (Engine_new 0 600 800 (pickup_rng d)).

(** A short game that is then paused. *)
Definition paused_game : Engine :=
  run (H := sampleMath)
    [EvStart 0; EvFrame 1000 1000; EvFrame 1016 1016; EvFrame 3032 3032;
     EvPause]
    (Engine_new 0 600 800 (rng_of_list [] draw_50)).

(** What the specification asks of the frame that follows a resume: one
    nominal step of 16 ms. *)
Definition nominal_resume (now : Q) (g : Engine) : Engine :=
  let g := set_state PLAYING g in
  requestAnimationFrame
    (update (H := sampleMath) now ((16 # 1000) * timeScale g)
       (set_gameTime 0 g)).





(** ** Further functions of utility.js *)


(** [clamp(value, min, max)]. *)
Definition clamp (value min max : Q) : Q := Qmax min (Qmin value max).

(** ** Vocabulary of the further statements *)

(** The six assignments of [setDifficulty] to [GAME_CONFIG]. *)
Definition apply_preset (d : Difficulty) (c : Config) : Config :=
  let preset := DIFFICULTY_PRESETS d in
  {| LANE_COUNT := LANE_COUNT c;
     BASE_GAME_SPEED := preset_BASE_GAME_SPEED preset;
     MAX_GAME_SPEED := preset_MAX_GAME_SPEED preset;
     SPEED_INCREMENT := SPEED_INCREMENT c;
     SPEED_INCREASE_INTERVAL := preset_SPEED_INCREASE_INTERVAL preset;
     BASE_OBSTACLE_INTERVAL := BASE_OBSTACLE_INTERVAL c;
     MIN_OBSTACLE_INTERVAL := MIN_OBSTACLE_INTERVAL c;
     OBSTACLE_INTERVAL_DECREASE_RATE :=
       preset_OBSTACLE_INTERVAL_DECREASE_RATE preset;
     POWER_UP_SPAWN_CHANCE := preset_POWER_UP_SPAWN_CHANCE preset;
     POWER_UP_MIN_SPAWN_INTERVAL := POWER_UP_MIN_SPAWN_INTERVAL c;
     STARTING_LIVES := preset_STARTING_LIVES preset;
     INVINCIBILITY_DURATION := INVINCIBILITY_DURATION c;
     PLAYER_WIDTH := PLAYER_WIDTH c;
     PLAYER_HEIGHT := PLAYER_HEIGHT c;
     DIFFICULTY_INCREASE_RATE := DIFFICULTY_INCREASE_RATE c;
     SCORE_MULTIPLIER := SCORE_MULTIPLIER c;
     BASE_SPEED_FACTOR := BASE_SPEED_FACTOR c;
     MAX_PARTICLES := MAX_PARTICLES c |}.

(** The configurations a game can run under: the constants as shipped,
    or with one of the four presets applied. *)
Definition shipped (c : Config) : Prop :=
  c = GAME_CONFIG \/ exists d, c = apply_preset d GAME_CONFIG.

(** The player stays on the road and within the speed limits. *)
Definition player_ok (c : Config) (p : Player) : Prop :=
  (0 <= p_targetLane p <= Z.of_nat (LANE_COUNT c) - 1)%Z /\
  (0 <= p_lane p <= Z.of_nat (LANE_COUNT c) - 1)%Z /\
  BASE_GAME_SPEED c <= p_speed p /\
  p_speed p <= MAX_GAME_SPEED c.

(** An obstacle on screen: not flagged for deletion, in one of the three
    lanes, worth at least 5 points, falling at 1 to 1.5 times the base
    speed, its hitbox anchored at its corner. *)
Definition obstacle_ok (o : Obstacle) : Prop :=
  unmarked o /\ hitbox_anchored o /\ (o_lane o < 3)%nat /\
  5 <= o_points o /\ 1 <= o_speed o /\ o_speed o < 15 # 10.

(** A power-up on screen: not flagged for deletion, in one of the three
    lanes, with the effect and duration that the catalog gives its
    type. *)
Definition powerUp_ok (u : PowerUp) : Prop :=
  pu_markedForDeletion u = false /\ (pu_lane u < 3)%nat /\
  exists t,
    In t POWER_UP_TYPES /\ pu_type u = pt_type t /\
    pu_effect u = pt_effect t /\
    pu_duration u = or_default (pt_duration t) 0.

Definition sound (g : Engine) : Prop :=
  shipped (config g) /\
  (forall p, player g = Some p -> player_ok (config g) p) /\
  Forall obstacle_ok (obstacles g) /\
  Forall powerUp_ok (powerUps g) /\
  (scoreMultiplier g = 1 \/ scoreMultiplier g = 2) /\
  (timeScale g = 1 \/ timeScale g = 5 # 10).

(** The events that the paused game ignores: animation frames and
    player input. *)
Definition ignored_while_paused (e : Event) : Prop :=
  match e with
  | EvFrame _ _ | EvInput _ | EvPause => True
  | _ => False
  end.

(** The player of an engine that has one. *)
Definition the_player (g : Engine) : Player :=
  match player g with
  | Some p => p
  | None => Player_new (config g) 0 0
  end.

(** The state of a run that has just begun. *)
Definition just_started (c : Config) (g : Engine) : Prop :=
  config g = c /\ state g = PLAYING /\ score g = 0%Z /\
  gameTime g = 0 /\ lastObstacleTime g = 0 /\ lastPowerUpTime g = 0 /\
  lastSpeedIncreaseTime g = 0 /\
  obstacles g = [] /\ powerUps g = [] /\
  timeScale g = 1 /\ scoreMultiplier g = 1 /\
  exists p,
    player g = Some p /\ p_lives p = STARTING_LIVES c /\
    p_speed p = BASE_GAME_SPEED c /\
    p_lane p = 1%Z /\ p_targetLane p = 1%Z /\
    p_invincible p = false /\ p_power p = None.

(** What a loop that runs from the last index down and stops at the
    first hit does to an array: nothing when no element is hit, else the
    hit element nearest the end is taken out. *)
Definition last_hit_removed {A : Type} (hit : A -> bool) (l l' : list A)
    : Prop :=
  (l' = l /\ forall a, In a l -> hit a = false) \/
  exists l1 h l2,
    l = l1 ++ h :: l2 /\ l' = l1 ++ l2 /\ hit h = true /\
    forall a, In a l2 -> hit a = false.

(** The emitter [e'] is [e] with another value of its emit clock. *)
Definition same_but_clock (e e' : Emitter) : Prop :=
  exists t,
    e' = mkEmitter (em_x e) (em_y e) (em_count e) (em_speed e) (em_size e)
           (em_lifetime e) (em_colors e) (em_gravity e) (em_oneShot e)
           (em_active e) t (em_emitInterval e).






(** The three parts of [Player.update], in the order of its body: the
    lane transition, the invincibility after a crash, and the timer of
    the power-up. *)
Definition Player_update_position (deltaTime : Q) (p : Player) : Player :=
  let targetX :=
    p_laneWidth p * inject_Z (p_targetLane p)
    + (p_laneWidth p - p_width p) / 2 in
  let dx := targetX - p_x p in
  if js_gt (Qabs dx) (1 # 10)
  then set_p_x (p_x p + dx * p_laneChangeSpeed p * deltaTime) p
  else set_p_lane (p_targetLane p) (set_p_x targetX p).

Definition Player_update_invincibility (deltaTime : Q) (p : Player)
    : Player :=
  if p_invincible p then
    match p_power p with
    | Some invincibility => p
    | _ =>
      let p := set_p_invincibleTime (p_invincibleTime p - deltaTime * 1000) p in
      if js_le (p_invincibleTime p) 0
      then set_p_visible true (set_p_invincible false p)
      else
        let p := set_p_lastBlinkTime (p_lastBlinkTime p + deltaTime * 1000) p in
        if js_ge (p_lastBlinkTime p) (p_blinkInterval p)
        then set_p_lastBlinkTime 0 (set_p_visible (negb (p_visible p)) p)
        else p
    end
  else p.

Definition Player_update_power (deltaTime : Q) (p : Player) : Player :=
  match p_power p with
  | Some pw =>
    let p := set_p_powerUpTime (p_powerUpTime p - deltaTime * 1000) p in
    if js_le (p_powerUpTime p) 0 then
      let p :=
        match pw with
        | invincibility => set_p_hasShield false (set_p_invincible false p)
        | _ => p
        end in
      set_p_visible true (set_p_power None p)
    else p
  | None => p
  end.

(** ** Reading a field after a sequence of assignments *)

Ltac engine_fields :=
  cbn [
      config canvas_width canvas_height state score highScore gameTime
      lastObstacleTime lastSpeedIncreaseTime lastPowerUpTime timeScale
      scoreMultiplier gameSpeed roadOffset difficulty player obstacles
      powerUps particleSystem animationPending previousScore
      timeSinceLastPowerUp timeSinceLastPowerUpType
      lastPowerUpTypeTime timers rng stateChanges
      set_config set_canvas_width set_canvas_height set_state
      set_score set_highScore set_gameTime set_lastObstacleTime
      set_lastSpeedIncreaseTime set_lastPowerUpTime set_timeScale
      set_scoreMultiplier set_gameSpeed set_roadOffset set_difficulty
      set_player set_obstacles set_powerUps set_particleSystem
      set_animationPending set_previousScore set_timeSinceLastPowerUp
      set_timeSinceLastPowerUpType set_lastPowerUpTypeTime set_timers
      set_rng set_stateChanges
      requestAnimationFrame cancelAnimationFrame emit_stateChange
      fst snd] in *.

Ltac player_fields :=
  cbn [
      p_x p_y p_width p_height p_laneWidth p_lane p_targetLane
      p_laneChangeSpeed p_speed p_isAccelerating p_lives p_invincible
      p_invincibleTime p_hasShield p_power p_powerUpTime
      p_blinkInterval p_lastBlinkTime p_visible
      set_p_x set_p_lane set_p_targetLane set_p_speed
      set_p_isAccelerating set_p_lives set_p_invincible
      set_p_invincibleTime set_p_hasShield set_p_power
      set_p_powerUpTime set_p_lastBlinkTime set_p_visible
      fst snd] in *.

Ltac break_lets :=
  repeat match goal with
  | |- context [match ?e with pair _ _ => _ end] => destruct e
  | |- context [if ?b then _ else _] => destruct b
  end.

Ltac quiet_setters :=
  unfold quiet, lives_of; engine_fields; repeat split; reflexivity.


(** * Properties *)

(** ** Comparisons *)

Lemma js_lt_spec a b : js_lt a b = true <-> a < b.
Proof.
  unfold js_lt. rewrite Qlt_alt. destruct (a ?= b); split; congruence.
Qed.

Lemma js_lt_false a b : js_lt a b = false <-> b <= a.
Proof.
  split; intros H.
  - apply Qnot_lt_le. intros L. apply js_lt_spec in L. congruence.
  - destruct (js_lt a b) eqn:E; [|reflexivity].
    apply js_lt_spec in E. exfalso. exact (Qle_not_lt _ _ H E).
Qed.

Lemma js_gt_spec a b : js_gt a b = true <-> b < a.
Proof. apply js_lt_spec. Qed.

Lemma js_gt_false a b : js_gt a b = false <-> a <= b.
Proof. apply js_lt_false. Qed.

Lemma js_le_spec a b : js_le a b = true <-> a <= b.
Proof.
  unfold js_le. rewrite Qle_alt. destruct (a ?= b); split; congruence.
Qed.

Lemma js_ge_spec a b : js_ge a b = true <-> b <= a.
Proof. apply js_le_spec. Qed.

(** ** Collision test *)

Section Collision.
Context {A B : Type} `{Body A} `{Body B}.

Lemma checkCollision_spec (a : A) (b : B) :
  checkCollision a b = true <->
  body_x a < body_x b + body_width b /\
  body_x b < body_x a + body_width a /\
  body_y a < body_y b + body_height b /\
  body_y b < body_y a + body_height a.
Proof.
  unfold checkCollision.
  rewrite !andb_true_iff, !js_lt_spec, !js_gt_spec. tauto.
Qed.

Lemma checkCollision_sym (a : A) (b : B) :
  checkCollision a b = checkCollision b a.
Proof.
  unfold checkCollision, js_gt.
  destruct (js_lt (body_x a) (body_x b + body_width b)),
           (js_lt (body_x b) (body_x a + body_width a)),
           (js_lt (body_y a) (body_y b + body_height b)),
           (js_lt (body_y b) (body_y a + body_height a)); reflexivity.
Qed.

Lemma checkCollision_touching_x (a : A) (b : B) :
  body_x a + body_width a == body_x b -> checkCollision a b = false.
Proof.
  intros E. destruct (checkCollision a b) eqn:C; [|reflexivity].
  apply checkCollision_spec in C. lra.
Qed.

Lemma checkCollision_touching_y (a : A) (b : B) :
  body_y a + body_height a == body_y b -> checkCollision a b = false.
Proof.
  intros E. destruct (checkCollision a b) eqn:C; [|reflexivity].
  apply checkCollision_spec in C. lra.
Qed.
End Collision.

(** C8.  The overlap test is symmetric, and two rectangles that share
    only an edge, on either axis and on either side, do not collide. *)
Theorem checkCollision_symmetric_strict :
  (forall a b : Rect, checkCollision a b = checkCollision b a) /\
  (forall a b : Rect,
      rect_x a + rect_width a == rect_x b \/
      rect_x b + rect_width b == rect_x a \/
      rect_y a + rect_height a == rect_y b \/
      rect_y b + rect_height b == rect_y a ->
      checkCollision a b = false).
Proof.
  split.
  - intros a b. apply checkCollision_sym.
  - intros a b [E | [E | [E | E]]].
    + now apply checkCollision_touching_x.
    + rewrite checkCollision_sym. now apply checkCollision_touching_x.
    + now apply checkCollision_touching_y.
    + rewrite checkCollision_sym. now apply checkCollision_touching_y.
Qed.

Lemma checkCollision_symmetric_strict_witness :
  checkCollision (mkRect 0 0 10 10) (mkRect 10 0 10 10) = false.
Proof.
  apply (proj2 checkCollision_symmetric_strict).
  left. reflexivity.
Defined.

(** ** Obstacle hitboxes *)

Lemma catalog_shrinking t : In t OBSTACLE_TYPES -> shrinking t.
Proof.
  intros [E | [E | [E | []]]]; subst t; unfold shrinking; simpl;
    repeat split; try reflexivity; discriminate.
Qed.

Lemma Obstacle_of_type_anchored lane laneWidth t v :
  shrinking t -> hitbox_anchored (Obstacle_of_type lane laneWidth t v).
Proof.
  unfold shrinking, hitbox_anchored, Obstacle_of_type. simpl.
  destruct (ot_hitboxAdjustment t) as [adj|]; [|trivial].
  simpl. intros (Hx & Hy & Hw & Hh). repeat split; lra.
Qed.

Lemma Obstacle_update_anchored cfg dt ps gh ts o :
  hitbox_anchored o -> hitbox_anchored (Obstacle_update cfg dt ps gh ts o).
Proof.
  unfold hitbox_anchored, Obstacle_update. simpl.
  destruct (o_hitbox o) as [h|]; [|trivial].
  simpl. intros (Hx & Hy & Hw & Hh). repeat split; try reflexivity; assumption.
Qed.

Lemma anchored_contained o :
  hitbox_anchored o -> contained (Obstacle_hitbox o) (Obstacle_bounds o).
Proof.
  unfold hitbox_anchored, contained, Obstacle_hitbox, Obstacle_bounds.
  destruct (o_hitbox o) as [h|]; simpl.
  - intros (Hx & Hy & Hw & Hh). repeat split; lra.
  - intros _. repeat split; lra.
Qed.

Lemma anchored_collision {A : Type} `{Body A} (a : A) o :
  hitbox_anchored o ->
  checkCollision a (Obstacle_hitbox o) = true -> checkCollision a o = true.
Proof.
  intros Ha C. apply checkCollision_spec in C. apply checkCollision_spec.
  unfold hitbox_anchored, Obstacle_hitbox, Obstacle_bounds in *.
  destruct (o_hitbox o) as [h|]; simpl in *.
  - destruct Ha as (Hx & Hy & Hw & Hh), C as (C1 & C2 & C3 & C4).
    repeat split; lra.
  - exact C.
Qed.

Lemma Obstacle_updates_anchored cfg steps o :
  hitbox_anchored o -> hitbox_anchored (Obstacle_updates cfg steps o).
Proof.
  unfold Obstacle_updates. revert o.
  induction steps as [|a steps IH]; intros o Ho; simpl.
  - exact Ho.
  - apply IH. now apply Obstacle_update_anchored.
Qed.

(** C10.  For an obstacle built from a catalog entry, after construction
    and after any number of updates, the hitbox lies within the visual
    bounds, and whatever collides with the hitbox collides with the
    bounds. *)
Theorem hitbox_within_bounds :
  forall (t : ObstacleType) (lane : nat) (laneWidth speedDraw : Q)
         (cfg : Config) (steps : list UpdateArgs),
    In t OBSTACLE_TYPES ->
    let o :=
      Obstacle_updates cfg steps
        (Obstacle_of_type lane laneWidth t speedDraw) in
    contained (Obstacle_hitbox o) (Obstacle_bounds o) /\
    forall p : Player,
      checkCollision p (Obstacle_hitbox o) = true -> checkCollision p o = true.
Proof.
  intros t lane laneWidth v cfg steps Ht o.
  assert (Ho : hitbox_anchored o).
  { apply Obstacle_updates_anchored, Obstacle_of_type_anchored.
    now apply catalog_shrinking. }
  split.
  - now apply anchored_contained.
  - intros p. now apply anchored_collision.
Qed.

Lemma hitbox_within_bounds_witness :
  let o :=
    Obstacle_updates GAME_CONFIG [mkUpdateArgs (16 # 1000) 1 800 1]
      (Obstacle_of_type 1 200 (mkObstacleType car 50 80 10
                                 (Some (mkRect 0 0 (-5) (-5)))) (1 # 2)) in
  contained (Obstacle_hitbox o) (Obstacle_bounds o) /\
  forall p : Player,
    checkCollision p (Obstacle_hitbox o) = true -> checkCollision p o = true.
Proof.
  apply (hitbox_within_bounds
           (mkObstacleType car 50 80 10 (Some (mkRect 0 0 (-5) (-5))))
           1 200 (1 # 2) GAME_CONFIG [mkUpdateArgs (16 # 1000) 1 800 1]).
  simpl. left. reflexivity.
Defined.

(** ** Particle cap *)

Section Particles.
Context `{MathLib}.
Variable cfg : Config.
Hypothesis cap_positive : (1 <= MAX_PARTICLES cfg)%nat.

Lemma emit_one_shape emitter ps r :
  exists p,
    fst (emit_one cfg emitter (ps, r)) =
    (if (MAX_PARTICLES cfg <=? length ps)%nat then tl ps else ps) ++ [p].
Proof.
  unfold emit_one, Math_random, shift. simpl.
  eexists. reflexivity.
Qed.

Lemma emit_one_length emitter st :
  (length (fst st) <= MAX_PARTICLES cfg)%nat ->
  (length (fst (emit_one cfg emitter st)) <= MAX_PARTICLES cfg)%nat.
Proof.
  destruct st as [ps r]. intros L.
  destruct (emit_one_shape emitter ps r) as [p Hp]. rewrite Hp.
  simpl in L. rewrite length_app. simpl.
  destruct (Nat.leb_spec (MAX_PARTICLES cfg) (length ps)).
  - destruct ps; simpl in *; lia.
  - lia.
Qed.

Lemma emit_loop_length emitter n st :
  (length (fst st) <= MAX_PARTICLES cfg)%nat ->
  (length (fst (emit_loop cfg emitter n st)) <= MAX_PARTICLES cfg)%nat.
Proof.
  revert st. induction n as [|n IH]; intros st L; simpl.
  - exact L.
  - apply IH. now apply emit_one_length.
Qed.

Lemma emit_length emitter st :
  (length (fst st) <= MAX_PARTICLES cfg)%nat ->
  (length (fst (emit cfg emitter st)) <= MAX_PARTICLES cfg)%nat.
Proof.
  intros L. unfold emit. destruct (negb (em_active emitter)).
  - exact L.
  - now apply emit_loop_length.
Qed.

(** The particle array behaves as a bounded queue: after [n] emissions
    it holds the last [MAX_PARTICLES] of the old particles followed by
    the new ones. *)
Lemma emit_loop_fifo emitter n ps r :
  (length ps <= MAX_PARTICLES cfg)%nat ->
  exists news,
    length news = n /\
    fst (emit_loop cfg emitter n (ps, r)) =
    skipn (length ps + n - MAX_PARTICLES cfg) (ps ++ news).
Proof.
  revert ps r. induction n as [|n IH]; intros ps r L.
  - exists []. split; [reflexivity|]. simpl.
    replace (length ps + 0 - MAX_PARTICLES cfg)%nat with 0%nat by lia.
    now rewrite app_nil_r.
  - change (emit_loop cfg emitter (S n) (ps, r))
      with (emit_loop cfg emitter n (emit_one cfg emitter (ps, r))).
    destruct (emit_one_shape emitter ps r) as [p Hp].
    pose proof (emit_one_length emitter (ps, r) L) as L1.
    destruct (emit_one cfg emitter (ps, r)) as [ps1 r1]. simpl in Hp, L1.
    destruct (IH ps1 r1 L1) as (news & Hn & Hq).
    exists (p :: news). split; [simpl; now rewrite Hn|].
    rewrite Hq, Hp.
    destruct (Nat.leb_spec (MAX_PARTICLES cfg) (length ps)) as [G | G].
    + destruct ps as [|a ps]; [simpl in *; lia|]. simpl tl.
      rewrite length_app. simpl length in *.
      replace (length ps + 1 + n - MAX_PARTICLES cfg)%nat with n by lia.
      replace (S (length ps) + S n - MAX_PARTICLES cfg)%nat with (S n) by lia.
      simpl. now rewrite <- app_assoc.
    + rewrite length_app. simpl length.
      replace (length ps + 1 + n)%nat with (length ps + S n)%nat by lia.
      now rewrite <- app_assoc.
Qed.

Lemma update_particles_length delta ps :
  (length (update_particles delta ps) <= length ps)%nat.
Proof.
  induction ps as [|p ps IH]; simpl; [lia|].
  destruct (js_ge _ _); simpl; lia.
Qed.

Lemma update_emitters_length delta es st :
  (length (fst st) <= MAX_PARTICLES cfg)%nat ->
  (length (fst (snd (update_emitters cfg delta es st)))
   <= MAX_PARTICLES cfg)%nat.
Proof.
  revert st. induction es as [|e es IH]; intros st L; simpl.
  - exact L.
  - specialize (IH st L).
    destruct (update_emitters cfg delta es st) as [rest st1]. simpl in IH.
    destruct (negb (em_oneShot e) && em_active e).
    + destruct (js_ge _ _).
      * pose proof (emit_length e st1 IH).
        destruct (em_oneShot e); simpl; assumption.
      * destruct (em_oneShot e); simpl; assumption.
    + destruct (em_oneShot e); simpl; assumption.
Qed.

Lemma createEmitter_within_cap config s r :
  within_cap cfg (s, r) -> within_cap cfg (createEmitter cfg config s r).
Proof.
  unfold within_cap, createEmitter. simpl. intros L.
  match goal with |- context [if ?b then _ else _] => destruct b end.
  - match goal with |- context [emit cfg ?e ?st] =>
      pose proof (emit_length e st L) as L1;
      destruct (emit cfg e st) as [ps1 r1]
    end.
    exact L1.
  - exact L.
Qed.

Lemma ParticleSystem_update_within_cap delta s r :
  within_cap cfg (s, r) -> within_cap cfg (ParticleSystem_update cfg delta s r).
Proof.
  unfold within_cap, ParticleSystem_update. simpl. intros L.
  pose proof (update_emitters_length delta (emitters s) (particles s, r) L)
    as L1.
  destruct (update_emitters cfg delta (emitters s) (particles s, r))
    as [es [ps r1]]. simpl in *.
  pose proof (update_particles_length delta ps). lia.
Qed.

Lemma ParticleSystem_apply_within_cap op st :
  within_cap cfg st -> within_cap cfg (ParticleSystem_apply cfg op st).
Proof.
  destruct st as [s r]. intros L.
  destruct op; simpl.
  - now apply createEmitter_within_cap.
  - pose proof (emit_length emitter (particles s, r) L) as L1.
    destruct (emit cfg emitter (particles s, r)) as [ps1 r1]. exact L1.
  - now apply createEmitter_within_cap.
  - now apply ParticleSystem_update_within_cap.
  - unfold within_cap. simpl. lia.
  - exact L.
Qed.

Lemma ParticleSystem_run_within_cap ops st :
  within_cap cfg st -> within_cap cfg (ParticleSystem_run cfg ops st).
Proof.
  unfold ParticleSystem_run. revert st.
  induction ops as [|op ops IH]; intros st L; simpl.
  - exact L.
  - apply IH. now apply ParticleSystem_apply_within_cap.
Qed.
End Particles.

(** C7.  With a positive cap, the particle array never grows beyond
    [MAX_PARTICLES], whatever operations are applied to a fresh particle
    system; an emission into a full array drops the particle at the head
    of the array, the oldest, for the one it appends; and in general the
    array after [emit] is the tail of the old particles followed by the
    new ones. *)
Theorem particle_cap_fifo :
  forall (M : MathLib) (cfg : Config),
    (1 <= MAX_PARTICLES cfg)%nat ->
    (forall (ops : list ParticleOp) (r : RNG),
        (length (particles
                   (fst (ParticleSystem_run cfg ops (ParticleSystem_new, r))))
         <= MAX_PARTICLES cfg)%nat) /\
    (forall (emitter : Emitter) (ps : list Particle) (r : RNG),
        length ps = MAX_PARTICLES cfg ->
        exists p, fst (emit_one cfg emitter (ps, r)) = tl ps ++ [p]) /\
    (forall (emitter : Emitter) (ps : list Particle) (r : RNG),
        (length ps <= MAX_PARTICLES cfg)%nat ->
        em_active emitter = true ->
        exists news,
          length news = em_count emitter /\
          fst (emit cfg emitter (ps, r)) =
          skipn (length ps + em_count emitter - MAX_PARTICLES cfg)
                (ps ++ news)).
Proof.
  intros M cfg Hcap. split; [|split].
  - intros ops r.
    apply (ParticleSystem_run_within_cap cfg Hcap ops (ParticleSystem_new, r)).
    unfold within_cap. simpl. lia.
  - intros emitter ps r L.
    destruct (emit_one_shape cfg emitter ps r) as [p Hp].
    exists p. rewrite Hp.
    now rewrite (proj2 (Nat.leb_le _ _)) by lia.
  - intros emitter ps r L Ha. unfold emit. rewrite Ha. simpl.
    now apply emit_loop_fifo.
Qed.

Lemma particle_cap_fifo_witness :
  (length (particles
             (fst (ParticleSystem_run (H := sampleMath) GAME_CONFIG
                     [OpExplosion 0 0 PARTICLE_CONFIG_crash;
                      OpUpdate (16 # 1000)]
                     (ParticleSystem_new, rng_of_list [] draw_50))))
   <= MAX_PARTICLES GAME_CONFIG)%nat.
Proof.
  apply (proj1 (particle_cap_fifo sampleMath GAME_CONFIG
                  ltac:(simpl; lia))).
Defined.

(** ** Points for obstacles *)

Section ObstaclePoints.
Variables (cfg : Config).
Variables (deltaTime playerSpeed gameHeight timeScale scoreMultiplier : Q).

Lemma Obstacle_update_flag o :
  o_markedForDeletion o = false ->
  o_markedForDeletion (Obstacle_update cfg deltaTime playerSpeed gameHeight timeScale o) = js_gt (o_y (Obstacle_update cfg deltaTime playerSpeed gameHeight timeScale o)) gameHeight.
Proof.
  unfold Obstacle_update. cbn [o_markedForDeletion o_y]. intros ->.
  now destruct (js_gt _ _).
Qed.

Lemma updateObstacles_loop_spec os score :
  Forall (fun o => o_markedForDeletion o = false) os ->
  updateObstacles_loop cfg deltaTime playerSpeed gameHeight timeScale
    scoreMultiplier os score =
  (filter (fun o => negb (js_gt (o_y o) gameHeight)) (map (Obstacle_update cfg deltaTime playerSpeed gameHeight timeScale) os),
   (score
    + sum_Z (map (fun o => Qfloor (o_points o * playerSpeed * scoreMultiplier))
               (filter (fun o => js_gt (o_y (Obstacle_update cfg deltaTime playerSpeed gameHeight timeScale o)) gameHeight) os)))%Z).
Proof.
  induction 1 as [|o os Ho Hos IH].
  - cbn [updateObstacles_loop map filter sum_Z fold_right].
    now rewrite Z.add_0_r.
  - cbn [updateObstacles_loop map filter]. rewrite IH.
    rewrite (Obstacle_update_flag o Ho).
    destruct (js_gt (o_y (Obstacle_update cfg deltaTime playerSpeed gameHeight timeScale o)) gameHeight);
      cbn [negb map sum_Z fold_right].
    + f_equal. fold (sum_Z
        (map (fun o => Qfloor (o_points o * playerSpeed * scoreMultiplier))
           (filter (fun o => js_gt (o_y (Obstacle_update cfg deltaTime playerSpeed gameHeight timeScale o)) gameHeight) os))).
      change (o_points (Obstacle_update cfg deltaTime playerSpeed gameHeight timeScale o)) with (o_points o). lia.
    + reflexivity.
Qed.

Lemma updateObstacles_loop_unmarked os score :
  Forall (fun o => o_markedForDeletion o = false)
    (fst (updateObstacles_loop cfg deltaTime playerSpeed gameHeight
            timeScale scoreMultiplier os score)).
Proof.
  induction os as [|o os IH]; cbn [updateObstacles_loop].
  - constructor.
  - destruct (updateObstacles_loop cfg deltaTime playerSpeed gameHeight
                timeScale scoreMultiplier os score) as [rest s].
    cbn [fst] in IH.
    destruct (o_markedForDeletion (Obstacle_update cfg deltaTime playerSpeed gameHeight timeScale o)) eqn:E; cbn [fst];
      [assumption | now constructor].
Qed.
End ObstaclePoints.

(** ** What the parts of a frame leave alone *)

Lemma GameState_eqb_eq a b : GameState_eqb a b = true <-> a = b.
Proof. destruct a, b; simpl; split; congruence. Qed.

Lemma quiet_refl g : quiet g g.
Proof. unfold quiet. tauto. Qed.

Lemma quiet_trans g1 g2 g3 : quiet g1 g2 -> quiet g2 g3 -> quiet g1 g3.
Proof.
  unfold quiet. intros (A1 & A2 & A3 & A4 & A5 & A6 & A7 & A8 & A9 & A10)
                       (B1 & B2 & B3 & B4 & B5 & B6 & B7 & B8 & B9 & B10).
  repeat split; congruence.
Qed.

Lemma Player_update_lives d p : p_lives (Player_update d p) = p_lives p.
Proof.
  unfold Player_update.
  repeat match goal with
  | |- context [if ?b then _ else _] => destruct b
  | |- context [match p_power ?q with _ => _ end] => destruct (p_power q)
  | |- context [match ?e with invincibility => _ | _ => _ end] => destruct e
  end; reflexivity.
Qed.

Lemma Player_update_speed d p : p_speed (Player_update d p) = p_speed p.
Proof.
  unfold Player_update.
  repeat match goal with
  | |- context [if ?b then _ else _] => destruct b
  | |- context [match p_power ?q with _ => _ end] => destruct (p_power q)
  | |- context [match ?e with invincibility => _ | _ => _ end] => destruct e
  end; reflexivity.
Qed.

Lemma set_player_quiet p g :
  lives_of g = Some (p_lives p) -> quiet g (set_player (Some p) g).
Proof.
  intros L. unfold quiet, lives_of in *. engine_fields.
  cbn [option_map]. repeat split. now rewrite L.
Qed.

Lemma update_road_quiet d p g : quiet g (update_road d p g).
Proof. unfold update_road. break_lets; quiet_setters. Qed.

Lemma updateObstacles_quiet d p g : quiet g (updateObstacles d p g).
Proof. unfold updateObstacles. break_lets. quiet_setters. Qed.

Lemma updatePowerUps_quiet `{MathLib} now d p g :
  quiet g (updatePowerUps now d p g).
Proof. unfold updatePowerUps. break_lets. quiet_setters. Qed.

Lemma update_particleSystem_quiet `{MathLib} d g :
  quiet g (update_particleSystem d g).
Proof. unfold update_particleSystem. break_lets. quiet_setters. Qed.

Lemma spawnObstacle_quiet g : quiet g (spawnObstacle g).
Proof.
  unfold spawnObstacle, Math_random, Obstacle_new.
  cbn [fst snd]. break_lets; quiet_setters.
Qed.

Lemma spawnPowerUp_quiet now p g : quiet g (spawnPowerUp now p g).
Proof.
  unfold spawnPowerUp, Math_random.
  destruct (safeLanes_of _ _); [quiet_setters|].
  destruct (PowerUp_new _ _ _ _) as [u r]. quiet_setters.
Qed.

Lemma increaseDifficulty_quiet g : quiet g (increaseDifficulty g).
Proof.
  unfold increaseDifficulty. engine_fields.
  destruct (player g) as [p|] eqn:Hp.
  - destruct (js_lt _ _); unfold quiet, lives_of; engine_fields;
      rewrite Hp; repeat split.
  - unfold quiet, lives_of; engine_fields. rewrite Hp. repeat split.
Qed.

Lemma update_spawnObstacle_quiet g : quiet g (update_spawnObstacle g).
Proof.
  unfold update_spawnObstacle. destruct (js_gt _ _); [|apply quiet_refl].
  eapply quiet_trans; [apply spawnObstacle_quiet | quiet_setters].
Qed.

Lemma update_spawnPowerUp_quiet now g : quiet g (update_spawnPowerUp now g).
Proof.
  unfold update_spawnPowerUp. destruct (js_gt _ _); [|apply quiet_refl].
  unfold Math_random. cbv zeta.
  set (g' := set_rng _ g).
  assert (Q' : quiet g g') by (subst g'; quiet_setters).
  clearbody g'.
  destruct (js_lt _ _).
  - unfold with_player. destruct (player g') as [p|].
    + eapply quiet_trans; [exact Q'|].
      eapply quiet_trans; [apply spawnPowerUp_quiet | quiet_setters].
    + eapply quiet_trans; [exact Q' | quiet_setters].
  - eapply quiet_trans; [exact Q' | quiet_setters].
Qed.

Lemma update_difficulty_quiet g : quiet g (update_difficulty g).
Proof.
  unfold update_difficulty. destruct (js_gt _ _); [|apply quiet_refl].
  eapply quiet_trans; [apply increaseDifficulty_quiet | quiet_setters].
Qed.

Lemma update_score_quiet d g : quiet g (update_score d g).
Proof.
  unfold update_score, with_player.
  destruct (player g); [|apply quiet_refl].
  break_lets; quiet_setters.
Qed.

Lemma update_no_player `{MathLib} now deltaTime g :
  player g = None -> update now deltaTime g = g.
Proof. intros Hp. unfold update, with_player. now rewrite Hp. Qed.

(** A frame is [checkCollisions] between two quiet stretches. *)
Lemma update_shape `{MathLib} now deltaTime g p :
  player g = Some p ->
  exists g1,
    quiet g g1 /\
    quiet (checkCollisions now g1) (update now deltaTime g).
Proof.
  intros Hp. unfold update, with_player at 1. rewrite Hp. cbv zeta.
  eexists. split; cycle 1.
  - eapply quiet_trans; [|apply update_score_quiet].
    eapply quiet_trans; [|apply update_difficulty_quiet].
    eapply quiet_trans; [|apply update_spawnPowerUp_quiet].
    apply update_spawnObstacle_quiet.
  - eapply quiet_trans; [|apply update_particleSystem_quiet].
    eapply quiet_trans; [|apply updatePowerUps_quiet].
    eapply quiet_trans; [|apply updateObstacles_quiet].
    eapply quiet_trans; [|apply update_road_quiet].
    apply set_player_quiet. unfold lives_of. rewrite Hp. cbn [option_map].
    now rewrite Player_update_lives.
Qed.

(** ** Collision handling *)

Lemma checkObstacleCollisions_effect `{MathLib} p g :
  player g = Some p ->
  p_invincible p = false ->
  let g' := checkObstacleCollisions p g in
  steady g g' /\
  scoreMultiplier g' = scoreMultiplier g /\
  timeScale g' = timeScale g /\
  timers g' = timers g /\
  ((lives_of g' = lives_of g /\
    state g' = state g /\ stateChanges g' = stateChanges g) \/
   (lives_of g' = Some (p_lives p - 1)%Z /\
    if (p_lives p - 1 <=? 0)%Z
    then state g' = GAME_OVER /\
         stateChanges g' = stateChanges g ++ [(state g, GAME_OVER)]
    else state g' = state g /\ stateChanges g' = stateChanges g)).
Proof.
  intros Hp Hi. unfold checkObstacleCollisions.
  destruct (splice_last_hit _ _) as [[o rest]|].
  2:{ cbv zeta. unfold steady. repeat split. left. repeat split. }
  destruct (explosion _ _ _ _ _ _) as [ps r].
  unfold Player_takeDamage. rewrite Hi. player_fields.
  destruct (p_lives p - 1 <=? 0)%Z eqn:E.
  - unfold setState_GAME_OVER, endGame. engine_fields.
    destruct (highScore g <? score g)%Z;
      unfold steady, lives_of; engine_fields;
      cbn [option_map p_lives set_p_lives];
      (split; [repeat split|]); do 3 (split; [reflexivity|]);
      right; repeat split.
  - unfold steady, lives_of; engine_fields.
    cbn [option_map]. player_fields.
    (split; [repeat split|]); do 3 (split; [reflexivity|]);
      right; repeat split.
Qed.

Lemma splice_last_hit_some {A : Type} (hit : A -> bool) l h rest :
  splice_last_hit hit l = Some (h, rest) ->
  In h l /\ hit h = true /\ S (length rest) = length l.
Proof.
  revert h rest. induction l as [|a l IH]; intros h rest; simpl.
  - discriminate.
  - destruct (splice_last_hit hit l) as [[h' rest']|].
    + intros E. injection E as <- <-.
      destruct (IH h' rest' eq_refl) as (I & Hh & L).
      simpl. repeat split; auto.
    + destruct (hit a) eqn:Ha; [|discriminate].
      intros E. injection E as <- <-. repeat split; auto.
Qed.

Lemma splice_last_hit_none {A : Type} (hit : A -> bool) l :
  splice_last_hit hit l = None <-> forall a, In a l -> hit a = false.
Proof.
  induction l as [|a l IH]; simpl.
  - split; [intros _ a []|reflexivity].
  - destruct (splice_last_hit hit l) as [[h' rest']|].
    + split; [discriminate|]. intros Hall.
      assert (Hn : Some (h', rest') = None).
      { apply IH. intros b Hb. apply Hall. now right. }
      discriminate.
    + destruct (hit a) eqn:Ha.
      * split; [discriminate|]. intros Hall.
        rewrite (Hall a (or_introl eq_refl)) in Ha. discriminate.
      * split; [|reflexivity]. intros _ b [<- | Hb]; [assumption|].
        now apply (proj1 IH eq_refl).
Qed.

Lemma Player_applyPowerUp_lives e d p :
  p_lives (Player_applyPowerUp e d p)
  = match e with addLife => Z.min (p_lives p + 1) 5 | _ => p_lives p end.
Proof. destruct e; reflexivity. Qed.

Lemma checkPowerUpCollisions_effect `{MathLib} now p g :
  let g' := checkPowerUpCollisions now p g in
  steady g g' /\
  state g' = state g /\
  stateChanges g' = stateChanges g /\
  (g' = g \/
   exists u,
     In u (powerUps g) /\ checkCollision p u = true /\
     lives_of g' = Some (match pu_effect u with
                         | addLife => Z.min (p_lives p + 1) 5
                         | _ => p_lives p
                         end) /\
     scoreMultiplier g' = match pu_effect u with
                          | doubleScore => 2
                          | _ => scoreMultiplier g
                          end /\
     timeScale g' = match pu_effect u with
                    | slowMotion => 5 # 10
                    | _ => timeScale g
                    end /\
     timers g' = timers g ++
                 match pu_effect u with
                 | slowMotion => [mkTimer (now + pu_duration u) ResetTimeScale]
                 | doubleScore =>
                   [mkTimer (now + pu_duration u) ResetScoreMultiplier]
                 | _ => []
                 end).
Proof.
  unfold checkPowerUpCollisions.
  destruct (splice_last_hit _ _) as [[u rest]|] eqn:S.
  2:{ cbv zeta. unfold steady. repeat split. now left. }
  apply splice_last_hit_some in S. destruct S as (Hin & Hhit & _).
  destruct (explosion _ _ _ _ _ _) as [ps r].
  unfold applyPowerUp.
  destruct (pu_effect u) eqn:E;
    unfold steady, lives_of; engine_fields; cbn [option_map];
    (split; [repeat split|]); do 2 (split; [reflexivity|]);
    right; exists u; rewrite E, ?Player_applyPowerUp_lives;
    repeat split; auto using app_nil_r.
Qed.

Lemma steady_refl g : steady g g.
Proof. unfold steady. tauto. Qed.

Lemma steady_trans g1 g2 g3 : steady g1 g2 -> steady g2 g3 -> steady g1 g3.
Proof.
  unfold steady. intros (A1 & A2 & A3 & A4 & A5) (B1 & B2 & B3 & B4 & B5).
  repeat split; congruence.
Qed.

Lemma checkCollisions_steady `{MathLib} now g :
  steady g (checkCollisions now g).
Proof.
  unfold checkCollisions, with_player.
  destruct (player g) as [p|] eqn:Hp; [|apply steady_refl].
  destruct (p_invincible p) eqn:Hi; [apply steady_refl|].
  destruct (checkObstacleCollisions_effect p g Hp Hi) as (S1 & _).
  cbv zeta in S1. set (g1 := checkObstacleCollisions p g) in *.
  destruct (player g1) as [p1|]; [|exact S1].
  eapply steady_trans; [exact S1|].
  apply (checkPowerUpCollisions_effect now p1 g1).
Qed.

Lemma checkCollisions_transitions `{MathLib} now g :
  at_most_one_game_over g (checkCollisions now g).
Proof.
  unfold checkCollisions, with_player, at_most_one_game_over.
  destruct (player g) as [p|] eqn:Hp; [|now left].
  destruct (p_invincible p) eqn:Hi; [now left|].
  destruct (checkObstacleCollisions_effect p g Hp Hi) as (_ & _ & _ & _ & T).
  cbv zeta in T. set (g1 := checkObstacleCollisions p g) in *.
  assert (T1 : (state g1 = state g /\ stateChanges g1 = stateChanges g) \/
               (state g1 = GAME_OVER /\
                stateChanges g1 = stateChanges g ++ [(state g, GAME_OVER)])).
  { destruct T as [(_ & T)|(_ & T)]; [now left|].
    destruct (p_lives p - 1 <=? 0)%Z; [now right | now left]. }
  destruct (player g1) as [p1|]; [|exact T1].
  destruct (checkPowerUpCollisions_effect now p1 g1) as (_ & E1 & E2 & _).
  cbv zeta in E1, E2. rewrite E1, E2. exact T1.
Qed.

Lemma inv_quiet g g' : quiet g g' -> inv g -> inv g'.
Proof.
  unfold quiet, inv, lives_in_range, alive_while_running.
  intros (A1 & A2 & A3 & A4 & A5 & A6 & A7 & A8 & A9 & A10) (I1 & I2 & I3).
  rewrite A1, A3, A10. auto.
Qed.

Lemma checkCollisions_inv `{MathLib} now g :
  inv g -> state g = PLAYING -> inv (checkCollisions now g).
Proof.
  intros I Hs. pose proof I as (I1 & I2 & I3).
  unfold checkCollisions, with_player.
  destruct (player g) as [p|] eqn:Hp; [|exact I].
  destruct (p_invincible p) eqn:Hi; [exact I|].
  assert (L : (1 <= p_lives p <= 5)%Z).
  { unfold lives_in_range, alive_while_running, lives_of in *.
    rewrite Hp in *. cbn [option_map] in *. specialize (I3 (or_introl Hs)).
    lia. }
  destruct (checkObstacleCollisions_effect p g Hp Hi)
    as ((C & _) & _ & _ & _ & T).
  cbv zeta in C, T. set (g1 := checkObstacleCollisions p g) in *.
  assert (I' : inv g1).
  { unfold inv, lives_in_range, alive_while_running. rewrite C.
    split; [exact I1|].
    destruct T as [(T1 & T2 & _)|(T1 & T2)].
    - rewrite T1, T2. split; assumption.
    - rewrite T1.
      destruct (Z.leb_spec (p_lives p - 1) 0) as [G|G];
        destruct T2 as (T2 & _); rewrite T2.
      + split; [lia|]. intros [D|D]; discriminate.
      + split; [lia|]. intros _. lia. }
  destruct (player g1) as [p1|] eqn:Hp1; [|exact I'].
  destruct (checkPowerUpCollisions_effect now p1 g1)
    as ((C2 & _) & E1 & E2 & E).
  cbv zeta in C2, E1, E2, E.
  destruct E as [-> | (u & _ & _ & L2 & _)]; [exact I'|].
  destruct I' as (J1 & J2 & J3).
  unfold inv, lives_in_range, alive_while_running in *.
  rewrite C2, E1, L2.
  unfold lives_of in J2, J3. rewrite Hp1 in J2, J3. cbn [option_map] in *.
  split; [exact J1|]. split.
  - destruct (pu_effect u); lia.
  - intros D. specialize (J3 D). destruct (pu_effect u); lia.
Qed.

(** ** The invariant of the running game *)

Lemma inv_same g g' :
  config g' = config g -> state g' = state g -> lives_of g' = lives_of g ->
  inv g -> inv g'.
Proof.
  unfold inv, lives_in_range, alive_while_running.
  intros -> -> ->. auto.
Qed.

Lemma update_inv `{MathLib} now d g :
  inv g -> state g = PLAYING -> inv (update now d g).
Proof.
  intros I Hs. destruct (player g) as [p|] eqn:Hp.
  - destruct (update_shape now d g p Hp) as (g1 & Q1 & Q2).
    apply (inv_quiet _ _ Q2). apply checkCollisions_inv.
    + now apply (inv_quiet _ _ Q1).
    + destruct Q1 as (_ & _ & E & _). congruence.
  - now rewrite update_no_player.
Qed.

Lemma at_most_one_game_over_quiet g g1 g2 g' :
  quiet g g1 -> at_most_one_game_over g1 g2 -> quiet g2 g' ->
  at_most_one_game_over g g'.
Proof.
  unfold quiet, at_most_one_game_over.
  intros (_ & _ & A3 & A4 & _) T (_ & _ & B3 & B4 & _).
  rewrite B3, B4, <- A3, <- A4. exact T.
Qed.

Lemma update_transitions `{MathLib} now d g :
  at_most_one_game_over g (update now d g).
Proof.
  destruct (player g) as [p|] eqn:Hp.
  - destruct (update_shape now d g p Hp) as (g1 & Q1 & Q2).
    eapply at_most_one_game_over_quiet; [exact Q1| |exact Q2].
    apply checkCollisions_transitions.
  - rewrite update_no_player by assumption. now left.
Qed.

Lemma gameLoop_not_playing `{MathLib} now ts g :
  state g <> PLAYING -> gameLoop now ts g = g.
Proof.
  intros Hs. unfold gameLoop. destruct (state g); try reflexivity.
  now elim Hs.
Qed.

Lemma gameLoop_playing `{MathLib} now ts g :
  state g = PLAYING ->
  gameLoop now ts g =
  requestAnimationFrame
    (update now
       ((if js_gt (gameTime g) 0 then (ts - gameTime g) / 1000
         else 16 # 1000) * timeScale g)
       (set_gameTime ts g)).
Proof. intros Hs. unfold gameLoop. rewrite Hs. reflexivity. Qed.

Lemma gameLoop_inv `{MathLib} now ts g : inv g -> inv (gameLoop now ts g).
Proof.
  intros I. destruct (GameState_eqb (state g) PLAYING) eqn:E.
  - assert (Hs : state g = PLAYING) by (destruct (state g); now try discriminate).
    rewrite gameLoop_playing by assumption.
    set (d := _ * timeScale g).
    eapply inv_same; [| | | apply (update_inv now d (set_gameTime ts g))];
      try reflexivity.
    + eapply inv_same; [| | | exact I]; reflexivity.
    + exact Hs.
  - rewrite gameLoop_not_playing; [exact I|].
    intros Hs. rewrite Hs in E. discriminate.
Qed.

Lemma gameLoop_transitions `{MathLib} now ts g :
  (state (gameLoop now ts g) = state g /\
   stateChanges (gameLoop now ts g) = stateChanges g) \/
  (state g = PLAYING /\ state (gameLoop now ts g) = GAME_OVER /\
   stateChanges (gameLoop now ts g)
   = stateChanges g ++ [(PLAYING, GAME_OVER)]).
Proof.
  destruct (GameState_eqb (state g) PLAYING) eqn:E.
  - assert (Hs : state g = PLAYING) by (destruct (state g); now try discriminate).
    rewrite gameLoop_playing by assumption.
    set (d := _ * timeScale g).
    destruct (update_transitions now d (set_gameTime ts g)) as [(A & B)|(A & B)].
    + left. unfold requestAnimationFrame. engine_fields. now split.
    + right. unfold requestAnimationFrame. engine_fields.
      rewrite Hs in B. auto.
  - left. rewrite gameLoop_not_playing; [now split|].
    intros Hs. rewrite Hs in E. discriminate.
Qed.

Lemma fireTimers_core now g :
  config (fireTimers now g) = config g /\
  state (fireTimers now g) = state g /\
  stateChanges (fireTimers now g) = stateChanges g /\
  player (fireTimers now g) = player g /\
  score (fireTimers now g) = score g.
Proof.
  unfold fireTimers.
  set (g0 := set_timers _ g).
  assert (E : config g0 = config g /\ state g0 = state g /\
              stateChanges g0 = stateChanges g /\ player g0 = player g /\
              score g0 = score g) by (subst g0; repeat split).
  clearbody g0. revert g0 E.
  induction (filter _ (timers g)) as [|t l IH]; intros g0 E; simpl.
  - exact E.
  - apply IH. destruct (timer_action t); exact E.
Qed.

Lemma Player_new_lives cfg w h : p_lives (Player_new cfg w h) = STARTING_LIVES cfg.
Proof. reflexivity. Qed.

Lemma startGame_reset_inv g :
  config_ok (config g) -> state g = PLAYING -> inv (startGame_reset g).
Proof.
  intros C Hs.
  unfold inv, lives_in_range, alive_while_running, lives_of, startGame_reset.
  cbv zeta. engine_fields. cbn [option_map]. rewrite Player_new_lives.
  unfold config_ok in *. repeat split; lia.
Qed.

Lemma startGame_inv `{MathLib} now g :
  config_ok (config g) -> state g = PLAYING -> inv (startGame now g).
Proof.
  intros C Hs. unfold startGame. now apply gameLoop_inv, startGame_reset_inv.
Qed.

Lemma preset_lives d : (2 <= preset_STARTING_LIVES (DIFFICULTY_PRESETS d) <= 5)%Z.
Proof. destruct d; simpl; lia. Qed.

Lemma setDifficulty_inv d g : inv g -> inv (setDifficulty d g).
Proof.
  intros I. pose proof I as (I1 & I2 & I3). destruct d as [d|]; [|exact I].
  unfold setDifficulty. cbv zeta. engine_fields.
  pose proof (preset_lives d) as P.
  destruct (player g) as [p|] eqn:Hp.
  - unfold inv, config_ok, lives_in_range, alive_while_running, lives_of.
    engine_fields. cbn [STARTING_LIVES option_map].
    unfold Player_setSpeed. player_fields. intuition lia.
  - unfold inv, config_ok, lives_in_range, alive_while_running, lives_of in *.
    engine_fields. rewrite Hp in *. cbn [STARTING_LIVES option_map] in *.
    intuition lia.
Qed.

Lemma handleInput_inv input g : inv g -> inv (handleInput input g).
Proof.
  intros I. unfold handleInput, with_player.
  destruct (negb _); [exact I|].
  destruct (player g) as [p|] eqn:Hp; [|exact I].
  eapply inv_same; [| | | exact I]; try reflexivity.
  unfold lives_of. engine_fields. rewrite Hp. cbn [option_map]. f_equal.
  destruct input; unfold Player_moveLeft, Player_moveRight, Player_accelerate,
    Player_decelerate; break_lets; reflexivity.
Qed.

Lemma Engine_new_inv hs w h r : inv (Engine_new hs w h r).
Proof.
  unfold inv, config_ok, lives_in_range, alive_while_running, lives_of.
  simpl. repeat split; try lia. intros [D|D]; discriminate.
Qed.

Lemma emit_stateChange_inv n o g : inv g -> inv (emit_stateChange n o g).
Proof. apply inv_same; reflexivity. Qed.

Lemma set_animationPending_inv b g : inv g -> inv (set_animationPending b g).
Proof. apply inv_same; reflexivity. Qed.

Lemma cancelAnimationFrame_inv g : inv g -> inv (cancelAnimationFrame g).
Proof. apply inv_same; reflexivity. Qed.

Lemma set_state_inv s g :
  inv g ->
  (s = PLAYING \/ s = PAUSED -> state g = PLAYING \/ state g = PAUSED) ->
  inv (set_state s g).
Proof.
  intros (I1 & I2 & I3) K.
  split; [exact I1 | split; [exact I2 | intros D; apply I3; auto]].
Qed.

Lemma step_inv `{MathLib} e g : inv g -> inv (step e g).
Proof.
  intros I. pose proof I as (I1 & I2 & I3). destruct e; unfold step.
  - destruct (animationPending g); [|exact I].
    now apply gameLoop_inv, set_animationPending_inv.
  - destruct (fireTimers_core now g) as (A & B & _ & D & _).
    eapply inv_same; [| | | exact I]; try assumption.
    unfold lives_of. now rewrite D.
  - unfold setState. cbv zeta.
    apply emit_stateChange_inv, startGame_inv; [exact I1 | reflexivity].
  - destruct (GameState_eqb (state g) PLAYING) eqn:E; [|exact I].
    apply GameState_eqb_eq in E.
    unfold setState, pauseGame. cbv zeta.
    apply emit_stateChange_inv, cancelAnimationFrame_inv, set_state_inv; auto.
  - destruct (GameState_eqb (state g) PAUSED) eqn:E; [|exact I].
    apply GameState_eqb_eq in E.
    unfold resumeGame. cbv zeta.
    apply gameLoop_inv, set_state_inv; auto.
  - unfold setState, showMenu. cbv zeta.
    apply emit_stateChange_inv, cancelAnimationFrame_inv, set_state_inv; auto.
    intros [D|D]; discriminate.
  - now apply handleInput_inv.
  - now apply setDifficulty_inv.
Qed.

Lemma run_inv `{MathLib} es g : inv g -> inv (run es g).
Proof.
  unfold run. revert g. induction es as [|e es IH]; intros g I; simpl.
  - exact I.
  - apply IH. now apply step_inv.
Qed.

Lemma game_overs_app l1 l2 :
  game_overs (l1 ++ l2) = (game_overs l1 + game_overs l2)%nat.
Proof. unfold game_overs. now rewrite filter_app, length_app. Qed.

Lemma stateChanges_emit n o g :
  stateChanges (emit_stateChange n o g) = stateChanges g ++ [(o, n)].
Proof. reflexivity. Qed.

(** Every event adds at most one change to [GAME_OVER] to the log. *)
Lemma step_transitions `{MathLib} e g :
  exists new,
    stateChanges (step e g) = stateChanges g ++ new /\
    (game_overs new <= 1)%nat /\
    (forall old, In (old, GAME_OVER) new -> old = PLAYING).
Proof.
  assert (Z : exists new : list (GameState * GameState),
             stateChanges g = stateChanges g ++ new /\
             (game_overs new <= 1)%nat /\
             (forall old, In (old, GAME_OVER) new -> old = PLAYING)).
  { exists []. rewrite app_nil_r. repeat split; [unfold game_overs; simpl; lia | intros ? []]. }
  assert (G : forall now ts g0 g1,
             stateChanges g1 = stateChanges g0 ->
             exists new,
               stateChanges (gameLoop now ts g1) = stateChanges g0 ++ new /\
               (game_overs new <= 1)%nat /\
               (forall old, In (old, GAME_OVER) new -> old = PLAYING)).
  { intros now ts g0 g1 E.
    destruct (gameLoop_transitions now ts g1) as [(_ & B)|(_ & _ & B)];
      rewrite B, E.
    - exists []. rewrite app_nil_r. repeat split; [unfold game_overs; simpl; lia | intros ? []].
    - exists [(PLAYING, GAME_OVER)]. repeat split; [unfold game_overs; simpl; lia|].
      intros old [D|[]]. congruence. }
  destruct e; unfold step.
  - destruct (animationPending g); [|exact Z].
    now apply G.
  - destruct (fireTimers_core now g) as (_ & _ & C & _). rewrite C. exact Z.
  - unfold setState. cbv zeta. rewrite stateChanges_emit. unfold startGame.
    destruct (G now 0 g (startGame_reset (set_state PLAYING g)) eq_refl)
      as (new & E & L & P).
    exists (new ++ [(state g, PLAYING)]). rewrite E, app_assoc.
    split; [reflexivity|]. split.
    + rewrite game_overs_app. unfold game_overs at 2. simpl. lia.
    + intros old D. apply in_app_or in D. destruct D as [D|[D|[]]].
      * now apply P.
      * discriminate.
  - destruct (GameState_eqb (state g) PLAYING); [|exact Z].
    unfold setState. cbv zeta. rewrite stateChanges_emit.
    exists [(state g, PAUSED)]. repeat split; [unfold game_overs; simpl; lia|].
    intros old [D|[]]. discriminate.
  - destruct (GameState_eqb (state g) PAUSED); [|exact Z].
    unfold resumeGame. cbv zeta. now apply G.
  - unfold setState. cbv zeta. rewrite stateChanges_emit.
    exists [(state g, MENU)]. repeat split; [unfold game_overs; simpl; lia|].
    intros old [D|[]]. discriminate.
  - unfold handleInput, with_player. break_lets; try exact Z.
    destruct (player g); exact Z.
  - unfold setDifficulty. destruct d; [|exact Z]. cbv zeta. engine_fields.
    destruct (player g); exact Z.
Qed.

(** C5.  Lives stay within [0, 5] in every state the game can reach;
    an extra life never takes them above 5; damage, which an invincible
    player does not take, never takes them below 0 and reports death
    exactly when they reach 0; the collision that takes them to 0 logs
    exactly one change to [GAME_OVER] and any other logs none; and no
    event of the game logs more than one, each of them from [PLAYING]. *)
Theorem lives_bounded_single_game_over :
  forall (M : MathLib),
    (forall hs w h r (es : list Event) (p : Player),
        player (run es (Engine_new hs w h r)) = Some p ->
        (0 <= p_lives p <= 5)%Z) /\
    (forall (p : Player) (d : option Q),
        (p_lives p <= 5)%Z ->
        (p_lives p <= p_lives (Player_applyPowerUp addLife d p) <= 5)%Z) /\
    (forall (cfg : Config) (p : Player),
        (1 <= p_lives p)%Z ->
        let dead := fst (Player_takeDamage cfg p) in
        let p' := snd (Player_takeDamage cfg p) in
        (0 <= p_lives p')%Z /\
        (if p_invincible p
         then p' = p /\ dead = false
         else p_lives p' = (p_lives p - 1)%Z /\
              (dead = true <-> p_lives p' = 0%Z))) /\
    (forall (p : Player) (g : Engine),
        player g = Some p -> p_invincible p = false -> (1 <= p_lives p)%Z ->
        let g' := checkObstacleCollisions p g in
        exists p',
          player g' = Some p' /\
          ((p_lives p' = 0%Z /\ state g' = GAME_OVER /\
            stateChanges g' = stateChanges g ++ [(state g, GAME_OVER)]) \/
           ((1 <= p_lives p')%Z /\ state g' = state g /\
            stateChanges g' = stateChanges g))) /\
    (forall hs w h r (es : list Event) (e : Event),
        let g := run es (Engine_new hs w h r) in
        exists new,
          stateChanges (step e g) = stateChanges g ++ new /\
          (game_overs new <= 1)%nat /\
          (forall old, In (old, GAME_OVER) new -> old = PLAYING)).
Proof.
  intros M. split; [|split; [|split; [|split]]].
  - intros hs w h r es p Hp.
    destruct (run_inv es _ (Engine_new_inv hs w h r)) as (_ & L & _).
    unfold lives_in_range, lives_of in L. rewrite Hp in L. exact L.
  - intros p d L. rewrite Player_applyPowerUp_lives. lia.
  - intros cfg p L. unfold Player_takeDamage.
    destruct (p_invincible p); cbn [fst snd].
    + split; [lia|]. now split.
    + player_fields.
      destruct (Z.leb_spec (p_lives p - 1) 0);
        cbn [fst snd]; player_fields.
      * split; [lia|]. split; [reflexivity|]. split; [lia|reflexivity].
      * split; [lia|]. split; [reflexivity|]. split; [discriminate|lia].
  - intros p g Hp Hi L g'.
    destruct (checkObstacleCollisions_effect p g Hp Hi)
      as (_ & _ & _ & _ & T).
    fold g' in T. unfold lives_of in T. rewrite Hp in T.
    destruct (player g') as [p'|]; cbn [option_map] in T.
    2:{ destruct T as [(T & _)|(T & _)]; discriminate. }
    exists p'. split; [reflexivity|].
    destruct T as [(T1 & T2 & T3)|(T1 & T2)].
    + right. injection T1 as T1. repeat split; auto. lia.
    + injection T1 as T1.
      destruct (Z.leb_spec (p_lives p - 1) 0).
      * left. destruct T2. repeat split; auto. lia.
      * right. destruct T2. repeat split; auto. lia.
  - intros hs w h r es e g. apply step_transitions.
Qed.

Lemma lives_bounded_single_game_over_witness :
  (3 <= p_lives (Player_applyPowerUp addLife None
                   (Player_new GAME_CONFIG 200 800)) <= 5)%Z.
Proof.
  apply (proj1 (proj2 (lives_bounded_single_game_over sampleMath))
           (Player_new GAME_CONFIG 200 800) None).
  simpl. lia.
Defined.

Lemma checkObstacleCollisions_hit `{MathLib} p g o rest :
  splice_last_hit (fun o => checkCollision p (Obstacle_hitbox o))
    (obstacles g) = Some (o, rest) ->
  obstacles (checkObstacleCollisions p g) = rest /\
  score (checkObstacleCollisions p g) = score g.
Proof.
  intros S. unfold checkObstacleCollisions. rewrite S.
  destruct (explosion _ _ _ _ _ _) as [ps r].
  destruct (Player_takeDamage _ p) as [dead p'].
  destruct dead.
  - unfold setState_GAME_OVER, endGame. engine_fields.
    destruct (highScore g <? score g)%Z; engine_fields; now split.
  - engine_fields. now split.
Qed.

(** C9.  [updateObstacles] removes exactly the obstacles that its update
    has moved below the game height and adds, for each of them, the floor
    of points times player speed times score multiplier to the score; the
    others stay, and add nothing.  [checkCollisions] never changes the
    score, and the obstacle it removes on a hit adds nothing. *)
Theorem obstacle_points_on_exit_only :
  forall (M : MathLib),
    (forall (deltaTime : Q) (p : Player) (g : Engine),
        Forall unmarked (obstacles g) ->
        let moved :=
          Obstacle_update (config g) deltaTime (p_speed p) (canvas_height g)
            (timeScale g) in
        let exits o := js_gt (o_y (moved o)) (canvas_height g) in
        let g' := updateObstacles deltaTime p g in
        obstacles g'
        = map moved (filter (fun o => negb (exits o)) (obstacles g)) /\
        score g'
        = (score g
           + sum_Z (map (award (p_speed p) (scoreMultiplier g))
                      (filter exits (obstacles g))))%Z /\
        Forall unmarked (obstacles g')) /\
    (forall (now : Q) (g : Engine),
        score (checkCollisions now g) = score g) /\
    (forall (p : Player) (g : Engine) (o : Obstacle) (rest : list Obstacle),
        splice_last_hit (fun o => checkCollision p (Obstacle_hitbox o))
          (obstacles g) = Some (o, rest) ->
        obstacles (checkObstacleCollisions p g) = rest /\
        score (checkObstacleCollisions p g) = score g).
Proof.
  intros M. split; [|split].
  - intros d p g U moved exits g'.
    subst g'. unfold updateObstacles.
    pose proof (updateObstacles_loop_unmarked (config g) d (p_speed p)
                  (canvas_height g) (timeScale g) (scoreMultiplier g)
                  (obstacles g) (score g)) as V.
    rewrite (updateObstacles_loop_spec (config g) d (p_speed p)
               (canvas_height g) (timeScale g) (scoreMultiplier g)
               (obstacles g) (score g) U) in *.
    engine_fields. split; [|split].
    + clear. induction (obstacles g) as [|o os IH]; [reflexivity|].
      cbn [map filter]. subst exits moved. cbv beta.
      destruct (js_gt _ _); cbn [negb map]; now rewrite IH.
    + reflexivity.
    + exact V.
  - intros now g. apply checkCollisions_steady.
  - intros p g o rest. apply checkObstacleCollisions_hit.
Qed.

Lemma obstacle_points_on_exit_only_witness :
  let o := Obstacle_of_type 0 200 (mkObstacleType truck 70 120 20 None) 0 in
  let g := set_obstacles [mkObstacle (o_x o) 795 70 120 false 0 truck 1 20 None]
             (Engine_new 0 600 800 (rng_of_list [] draw_50)) in
  let p := Player_new GAME_CONFIG 200 800 in
  score (updateObstacles (1 # 10) p g) = 20%Z /\
  obstacles (updateObstacles (1 # 10) p g) = [].
Proof.
  intros o g p.
  destruct (proj1 (obstacle_points_on_exit_only sampleMath) (1 # 10) p g)
    as (A & B & _).
  - repeat constructor.
  - rewrite A, B. split; reflexivity.
Defined.

(** ** Fields that a frame never writes *)

Lemma update_field `{MathLib} {A : Type} (f : Engine -> A) :
  (forall g g', quiet g g' -> f g' = f g) ->
  (forall g g', steady g g' -> f g' = f g) ->
  forall now d g, f (update now d g) = f g.
Proof.
  intros Hq Hs now d g. destruct (player g) as [p|] eqn:Hp.
  - destruct (update_shape now d g p Hp) as (g1 & Q1 & Q2).
    rewrite (Hq _ _ Q2), (Hs _ _ (checkCollisions_steady now g1)).
    now apply Hq.
  - now rewrite update_no_player.
Qed.

Lemma gameLoop_field `{MathLib} {A : Type} (f : Engine -> A) :
  (forall g g', quiet g g' -> f g' = f g) ->
  (forall g g', steady g g' -> f g' = f g) ->
  (forall v g, f (set_gameTime v g) = f g) ->
  (forall b g, f (set_animationPending b g) = f g) ->
  forall now ts g, f (gameLoop now ts g) = f g.
Proof.
  intros Hq Hs Ht Ha now ts g. unfold gameLoop.
  destruct (negb _); [reflexivity|]. cbv zeta.
  unfold requestAnimationFrame. now rewrite Ha, update_field, Ht.
Qed.

Lemma gameLoop_timeSinceLastPowerUp `{MathLib} now ts g :
  timeSinceLastPowerUp (gameLoop now ts g) = timeSinceLastPowerUp g.
Proof.
  apply (gameLoop_field timeSinceLastPowerUp); try reflexivity.
  - now intros g0 g' (_ & _ & _ & _ & _ & _ & _ & E & _).
  - now intros g0 g' (_ & _ & _ & E & _).
Qed.

Lemma fireTimers_timeSinceLastPowerUp now g :
  timeSinceLastPowerUp (fireTimers now g) = timeSinceLastPowerUp g.
Proof.
  unfold fireTimers.
  set (g0 := set_timers _ g).
  assert (E : timeSinceLastPowerUp g0 = timeSinceLastPowerUp g) by reflexivity.
  clearbody g0. revert g0 E.
  induction (filter _ (timers g)) as [|t l IH]; intros g0 E; simpl.
  - exact E.
  - apply IH. destruct (timer_action t); exact E.
Qed.

Lemma emit_stateChange_timeSinceLastPowerUp n o g :
  timeSinceLastPowerUp (emit_stateChange n o g) = timeSinceLastPowerUp g.
Proof. reflexivity. Qed.

Lemma startGame_timeSinceLastPowerUp `{MathLib} now g :
  timeSinceLastPowerUp (startGame now g) = timeSinceLastPowerUp g.
Proof. unfold startGame. now rewrite gameLoop_timeSinceLastPowerUp. Qed.

Lemma handleInput_timeSinceLastPowerUp input g :
  timeSinceLastPowerUp (handleInput input g) = timeSinceLastPowerUp g.
Proof.
  unfold handleInput, with_player. destruct (negb _); [reflexivity|].
  destruct (player g); reflexivity.
Qed.

Lemma setDifficulty_timeSinceLastPowerUp d g :
  timeSinceLastPowerUp (setDifficulty d g) = timeSinceLastPowerUp g.
Proof.
  unfold setDifficulty. destruct d; [|reflexivity]. cbv zeta.
  engine_fields. destruct (player g); reflexivity.
Qed.

Lemma step_timeSinceLastPowerUp `{MathLib} e g :
  timeSinceLastPowerUp (step e g) = timeSinceLastPowerUp g.
Proof.
  destruct e; unfold step.
  - destruct (animationPending g); [|reflexivity].
    now rewrite gameLoop_timeSinceLastPowerUp.
  - apply fireTimers_timeSinceLastPowerUp.
  - unfold setState. cbv zeta.
    now rewrite emit_stateChange_timeSinceLastPowerUp,
      startGame_timeSinceLastPowerUp.
  - destruct (GameState_eqb _ _); [|reflexivity].
    unfold setState. cbv zeta.
    now rewrite emit_stateChange_timeSinceLastPowerUp.
  - destruct (GameState_eqb _ _); [|reflexivity].
    unfold resumeGame. cbv zeta. now rewrite gameLoop_timeSinceLastPowerUp.
  - unfold setState. cbv zeta.
    now rewrite emit_stateChange_timeSinceLastPowerUp.
  - apply handleInput_timeSinceLastPowerUp.
  - apply setDifficulty_timeSinceLastPowerUp.
Qed.

Lemma run_timeSinceLastPowerUp `{MathLib} es g :
  timeSinceLastPowerUp (run es g) = timeSinceLastPowerUp g.
Proof.
  unfold run. revert g. induction es as [|e es IH]; intros g; simpl.
  - reflexivity.
  - now rewrite IH, step_timeSinceLastPowerUp.
Qed.

(** ** Where the code departs from the specification *)

(** C1.  A game is paused at [gameTime = 3032] with score 1 and an
    obstacle at y = -120.  A nominal 16 ms step would leave the score at
    1 and move the obstacle to -117.  The frame that [resumeGame] runs
    instead steps by -3.032 s: the score falls to -30 and the obstacle
    jumps back to -688.5. *)
Theorem resume_steps_back_by_game_time :
  let g := paused_game in
  let resumed := step (H := sampleMath) (EvResume 9000) g in
  let nominal := nominal_resume 9000 g in
  (state g = PAUSED /\ score g = 1%Z /\ gameTime g == 3032 /\
   map (fun o => Qred (o_y o)) (obstacles g) = [-120]) /\
  (score nominal = 1%Z /\
   map (fun o => Qred (o_y o)) (obstacles nominal) = [-117]) /\
  (state resumed = PLAYING /\ score resumed = (-30)%Z /\
   map (fun o => Qred (o_y o)) (obstacles resumed) = [-1377 # 2]).
Proof. vm_compute. repeat split. Qed.



(** C2.  With one life and a draw of 0.95, in the 10% left to the other
    types, [spawnPowerUp] passes no type and the constructor draws from
    all four: here an extra life.  [timeSinceLastPowerUp] is never
    assigned, so with more than one life the choice is that of the first
    power-up whatever the history; with shield and extra life both 40 s
    past, a draw of 0.42 gives an extra life, where a 45% share would
    give a shield. *)
Theorem powerup_weights_diverge :
  (let p := set_p_lives 1 (Player_new GAME_CONFIG 200 800) in
   let g := set_player (Some p)
              (Engine_new 0 600 800
                 (rng_of_list [draw_0; draw_95; draw_60] draw_0)) in
   choosePowerUpType 1 None None (95 # 100) = None /\
   map pu_type (powerUps (spawnPowerUp 0 p g)) = [extraLife]) /\
  (forall (M : MathLib) hs w h r (es : list Event),
      timeSinceLastPowerUp (run es (Engine_new hs w h r)) = None) /\
  (forall lives since rand,
      choosePowerUpType lives None since rand
      = choosePowerUpType lives None None rand) /\
  choosePowerUpType 3 None (Some (fun _ => 40000)) (42 # 100)
  = Some extraLife.
Proof.
  split; [|split; [|split]].
  - vm_compute. split; reflexivity.
  - intros M hs w h r es. now rewrite run_timeSinceLastPowerUp.
  - intros lives since rand. reflexivity.
  - reflexivity.
Qed.

(** ** Effect expiry *)









(** * Further properties *)

(** ** The parts of [Player.update] *)

Ltac player_goal :=
  cbn [
      p_x p_y p_width p_height p_laneWidth p_lane p_targetLane
      p_laneChangeSpeed p_speed p_isAccelerating p_lives p_invincible
      p_invincibleTime p_hasShield p_power p_powerUpTime
      p_blinkInterval p_lastBlinkTime p_visible
      set_p_x set_p_lane set_p_targetLane set_p_speed
      set_p_isAccelerating set_p_lives set_p_invincible
      set_p_invincibleTime set_p_hasShield set_p_power
      set_p_powerUpTime set_p_lastBlinkTime set_p_visible
      fst snd].

Lemma Player_update_parts d p :
  Player_update d p
  = Player_update_power d
      (Player_update_invincibility d (Player_update_position d p)).
Proof. reflexivity. Qed.

Lemma Player_update_position_keeps d p :
  p_invincible (Player_update_position d p) = p_invincible p /\
  p_power (Player_update_position d p) = p_power p /\
  p_invincibleTime (Player_update_position d p) = p_invincibleTime p /\
  p_powerUpTime (Player_update_position d p) = p_powerUpTime p /\
  p_hasShield (Player_update_position d p) = p_hasShield p /\
  p_visible (Player_update_position d p) = p_visible p /\
  p_lives (Player_update_position d p) = p_lives p /\
  p_speed (Player_update_position d p) = p_speed p /\
  p_targetLane (Player_update_position d p) = p_targetLane p /\
  p_laneWidth (Player_update_position d p) = p_laneWidth p /\
  p_width (Player_update_position d p) = p_width p.
Proof.
  unfold Player_update_position. cbv zeta.
  destruct (js_gt _ _); repeat split.
Qed.

Lemma Player_update_timers_keep d q :
  p_x (Player_update_power d (Player_update_invincibility d q)) = p_x q /\
  p_lane (Player_update_power d (Player_update_invincibility d q))
  = p_lane q /\
  p_targetLane (Player_update_power d (Player_update_invincibility d q))
  = p_targetLane q /\
  p_laneWidth (Player_update_power d (Player_update_invincibility d q))
  = p_laneWidth q /\
  p_width (Player_update_power d (Player_update_invincibility d q))
  = p_width q.
Proof.
  unfold Player_update_power, Player_update_invincibility.
  repeat match goal with
  | |- context [if ?b then _ else _] => destruct b
  | |- context [match p_power ?q with _ => _ end] => destruct (p_power q)
  | |- context [match ?e with invincibility => _ | _ => _ end] => destruct e
  end; repeat split.
Qed.

Lemma Player_update_idle_eq d p :
  p_invincible p = false -> p_power p = None ->
  Player_update d p = Player_update_position d p.
Proof.
  intros I P. rewrite Player_update_parts.
  destruct (Player_update_position_keeps d p) as (Iq & Pq & _).
  rewrite I in Iq. rewrite P in Pq.
  generalize dependent (Player_update_position d p). intros q Iq Pq.
  unfold Player_update_invincibility. rewrite Iq.
  unfold Player_update_power. now rewrite Pq.
Qed.

Lemma Player_update_lanes d p :
  p_targetLane (Player_update d p) = p_targetLane p /\
  (p_lane (Player_update d p) = p_lane p \/
   p_lane (Player_update d p) = p_targetLane p).
Proof.
  rewrite Player_update_parts.
  destruct (Player_update_timers_keep d (Player_update_position d p))
    as (_ & L & T & _).
  rewrite L, T. unfold Player_update_position. cbv zeta.
  destruct (js_gt _ _); player_goal; auto.
Qed.

Lemma Player_update_idle d p :
  p_invincible p = false -> p_power p = None ->
  p_lives (Player_update d p) = p_lives p /\
  p_speed (Player_update d p) = p_speed p /\
  p_targetLane (Player_update d p) = p_targetLane p /\
  p_invincible (Player_update d p) = false /\
  p_power (Player_update d p) = None.
Proof.
  intros I P. rewrite Player_update_idle_eq by assumption.
  destruct (Player_update_position_keeps d p)
    as (Iq & Pq & _ & _ & _ & _ & Lq & Sq & Tq & _).
  rewrite Iq, Pq, Lq, Sq, Tq. auto.
Qed.





(** ** utility.js *)

Lemma draw_bounds (d : Draw) : 0 <= draw d /\ draw d < 1.
Proof.
  pose proof (draw_range d) as R. unfold unit_interval in R.
  apply andb_true_iff in R. destruct R as [A B].
  apply js_le_spec in A. apply js_lt_spec in B. now split.
Qed.

Lemma Qfloor_unit_scaled (r : Q) (k : Z) :
  0 <= r -> r < 1 -> (0 < k)%Z ->
  (0 <= Qfloor (r * inject_Z k) < k)%Z.
Proof.
  intros R0 R1 K.
  assert (K' : 0 < inject_Z k).
  { change 0 with (inject_Z 0). now rewrite <- Zlt_Qlt. }
  split.
  - rewrite <- (Qfloor_Z 0). apply Qfloor_resp_le.
    change (inject_Z 0) with 0.
    apply Qmult_le_0_compat; [exact R0 | now apply Qlt_le_weak].
  - rewrite Zlt_Qlt.
    apply Qle_lt_trans with (r * inject_Z k); [apply Qfloor_le|].
    setoid_replace (inject_Z k) with (1 * inject_Z k) at 2 by ring.
    now apply Qmult_lt_compat_r.
Qed.

(** X1.  For a draw [r] of [Math.random] and integer bounds with
    [min <= max], [randomNumber] returns an integer between [min] and
    [max], both included. *)
Theorem randomNumber_in_range :
  forall (r : Draw) (min max : Z),
    (min <= max)%Z ->
    exists k : Z,
      randomNumber (draw r) (inject_Z min) (inject_Z max) == inject_Z k /\
      (min <= k <= max)%Z.
Proof.
  intros r min max L. destruct (draw_bounds r) as [R0 R1].
  exists (Qfloor (draw r * inject_Z (max - min + 1)) + min)%Z.
  unfold randomNumber. split.
  - rewrite inject_Z_plus.
    assert (E : inject_Z max - inject_Z min + 1 == inject_Z (max - min + 1)).
    { unfold Z.sub. rewrite !inject_Z_plus, inject_Z_opp.
      change (inject_Z 1) with 1. ring. }
    now rewrite E.
  - pose proof (Qfloor_unit_scaled (draw r) (max - min + 1) R0 R1). lia.
Qed.

Lemma randomNumber_in_range_witness :
  exists k : Z,
    randomNumber (draw draw_95) (inject_Z 50) (inject_Z 150) == inject_Z k /\
    (50 <= k <= 150)%Z.
Proof. apply (randomNumber_in_range draw_95 50 150). lia. Defined.

Lemma randomIndex_lt (r : Draw) (n : nat) :
  (0 < n)%nat -> (randomIndex (draw r) n < n)%nat.
Proof.
  intros N. destruct (draw_bounds r) as [R0 R1]. unfold randomIndex.
  pose proof (Qfloor_unit_scaled (draw r) (Z.of_nat n) R0 R1). lia.
Qed.

Lemma nth_randomIndex_In {A : Type} (r : Draw) (l : list A) (d : A) :
  l <> [] -> In (nth (randomIndex (draw r) (length l)) l d) l.
Proof.
  intros N. apply nth_In, randomIndex_lt.
  destruct l; [congruence | simpl; lia].
Qed.

(** X2.  [Math.floor(Math.random() * n)] is a valid index into an array
    of [n > 0] elements, so the element it selects is one of the array:
    the obstacle type that the [Obstacle] constructor draws is from the
    catalog. *)
Theorem randomIndex_in_range :
  forall (r : Draw) (n : nat),
    (0 < n)%nat ->
    (randomIndex (draw r) n < n)%nat /\
    forall (A : Type) (l : list A) (d : A),
      length l = n -> In (nth (randomIndex (draw r) n) l d) l.
Proof.
  intros r n N. split; [now apply randomIndex_lt|].
  intros A l d L. subst n. apply nth_randomIndex_In.
  intros ->. simpl in N. lia.
Qed.

Lemma randomIndex_in_range_witness :
  (randomIndex (draw draw_95) 3 < 3)%nat /\
  forall (A : Type) (l : list A) (d : A),
    length l = 3%nat -> In (nth (randomIndex (draw draw_95) 3) l d) l.
Proof. apply (randomIndex_in_range draw_95 3). lia. Defined.

(** X3.  [clamp] returns a value within its bounds when [min <= max],
    returns the value itself when that lies within them, and clamping
    twice is clamping once. *)
Theorem clamp_within_bounds :
  forall value min max : Q,
    min <= max ->
    (min <= clamp value min max /\ clamp value min max <= max) /\
    (min <= value -> value <= max -> clamp value min max == value) /\
    clamp (clamp value min max) min max == clamp value min max.
Proof.
  intros v lo hi L. unfold clamp.
  assert (A : lo <= Qmax lo (Qmin v hi)) by apply Q.le_max_l.
  assert (B : Qmax lo (Qmin v hi) <= hi).
  { apply Q.max_lub; [exact L | apply Q.le_min_r]. }
  split; [now split|]. split.
  - intros L1 L2. rewrite (Q.min_l v hi L2). now apply Q.max_r.
  - rewrite (Q.min_l _ hi B). now apply Q.max_r.
Qed.

Lemma clamp_within_bounds_witness :
  (0 <= clamp 7 0 5 /\ clamp 7 0 5 <= 5) /\
  (0 <= 7 -> 7 <= 5 -> clamp 7 0 5 == 7) /\
  clamp (clamp 7 0 5) 0 5 == clamp 7 0 5.
Proof. apply (clamp_within_bounds 7 0 5). discriminate. Defined.



(** ** The configuration of a running game *)

Lemma update_config `{MathLib} now d g : config (update now d g) = config g.
Proof.
  apply (update_field config).
  - now intros g0 g' (E & _).
  - now intros g0 g' (E & _).
Qed.

Lemma gameLoop_config `{MathLib} now ts g :
  config (gameLoop now ts g) = config g.
Proof.
  apply (gameLoop_field config); try reflexivity.
  - now intros g0 g' (E & _).
  - now intros g0 g' (E & _).
Qed.

Lemma setDifficulty_config d g :
  config (setDifficulty d g)
  = match d with Some d => apply_preset d (config g) | None => config g end.
Proof.
  unfold setDifficulty. destruct d as [d|]; [|reflexivity]. cbv zeta.
  engine_fields. destruct (player g); reflexivity.
Qed.

Lemma emit_stateChange_config n o g : config (emit_stateChange n o g) = config g.
Proof. reflexivity. Qed.

Lemma startGame_config `{MathLib} now g : config (startGame now g) = config g.
Proof. unfold startGame. now rewrite gameLoop_config. Qed.

Lemma handleInput_config input g : config (handleInput input g) = config g.
Proof.
  unfold handleInput, with_player. destruct (negb _); [reflexivity|].
  destruct (player g); reflexivity.
Qed.

Lemma step_config `{MathLib} e g :
  config (step e g)
  = match e with
    | EvSetDifficulty (Some d) => apply_preset d (config g)
    | _ => config g
    end.
Proof.
  destruct e; unfold step.
  - destruct (animationPending g); [|reflexivity]. now rewrite gameLoop_config.
  - apply fireTimers_core.
  - unfold setState. cbv zeta.
    now rewrite emit_stateChange_config, startGame_config.
  - destruct (GameState_eqb _ _); [|reflexivity].
    unfold setState. cbv zeta. now rewrite emit_stateChange_config.
  - destruct (GameState_eqb _ _); [|reflexivity].
    unfold resumeGame. cbv zeta. now rewrite gameLoop_config.
  - unfold setState. cbv zeta. now rewrite emit_stateChange_config.
  - apply handleInput_config.
  - rewrite setDifficulty_config. now destruct d.
Qed.

Lemma shipped_preset d c : shipped c -> shipped (apply_preset d c).
Proof.
  intros [-> | [d' ->]]; right; exists d; [reflexivity|].
  destruct d, d'; reflexivity.
Qed.

Lemma step_shipped `{MathLib} e g : shipped (config g) -> shipped (config (step e g)).
Proof.
  intros S. rewrite step_config.
  destruct e; try exact S. destruct d; [now apply shipped_preset | exact S].
Qed.

Lemma run_shipped `{MathLib} es g :
  shipped (config g) -> shipped (config (run es g)).
Proof.
  unfold run. revert g. induction es as [|e es IH]; intros g S; simpl.
  - exact S.
  - apply IH. now apply step_shipped.
Qed.

Lemma shipped_constants c :
  shipped c ->
  LANE_COUNT c = 3%nat /\
  BASE_OBSTACLE_INTERVAL c = 2000 /\
  MIN_OBSTACLE_INTERVAL c = 500 /\
  POWER_UP_MIN_SPAWN_INTERVAL c = 8000 /\
  0 < OBSTACLE_INTERVAL_DECREASE_RATE c /\
  0 < BASE_GAME_SPEED c /\
  BASE_GAME_SPEED c <= MAX_GAME_SPEED c /\
  BASE_GAME_SPEED c <= 15 # 10 /\
  0 < SPEED_INCREMENT c /\
  0 < SPEED_INCREASE_INTERVAL c /\
  SCORE_MULTIPLIER c = 10 /\
  MAX_PARTICLES c = 100%nat.
Proof.
  intros [-> | [d ->]]; [|destruct d]; cbn;
    repeat split; try reflexivity; try discriminate.
Qed.

(** ** Spawn intervals *)

Lemma getObstacleSpawnInterval_min g :
  MIN_OBSTACLE_INTERVAL (config g) <= getObstacleSpawnInterval g.
Proof. unfold getObstacleSpawnInterval. apply Q.le_max_l. Qed.

Lemma inject_Z_le a b : (a <= b)%Z -> inject_Z a <= inject_Z b.
Proof. now rewrite <- Zle_Qle. Qed.

(** X5.  The obstacle spawn interval never falls below
    [MIN_OBSTACLE_INTERVAL], and with a non-negative decrease rate it
    does not grow when the score grows.  In every state a game can
    reach, with a non-negative score, it lies between 500 and 2000 ms,
    and the power-up interval, the larger of 8000 ms and three obstacle
    intervals, is therefore always 8000 ms. *)
Theorem spawn_intervals :
  forall (M : MathLib),
    (forall g, MIN_OBSTACLE_INTERVAL (config g) <= getObstacleSpawnInterval g) /\
    (forall g1 g2,
        config g1 = config g2 ->
        0 <= OBSTACLE_INTERVAL_DECREASE_RATE (config g1) ->
        (score g1 <= score g2)%Z ->
        getObstacleSpawnInterval g2 <= getObstacleSpawnInterval g1) /\
    (forall hs w h r (es : list Event),
        let g := run es (Engine_new hs w h r) in
        (0 <= score g)%Z ->
        500 <= getObstacleSpawnInterval g /\
        getObstacleSpawnInterval g <= 2000 /\
        getPowerUpSpawnInterval g == 8000).
Proof.
  intros M. split; [|split].
  - apply getObstacleSpawnInterval_min.
  - intros g1 g2 C R S. unfold getObstacleSpawnInterval. rewrite <- C.
    apply Q.max_le_compat_l.
    apply inject_Z_le in S.
    set (a := inject_Z (score g1)) in *. set (b := inject_Z (score g2)) in *.
    set (k := OBSTACLE_INTERVAL_DECREASE_RATE (config g1)) in *.
    assert (a * k <= b * k) by now apply Qmult_le_compat_r.
    lra.
  - intros hs w h r es g S.
    assert (C : shipped (config g))
      by (apply run_shipped; now left).
    destruct (shipped_constants _ C)
      as (_ & B & Mi & P & R & _).
    assert (I : 500 <= getObstacleSpawnInterval g /\
                getObstacleSpawnInterval g <= 2000).
    { unfold getObstacleSpawnInterval. rewrite B, Mi. split.
      - apply Q.le_max_l.
      - apply Q.max_lub; [discriminate|].
        apply inject_Z_le in S. change (inject_Z 0) with 0 in S.
        set (a := inject_Z (score g)) in *.
        set (k := OBSTACLE_INTERVAL_DECREASE_RATE (config g)) in *.
        assert (0 <= a * k)
          by (apply Qmult_le_0_compat; [exact S | now apply Qlt_le_weak]).
        lra. }
    destruct I as (I1 & I2). split; [exact I1|]. split; [exact I2|].
    unfold getPowerUpSpawnInterval. rewrite P.
    apply Q.max_l. lra.
Qed.

Lemma spawn_intervals_witness :
  let g1 := Engine_new 0 600 800 (rng_of_list [] draw_50) in
  let g2 := set_score 100000 g1 in
  getObstacleSpawnInterval g2 <= getObstacleSpawnInterval g1.
Proof.
  intros g1 g2.
  apply (proj1 (proj2 (spawn_intervals sampleMath)) g1 g2).
  - reflexivity.
  - discriminate.
  - simpl. lia.
Defined.

(** ** Carrying an invariant through a frame *)

Lemma update_road_player d p g : player (update_road d p g) = player g.
Proof. unfold update_road. break_lets; reflexivity. Qed.

Lemma updateObstacles_player d p g : player (updateObstacles d p g) = player g.
Proof. unfold updateObstacles. break_lets. reflexivity. Qed.

Lemma updatePowerUps_player `{MathLib} now d p g :
  player (updatePowerUps now d p g) = player g.
Proof. unfold updatePowerUps. break_lets. reflexivity. Qed.

Section FrameInvariant.
Context `{MathLib}.
Variable Phi : Engine -> Prop.
Variables now deltaTime : Q.

Hypothesis Phi_player :
  forall p g,
    player g = Some p -> Phi g ->
    Phi (set_player (Some (Player_update (Qmin deltaTime (1 # 10)) p)) g).
Hypothesis Phi_road :
  forall p g,
    player g = Some p -> Phi g ->
    Phi (update_road (Qmin deltaTime (1 # 10)) p g).
Hypothesis Phi_obstacles :
  forall p g,
    player g = Some p -> Phi g ->
    Phi (updateObstacles (Qmin deltaTime (1 # 10)) p g).
Hypothesis Phi_powerUps :
  forall p g,
    player g = Some p -> Phi g ->
    Phi (updatePowerUps now (Qmin deltaTime (1 # 10)) p g).
Hypothesis Phi_particles :
  forall g, Phi g -> Phi (update_particleSystem (Qmin deltaTime (1 # 10)) g).
Hypothesis Phi_collisions : forall g, Phi g -> Phi (checkCollisions now g).
Hypothesis Phi_spawnObstacle : forall g, Phi g -> Phi (update_spawnObstacle g).
Hypothesis Phi_spawnPowerUp :
  forall g, Phi g -> Phi (update_spawnPowerUp now g).
Hypothesis Phi_difficulty : forall g, Phi g -> Phi (update_difficulty g).
Hypothesis Phi_score :
  forall g, Phi g -> Phi (update_score (Qmin deltaTime (1 # 10)) g).

Lemma update_preserves g : Phi g -> Phi (update now deltaTime g).
Proof.
  intros I. unfold update, with_player at 1.
  destruct (player g) as [p|] eqn:Hp; [|exact I]. cbv zeta.
  apply Phi_score, Phi_difficulty, Phi_spawnPowerUp, Phi_spawnObstacle,
    Phi_collisions, Phi_particles.
  set (p' := Player_update _ p).
  assert (I1 : Phi (set_player (Some p') g)) by now apply Phi_player.
  assert (P1 : player (set_player (Some p') g) = Some p') by reflexivity.
  set (g1 := set_player (Some p') g) in *. clearbody g1.
  assert (I2 := Phi_road p' g1 P1 I1).
  assert (P2 : player (update_road (Qmin deltaTime (1 # 10)) p' g1) = Some p')
    by now rewrite update_road_player.
  set (g2 := update_road _ p' g1) in *. clearbody g2.
  assert (I3 := Phi_obstacles p' g2 P2 I2).
  assert (P3 : player (updateObstacles (Qmin deltaTime (1 # 10)) p' g2)
               = Some p')
    by now rewrite updateObstacles_player.
  set (g3 := updateObstacles _ p' g2) in *. clearbody g3.
  exact (Phi_powerUps p' g3 P3 I3).
Qed.
End FrameInvariant.

Section GameInvariant.
Context `{MathLib}.
Variable Phi : Engine -> Prop.

Hypothesis Phi_gameLoop :
  forall now ts g, state g = PLAYING -> Phi g -> Phi (gameLoop now ts g).
Hypothesis Phi_animationPending :
  forall b g, Phi g -> Phi (set_animationPending b g).
Hypothesis Phi_fireTimers : forall now g, Phi g -> Phi (fireTimers now g).
Hypothesis Phi_reset :
  forall g, Phi g -> Phi (startGame_reset (set_state PLAYING g)).
Hypothesis Phi_emit : forall n o g, Phi g -> Phi (emit_stateChange n o g).
Hypothesis Phi_pause :
  forall g, state g = PLAYING -> Phi g ->
            Phi (cancelAnimationFrame (set_state PAUSED g)).
Hypothesis Phi_menu :
  forall g, Phi g -> Phi (cancelAnimationFrame (set_state MENU g)).
Hypothesis Phi_resume :
  forall g, state g = PAUSED -> Phi g -> Phi (set_state PLAYING g).
Hypothesis Phi_input :
  forall input g, state g = PLAYING -> Phi g -> Phi (handleInput input g).
Hypothesis Phi_setDifficulty : forall d g, Phi g -> Phi (setDifficulty d g).

Lemma startGame_reset_state g : state (startGame_reset g) = state g.
Proof. reflexivity. Qed.

Lemma handleInput_not_playing input g :
  state g <> PLAYING -> handleInput input g = g.
Proof.
  intros Hs. unfold handleInput. destruct (state g); try reflexivity.
  now elim Hs.
Qed.

Lemma step_preserves e g : Phi g -> Phi (step e g).
Proof.
  intros I. destruct e; unfold step.
  - destruct (animationPending g); [|exact I].
    destruct (GameState_eqb (state g) PLAYING) eqn:E.
    + apply GameState_eqb_eq in E. apply Phi_gameLoop; [exact E|].
      now apply Phi_animationPending.
    + rewrite gameLoop_not_playing; [now apply Phi_animationPending|].
      intros Hs. change (state g = PLAYING) in Hs. rewrite Hs in E.
      discriminate.
  - now apply Phi_fireTimers.
  - unfold setState. cbv zeta. apply Phi_emit. unfold startGame.
    apply Phi_gameLoop; [reflexivity | now apply Phi_reset].
  - destruct (GameState_eqb (state g) PLAYING) eqn:E; [|exact I].
    apply GameState_eqb_eq in E.
    unfold setState, pauseGame. cbv zeta. now apply Phi_emit, Phi_pause.
  - destruct (GameState_eqb (state g) PAUSED) eqn:E; [|exact I].
    apply GameState_eqb_eq in E.
    unfold resumeGame. cbv zeta.
    apply Phi_gameLoop; [reflexivity | now apply Phi_resume].
  - unfold setState, showMenu. cbv zeta. now apply Phi_emit, Phi_menu.
  - destruct (GameState_eqb (state g) PLAYING) eqn:E.
    + apply GameState_eqb_eq in E. now apply Phi_input.
    + rewrite handleInput_not_playing; [exact I|].
      intros Hs. rewrite Hs in E. discriminate.
  - now apply Phi_setDifficulty.
Qed.

Lemma run_preserves es g : Phi g -> Phi (run es g).
Proof.
  unfold run. revert g. induction es as [|e es IH]; intros g I; simpl.
  - exact I.
  - apply IH. now apply step_preserves.
Qed.
End GameInvariant.

(** ** The entities of a running game *)

Lemma Player_update_ok c d p : player_ok c p -> player_ok c (Player_update d p).
Proof.
  unfold player_ok. intros (A & B & C & D).
  destruct (Player_update_lanes d p) as (E1 & [E2 | E2]);
    rewrite E1, E2, Player_update_speed; auto.
Qed.

Lemma Player_takeDamage_ok c c' p :
  player_ok c p -> player_ok c (snd (Player_takeDamage c' p)).
Proof.
  unfold Player_takeDamage. destruct (p_invincible p); [auto|].
  player_fields. destruct (_ <=? _)%Z; auto.
Qed.

Lemma Player_applyPowerUp_ok c e d p :
  player_ok c p -> player_ok c (Player_applyPowerUp e d p).
Proof. destruct e; auto. Qed.

Lemma Obstacle_update_ok cfg dt ps gh ts o :
  hitbox_anchored o /\ (o_lane o < 3)%nat /\
  5 <= o_points o /\ 1 <= o_speed o /\ o_speed o < 15 # 10 ->
  hitbox_anchored (Obstacle_update cfg dt ps gh ts o) /\
  (o_lane (Obstacle_update cfg dt ps gh ts o) < 3)%nat /\
  5 <= o_points (Obstacle_update cfg dt ps gh ts o) /\
  1 <= o_speed (Obstacle_update cfg dt ps gh ts o) /\
  o_speed (Obstacle_update cfg dt ps gh ts o) < 15 # 10.
Proof.
  intros (A & B). split; [now apply Obstacle_update_anchored | exact B].
Qed.

Lemma updateObstacles_loop_ok cfg dt ps gh ts mult os score :
  Forall obstacle_ok os ->
  Forall obstacle_ok
    (fst (updateObstacles_loop cfg dt ps gh ts mult os score)).
Proof.
  induction 1 as [|o os Ho Hos IH]; cbn [updateObstacles_loop].
  - constructor.
  - destruct (updateObstacles_loop cfg dt ps gh ts mult os score)
      as [rest s]. cbn [fst] in IH.
    destruct (o_markedForDeletion (Obstacle_update cfg dt ps gh ts o)) eqn:E;
      cbn [fst]; [assumption|].
    constructor; [|assumption].
    destruct Ho as (_ & Ho). split; [exact E|].
    now apply Obstacle_update_ok.
Qed.

Lemma updatePowerUps_loop_ok `{MathLib} cfg now dt ps gh ts us st :
  Forall powerUp_ok us ->
  Forall powerUp_ok
    (fst (updatePowerUps_loop cfg now dt ps gh ts us st)).
Proof.
  induction 1 as [|u us Hu Hus IH]; cbn [updatePowerUps_loop].
  - constructor.
  - destruct (updatePowerUps_loop cfg now dt ps gh ts us st) as [rest st1].
    cbn [fst] in IH.
    set (u1 := PowerUp_update cfg now dt ps gh ts u).
    assert (K : forall u2,
               (u2 = u1 \/ u2 = clear_trail u1) ->
               pu_markedForDeletion u2 = false -> powerUp_ok u2).
    { intros u2 E M. destruct Hu as (_ & L & t & T).
      split; [exact M|].
      destruct E as [-> | ->]; (split; [exact L | exists t; exact T]). }
    destruct (pu_shouldCreateTrail u1).
    + destruct (pu_markedForDeletion (clear_trail u1)) eqn:E; cbn [fst];
        [assumption|]. constructor; [|assumption]. apply K; auto.
    + destruct (pu_markedForDeletion u1) eqn:E; cbn [fst];
        [assumption|]. constructor; [|assumption]. apply K; auto.
Qed.

Lemma splice_last_hit_Forall {A : Type} (P : A -> Prop) hit l h rest :
  splice_last_hit hit l = Some (h, rest) -> Forall P l -> Forall P rest.
Proof.
  revert h rest. induction l as [|a l IH]; intros h rest; simpl.
  - discriminate.
  - destruct (splice_last_hit hit l) as [[h' rest']|].
    + intros E F. injection E as <- <-. inversion F; subst.
      constructor; [assumption|]. eapply IH; [reflexivity | assumption].
    + destruct (hit a); [|discriminate].
      intros E F. injection E as <- <-. now inversion F.
Qed.

Lemma catalog_obstacle_ok lane laneWidth t (v : Draw) :
  In t OBSTACLE_TYPES -> (lane < 3)%nat ->
  obstacle_ok (Obstacle_of_type lane laneWidth t (draw v)).
Proof.
  intros T L. destruct (draw_bounds v) as [V0 V1].
  split; [reflexivity|].
  split; [now apply Obstacle_of_type_anchored, catalog_shrinking|].
  split; [exact L|].
  cbn [o_points o_speed Obstacle_of_type].
  split; [|split; lra].
  destruct T as [<- | [<- | [<- | []]]]; discriminate.
Qed.

Lemma safeLanes_lt cfg os l : In l (safeLanes_of cfg os) -> (l < LANE_COUNT cfg)%nat.
Proof.
  unfold safeLanes_of. intros I. apply filter_In in I. destruct I as [I _].
  apply in_seq in I. lia.
Qed.

Lemma safeLanes_pick cfg os (v : Draw) :
  safeLanes_of cfg os <> [] ->
  In (nth (randomIndex (draw v) (length (safeLanes_of cfg os)))
        (safeLanes_of cfg os) 0%nat)
     (safeLanes_of cfg os).
Proof. apply nth_randomIndex_In. Qed.

Lemma sound_same g g' :
  config g' = config g -> player g' = player g ->
  obstacles g' = obstacles g -> powerUps g' = powerUps g ->
  scoreMultiplier g' = scoreMultiplier g -> timeScale g' = timeScale g ->
  sound g -> sound g'.
Proof. unfold sound. intros -> -> -> -> -> ->. auto. Qed.

Lemma sound_set_player p g :
  sound g -> player_ok (config g) p -> sound (set_player (Some p) g).
Proof.
  intros (A & B & C) P. split; [exact A|]. split; [|exact C].
  intros p' E. injection E as <-. exact P.
Qed.

Lemma sound_update_road d p g : sound g -> sound (update_road d p g).
Proof.
  apply sound_same; unfold update_road; break_lets; reflexivity.
Qed.

Lemma sound_updateObstacles d p g : sound g -> sound (updateObstacles d p g).
Proof.
  intros (A & B & C & D). unfold updateObstacles.
  pose proof (updateObstacles_loop_ok (config g) d (p_speed p)
                (canvas_height g) (timeScale g) (scoreMultiplier g)
                (obstacles g) (score g) C) as K.
  destruct (updateObstacles_loop _ _ _ _ _ _ _ _) as [os s].
  split; [exact A|]. split; [exact B|]. split; [exact K | exact D].
Qed.

Lemma sound_updatePowerUps `{MathLib} now d p g :
  sound g -> sound (updatePowerUps now d p g).
Proof.
  intros (A & B & C & D & E). unfold updatePowerUps.
  pose proof (updatePowerUps_loop_ok (config g) now d (p_speed p)
                (canvas_height g) (timeScale g) (powerUps g)
                (particleSystem g, rng g) D) as K.
  destruct (updatePowerUps_loop _ _ _ _ _ _ _ _) as [us [ps r]].
  split; [exact A|]. split; [exact B|]. split; [exact C|].
  split; [exact K | exact E].
Qed.

Lemma sound_update_particleSystem `{MathLib} d g :
  sound g -> sound (update_particleSystem d g).
Proof.
  apply sound_same; unfold update_particleSystem; break_lets; reflexivity.
Qed.

Lemma sound_checkObstacleCollisions `{MathLib} p g :
  player g = Some p -> sound g -> sound (checkObstacleCollisions p g).
Proof.
  intros Hp S. pose proof S as (A & B & C & D). unfold checkObstacleCollisions.
  destruct (splice_last_hit _ _) as [[o rest]|] eqn:Sp; [|exact S].
  pose proof (splice_last_hit_Forall _ _ _ _ _ Sp C) as C'.
  destruct (explosion _ _ _ _ _ _) as [ps r]. cbv zeta. engine_fields.
  pose proof (Player_takeDamage_ok (config g) (config g) p (B p Hp)) as P.
  destruct (Player_takeDamage (config g) p) as [dead p']. cbn [snd] in P.
  destruct dead.
  - unfold setState_GAME_OVER, endGame. engine_fields.
    destruct (_ <? _)%Z; engine_fields;
      (split; [exact A|]); (split; [|split; [exact C' | exact D]]);
      intros q E; injection E as <-; exact P.
  - split; [exact A|]. split; [|split; [exact C' | exact D]].
    intros q E; injection E as <-; exact P.
Qed.

Lemma player_ok_same c p p' :
  p_targetLane p' = p_targetLane p -> p_lane p' = p_lane p ->
  p_speed p' = p_speed p -> player_ok c p -> player_ok c p'.
Proof. unfold player_ok. intros -> -> ->. auto. Qed.

Lemma sound_checkPowerUpCollisions `{MathLib} now p g :
  player g = Some p -> sound g -> sound (checkPowerUpCollisions now p g).
Proof.
  intros Hp S. pose proof S as (A & B & C & D & E & F).
  unfold checkPowerUpCollisions.
  destruct (splice_last_hit _ _) as [[u rest]|] eqn:Sp; [|exact S].
  pose proof (splice_last_hit_Forall _ _ _ _ _ Sp D) as D'.
  destruct (explosion _ _ _ _ _ _) as [ps r].
  unfold applyPowerUp, sound.
  destruct (pu_effect u); engine_fields;
    (split; [exact A|]);
    (split; [intros q Eq; injection Eq as <-;
             apply (player_ok_same (config g) p);
             [reflexivity | reflexivity | reflexivity | now apply B]|]);
    (split; [exact C|]); (split; [exact D'|]); auto.
Qed.

Lemma sound_checkCollisions `{MathLib} now g :
  sound g -> sound (checkCollisions now g).
Proof.
  intros S. unfold checkCollisions, with_player.
  destruct (player g) as [p|] eqn:Hp; [|exact S].
  destruct (p_invincible p); [exact S|].
  pose proof (sound_checkObstacleCollisions p g Hp S) as S1.
  destruct (player (checkObstacleCollisions p g)) as [p1|] eqn:Hp1;
    [|exact S1].
  now apply sound_checkPowerUpCollisions.
Qed.

Lemma shipped_lanes g : sound g -> LANE_COUNT (config g) = 3%nat.
Proof. intros (A & _). now apply shipped_constants. Qed.

Lemma sound_spawnObstacle g : sound g -> sound (spawnObstacle g).
Proof.
  intros S. pose proof (shipped_lanes g S) as LC.
  pose proof S as (A & B & C & D).
  unfold spawnObstacle, Math_random, Obstacle_new. cbv zeta. cbn [fst snd].
  set (v := rng_values (rng g) (rng_calls (rng g))).
  match goal with |- context [Obstacle_of_type ?l _ _ _] => set (lane := l) end.
  assert (L : (lane < 3)%nat).
  { subst lane. rewrite <- LC.
    destruct (obstacles g); [apply randomIndex_lt; lia|].
    destruct (safeLanes_of (config g) (o :: l)) eqn:E;
      [apply randomIndex_lt; lia|].
    rewrite <- E. apply (safeLanes_lt (config g) (o :: l)).
    apply safeLanes_pick. congruence. }
  clearbody lane.
  split; [exact A|]. split; [exact B|]. split; [|exact D].
  cbn [obstacles set_rng set_obstacles].
  apply Forall_app. split; [exact C|]. constructor; [|constructor].
  apply catalog_obstacle_ok; [|exact L].
  apply nth_randomIndex_In. discriminate.
Qed.

Lemma find_PowerUpType_some k :
  exists t, find_PowerUpType k = Some t /\ In t POWER_UP_TYPES /\ pt_type t = k.
Proof.
  destruct k; eexists; (split; [reflexivity|]); simpl; auto 6.
Qed.

Lemma PowerUp_new_ok lane laneWidth k r :
  (lane < 3)%nat -> powerUp_ok (fst (PowerUp_new lane laneWidth k r)).
Proof.
  intros L. unfold PowerUp_new.
  assert (K : forall t, In t POWER_UP_TYPES ->
                        powerUp_ok (PowerUp_of_type lane laneWidth t)).
  { intros t T. split; [reflexivity|]. split; [exact L|].
    exists t. repeat split; auto. }
  assert (R : forall r0, In (fst (random_PowerUpType r0)) POWER_UP_TYPES).
  { intros r0. unfold random_PowerUpType, Math_random. cbn [fst].
    apply nth_randomIndex_In. discriminate. }
  destruct k as [k|].
  - destruct (find_PowerUpType_some k) as (t & -> & T & _). cbn [fst].
    now apply K.
  - specialize (R r). destruct (random_PowerUpType r) as [t r1].
    cbn [fst] in *. now apply K.
Qed.

Lemma sound_spawnPowerUp now p g : sound g -> sound (spawnPowerUp now p g).
Proof.
  intros S. pose proof (shipped_lanes g S) as LC.
  pose proof S as (A & B & C & D & E).
  unfold spawnPowerUp. cbv zeta.
  destruct (safeLanes_of (config g) (obstacles g)) as [|l0 ls] eqn:SL.
  - revert S. apply sound_same; reflexivity.
  - unfold Math_random. cbn [fst snd].
    set (v := rng_values (rng g) (rng_calls (rng g))).
    match goal with |- context [PowerUp_new ?l _ _ _] => set (lane := l) end.
    assert (L : (lane < 3)%nat).
    { subst lane. rewrite <- LC, <- SL.
      apply (safeLanes_lt (config g) (obstacles g)).
      apply safeLanes_pick. congruence. }
    clearbody lane.
    match goal with |- context [PowerUp_new lane ?w ?k ?r] =>
      pose proof (PowerUp_new_ok lane w k r L) as K;
      destruct (PowerUp_new lane w k r) as [u r1]
    end.
    cbn [fst] in K.
    split; [exact A|]. split; [exact B|]. split; [exact C|].
    split; [|exact E].
    cbn [powerUps set_lastPowerUpTypeTime set_timeSinceLastPowerUpType
         set_rng set_powerUps].
    apply Forall_app. split; [exact D|]. now constructor.
Qed.

Lemma sound_increaseDifficulty g : sound g -> sound (increaseDifficulty g).
Proof.
  intros S. pose proof S as (A & B & C).
  destruct (shipped_constants _ A)
    as (_ & _ & _ & _ & _ & B0 & BM & _ & I0 & _).
  unfold increaseDifficulty. engine_fields.
  destruct (player g) as [p|] eqn:Hp.
  2:{ revert S. apply sound_same; try reflexivity. }
  destruct (js_lt _ _) eqn:J.
  2:{ revert S. apply sound_same; try reflexivity. }
  apply js_lt_spec in J.
  split; [exact A|]. split; [|exact C].
  intros q E. injection E as <-.
  destruct (B p eq_refl) as (P1 & P2 & P3 & P4).
  unfold player_ok, Player_setSpeed. player_fields. engine_fields.
  split; [exact P1|]. split; [exact P2|].
  split; [apply Q.min_glb; lra | apply Q.le_min_r].
Qed.

Lemma sound_update_spawnObstacle g : sound g -> sound (update_spawnObstacle g).
Proof.
  intros S. unfold update_spawnObstacle. destruct (js_gt _ _); [|exact S].
  generalize (sound_spawnObstacle g S). apply sound_same; reflexivity.
Qed.

Lemma sound_update_spawnPowerUp now g :
  sound g -> sound (update_spawnPowerUp now g).
Proof.
  intros S. unfold update_spawnPowerUp. destruct (js_gt _ _); [|exact S].
  unfold Math_random. cbv zeta.
  set (g' := set_rng _ g).
  assert (S' : sound g') by (revert S; apply sound_same; reflexivity).
  clearbody g'.
  destruct (js_lt _ _).
  - unfold with_player. destruct (player g') as [p|].
    + generalize (sound_spawnPowerUp now p g' S').
      apply sound_same; reflexivity.
    + revert S'. apply sound_same; reflexivity.
  - revert S'. apply sound_same; reflexivity.
Qed.

Lemma sound_update_difficulty g : sound g -> sound (update_difficulty g).
Proof.
  intros S. unfold update_difficulty. destruct (js_gt _ _); [|exact S].
  generalize (sound_increaseDifficulty g S). apply sound_same; reflexivity.
Qed.

Lemma sound_update_score d g : sound g -> sound (update_score d g).
Proof.
  intros S. unfold update_score, with_player.
  destruct (player g); [|exact S]. cbv zeta.
  destruct (negb _); revert S; apply sound_same; reflexivity.
Qed.

Lemma sound_update `{MathLib} now d g : sound g -> sound (update now d g).
Proof.
  apply update_preserves.
  - intros p g0 Hp S. apply sound_set_player; [exact S|].
    apply Player_update_ok. now apply S.
  - intros p g0 _. apply sound_update_road.
  - intros p g0 _. apply sound_updateObstacles.
  - intros p g0 _. apply sound_updatePowerUps.
  - intros g0. apply sound_update_particleSystem.
  - intros g0. apply sound_checkCollisions.
  - apply sound_update_spawnObstacle.
  - apply sound_update_spawnPowerUp.
  - apply sound_update_difficulty.
  - intros g0. apply sound_update_score.
Qed.

Lemma sound_gameLoop `{MathLib} now ts g : sound g -> sound (gameLoop now ts g).
Proof.
  intros S. destruct (GameState_eqb (state g) PLAYING) eqn:E.
  - apply GameState_eqb_eq in E. rewrite gameLoop_playing by assumption.
    set (d := _ * timeScale g).
    generalize (sound_update now d (set_gameTime ts g)).
    intros K. unfold requestAnimationFrame.
    eapply sound_same; [| | | | | | apply K]; try reflexivity.
    revert S. apply sound_same; reflexivity.
  - rewrite gameLoop_not_playing; [exact S|].
    intros Hs. rewrite Hs in E. discriminate.
Qed.

Lemma runTimers_sound l g :
  sound g ->
  sound (fold_left (fun g t => runTimer (timer_action t) g) l g).
Proof.
  revert g. induction l as [|t l IH]; intros g S; cbn [fold_left].
  - exact S.
  - apply IH. destruct S as (A & B & C & D & E & F).
    destruct (timer_action t); cbn [runTimer]; unfold sound; engine_fields;
      (split; [exact A|]); (split; [exact B|]); (split; [exact C|]);
      (split; [exact D|]); split; auto.
Qed.

Lemma sound_fireTimers now g : sound g -> sound (fireTimers now g).
Proof.
  intros S. unfold fireTimers. apply runTimers_sound.
  revert S. apply sound_same; reflexivity.
Qed.

Lemma sound_reset g : sound g -> sound (startGame_reset (set_state PLAYING g)).
Proof.
  intros (A & _).
  destruct (shipped_constants _ A) as (LC & _ & _ & _ & _ & B0 & BM & _).
  unfold startGame_reset, sound. cbv zeta. engine_fields.
  split; [exact A|]. split.
  - intros p E. injection E as <-.
    unfold player_ok, Player_new. player_fields. rewrite LC.
    repeat split; try lia; lra.
  - repeat split; auto.
Qed.

Lemma sound_handleInput input g : sound g -> sound (handleInput input g).
Proof.
  intros S. pose proof S as (A & B & C).
  destruct (shipped_constants _ A) as (LC & _ & _ & _ & _ & B0 & BM & _).
  unfold handleInput, with_player.
  destruct (negb _); [exact S|].
  destruct (player g) as [p|] eqn:Hp; [|exact S].
  apply sound_set_player; [exact S|].
  destruct (B p eq_refl) as (P1 & P2 & P3 & P4).
  destruct input.
  - unfold Player_moveLeft. destruct (Z.ltb_spec 0 (p_targetLane p)).
    + unfold player_ok. player_fields. repeat split; try tauto; lia.
    + exact (B p eq_refl).
  - unfold Player_moveRight.
    destruct (Z.ltb_spec (p_targetLane p) (Z.of_nat (LANE_COUNT (config g)) - 1)).
    + unfold player_ok. player_fields. repeat split; try tauto; lia.
    + exact (B p eq_refl).
  - unfold Player_accelerate, player_ok. player_fields.
    split; [exact P1|]. split; [exact P2|].
    split; [apply Q.min_glb; lra | apply Q.le_min_r].
  - unfold Player_decelerate, player_ok. player_fields.
    split; [exact P1|]. split; [exact P2|]. split; [lra | exact BM].
Qed.

Lemma sound_setDifficulty d g : sound g -> sound (setDifficulty d g).
Proof.
  intros S. pose proof S as (A & B & C).
  destruct d as [d|]; [|exact S].
  pose proof (shipped_preset d _ A) as A'.
  destruct (shipped_constants _ A') as (_ & _ & _ & _ & _ & B0 & BM & _).
  unfold setDifficulty. cbv zeta. fold (apply_preset d (config g)) in *.
  engine_fields.
  destruct (player g) as [p|] eqn:Hp.
  - unfold sound. engine_fields. split; [exact A'|]. split; [|exact C].
    intros q E. injection E as <-.
    destruct (B p eq_refl) as (P1 & P2 & P3 & P4).
    unfold player_ok, Player_setSpeed. player_fields.
    split; [exact P1|]. split; [exact P2|].
    split; [apply Qle_refl | exact BM].
  - unfold sound. engine_fields. rewrite Hp.
    split; [exact A'|]. split; [discriminate | exact C].
Qed.

Lemma Engine_new_sound hs w h r : sound (Engine_new hs w h r).
Proof.
  unfold sound. cbn. split; [now left|]. repeat split; auto; discriminate.
Qed.

Lemma run_sound `{MathLib} es g : sound g -> sound (run es g).
Proof.
  apply run_preserves.
  - intros now ts g0 _. apply sound_gameLoop.
  - intros b g0. apply sound_same; reflexivity.
  - apply sound_fireTimers.
  - apply sound_reset.
  - intros n o g0. apply sound_same; reflexivity.
  - intros g0 _. apply sound_same; reflexivity.
  - intros g0. apply sound_same; reflexivity.
  - intros g0 _. apply sound_same; reflexivity.
  - intros input g0 _. apply sound_handleInput.
  - apply sound_setDifficulty.
Qed.

(** ** The score going forward *)

Lemma Qfloor_nonneg x : 0 <= x -> (0 <= Qfloor x)%Z.
Proof.
  intros L. change 0%Z with (Qfloor 0). now apply Qfloor_resp_le.
Qed.

Lemma updateObstacles_loop_score cfg dt ps gh ts mult os score :
  Forall obstacle_ok os -> 0 <= ps -> 0 <= mult ->
  (score <= snd (updateObstacles_loop cfg dt ps gh ts mult os score))%Z.
Proof.
  intros F P M. induction F as [|o os Ho Hos IH]; cbn [updateObstacles_loop].
  - cbn. lia.
  - destruct (updateObstacles_loop cfg dt ps gh ts mult os score)
      as [rest s]. cbn [snd] in IH.
    destruct (o_markedForDeletion _); cbn [snd]; [|exact IH].
    destruct Ho as (_ & _ & _ & Hp & _).
    assert (0 <= Qfloor (o_points (Obstacle_update cfg dt ps gh ts o)
                         * ps * mult))%Z; [|lia].
    apply Qfloor_nonneg. change (o_points (Obstacle_update cfg dt ps gh ts o))
      with (o_points o).
    apply Qmult_le_0_compat; [apply Qmult_le_0_compat|]; lra.
Qed.

Lemma sound_multiplier_nonneg g : sound g -> 0 <= scoreMultiplier g.
Proof. intros (_ & _ & _ & _ & [-> | ->] & _); discriminate. Qed.

Lemma sound_timeScale_nonneg g : sound g -> 0 <= timeScale g.
Proof. intros (_ & _ & _ & _ & _ & [-> | ->]); discriminate. Qed.

Lemma sound_speed_pos g p : sound g -> player g = Some p -> 0 < p_speed p.
Proof.
  intros S Hp. pose proof S as (A & B & _).
  destruct (shipped_constants _ A) as (_ & _ & _ & _ & _ & B0 & _).
  destruct (B p Hp) as (_ & _ & P3 & _). lra.
Qed.

Lemma updatePowerUps_score `{MathLib} now d p g :
  score (updatePowerUps now d p g) = score g.
Proof. unfold updatePowerUps. break_lets. reflexivity. Qed.

Lemma update_particleSystem_score `{MathLib} d g :
  score (update_particleSystem d g) = score g.
Proof. unfold update_particleSystem. break_lets. reflexivity. Qed.

Lemma update_road_score d p g : score (update_road d p g) = score g.
Proof. unfold update_road. break_lets; reflexivity. Qed.

Lemma update_spawnObstacle_score g : score (update_spawnObstacle g) = score g.
Proof.
  unfold update_spawnObstacle. destruct (js_gt _ _); [|reflexivity].
  unfold spawnObstacle, Math_random, Obstacle_new. cbn [fst snd].
  break_lets; reflexivity.
Qed.

Lemma spawnPowerUp_score now p g : score (spawnPowerUp now p g) = score g.
Proof.
  unfold spawnPowerUp, Math_random.
  destruct (safeLanes_of _ _); [reflexivity|].
  destruct (PowerUp_new _ _ _ _) as [u r]. reflexivity.
Qed.

Lemma update_spawnPowerUp_score now g :
  score (update_spawnPowerUp now g) = score g.
Proof.
  unfold update_spawnPowerUp. destruct (js_gt _ _); [|reflexivity].
  unfold Math_random. cbv zeta.
  set (g' := set_rng _ g).
  assert (E : score g' = score g) by reflexivity. clearbody g'.
  destruct (js_lt _ _); [|exact E].
  unfold with_player. destruct (player g'); [|exact E].
  cbn [score set_lastPowerUpTime]. now rewrite spawnPowerUp_score.
Qed.

Lemma update_difficulty_score g : score (update_difficulty g) = score g.
Proof.
  unfold update_difficulty. destruct (js_gt _ _); [|reflexivity].
  unfold increaseDifficulty. engine_fields.
  destruct (player g); [destruct (js_lt _ _)|]; reflexivity.
Qed.

Lemma update_score_mono `{MathLib} now d g :
  sound g -> 0 <= d -> (score g <= score (update now d g))%Z.
Proof.
  intros S D.
  assert (D' : 0 <= Qmin d (1 # 10)) by (apply Q.min_glb; [exact D | discriminate]).
  enough (K : sound (update now d g) /\ (score g <= score (update now d g))%Z)
    by apply K.
  apply (update_preserves (fun g' => sound g' /\ (score g <= score g')%Z)).
  - intros p g0 Hp (S0 & L). split; [|exact L].
    apply sound_set_player; [exact S0|].
    apply Player_update_ok. now apply S0.
  - intros p g0 _ (S0 & L). split; [now apply sound_update_road|].
    now rewrite update_road_score.
  - intros p g0 Hp (S0 & L). split; [now apply sound_updateObstacles|].
    unfold updateObstacles.
    pose proof (updateObstacles_loop_score (config g0) (Qmin d (1 # 10))
                  (p_speed p) (canvas_height g0) (timeScale g0)
                  (scoreMultiplier g0) (obstacles g0) (score g0)) as K.
    destruct (updateObstacles_loop _ _ _ _ _ _ _ _) as [os s].
    cbn [snd] in K. cbn [score set_score].
    assert (score g0 <= s)%Z; [|lia].
    apply K.
    + apply S0.
    + apply Qlt_le_weak. now apply (sound_speed_pos g0).
    + now apply sound_multiplier_nonneg.
  - intros p g0 _ (S0 & L). split; [now apply sound_updatePowerUps|].
    now rewrite updatePowerUps_score.
  - intros g0 (S0 & L). split; [now apply sound_update_particleSystem|].
    now rewrite update_particleSystem_score.
  - intros g0 (S0 & L). split; [now apply sound_checkCollisions|].
    destruct (checkCollisions_steady now g0) as (_ & _ & _ & _ & E).
    now rewrite E.
  - intros g0 (S0 & L). split; [now apply sound_update_spawnObstacle|].
    now rewrite update_spawnObstacle_score.
  - intros g0 (S0 & L). split; [now apply sound_update_spawnPowerUp|].
    now rewrite update_spawnPowerUp_score.
  - intros g0 (S0 & L). split; [now apply sound_update_difficulty|].
    now rewrite update_difficulty_score.
  - intros g0 (S0 & L). split; [now apply sound_update_score|].
    unfold update_score, with_player.
    destruct (player g0) as [p|] eqn:Hp; [|exact L]. cbv zeta.
    assert (Z0 : (0 <= Qfloor (Qmin d (1 # 10)
                              * (p_speed p * scoreMultiplier g0)
                              * SCORE_MULTIPLIER (config g0)))%Z).
    { apply Qfloor_nonneg.
      pose proof (sound_speed_pos g0 p S0 Hp).
      pose proof (sound_multiplier_nonneg g0 S0).
      destruct S0 as (A & _).
      destruct (shipped_constants _ A)
        as (_ & _ & _ & _ & _ & _ & _ & _ & _ & _ & SM & _).
      rewrite SM.
      repeat apply Qmult_le_0_compat; try lra; discriminate. }
    destruct (negb _); cbn [score set_gameSpeed set_previousScore set_score];
      lia.
  - split; [exact S | lia].
Qed.

Lemma gameLoop_score_mono `{MathLib} now ts g :
  sound g -> (0 < gameTime g -> gameTime g <= ts) ->
  (score g <= score (gameLoop now ts g))%Z.
Proof.
  intros S T. destruct (GameState_eqb (state g) PLAYING) eqn:E.
  - apply GameState_eqb_eq in E. rewrite gameLoop_playing by assumption.
    unfold requestAnimationFrame. cbn [score set_animationPending].
    change (score g) with (score (set_gameTime ts g)) at 1.
    apply update_score_mono.
    + revert S. apply sound_same; reflexivity.
    + pose proof (sound_timeScale_nonneg g S) as TS.
      apply Qmult_le_0_compat; [|exact TS].
      destruct (js_gt (gameTime g) 0) eqn:J; [|discriminate].
      apply js_gt_spec in J. specialize (T J).
      apply Qle_shift_div_l; [reflexivity|]. lra.
  - rewrite gameLoop_not_playing; [lia|].
    intros Hs. rewrite Hs in E. discriminate.
Qed.

(** ** Invariants of every reachable state *)

(** X6.  In every state a game can reach, the player's lane and target
    lane are among the three lanes and the player's speed lies between
    the base speed and the maximum speed of the current difficulty. *)
Theorem player_within_lanes_and_speed :
  forall (M : MathLib) hs w h r (es : list Event) (p : Player),
    let g := run es (Engine_new hs w h r) in
    player g = Some p ->
    (0 <= p_targetLane p <= 2)%Z /\ (0 <= p_lane p <= 2)%Z /\
    BASE_GAME_SPEED (config g) <= p_speed p /\
    p_speed p <= MAX_GAME_SPEED (config g).
Proof.
  intros M hs w h r es p g Hp.
  pose proof (run_sound es _ (Engine_new_sound hs w h r)) as S.
  fold g in S. pose proof (shipped_lanes g S) as LC.
  destruct S as (_ & B & _). specialize (B p Hp).
  unfold player_ok in B. rewrite LC in B. simpl in B. exact B.
Qed.

Lemma player_within_lanes_and_speed_witness :
  let g := run (H := sampleMath)
             [EvStart 0; EvInput left; EvInput left; EvInput accelerate]
             (Engine_new 0 600 800 (rng_of_list [] draw_50)) in
  let p := the_player g in
  (0 <= p_targetLane p <= 2)%Z /\ (0 <= p_lane p <= 2)%Z /\
  BASE_GAME_SPEED (config g) <= p_speed p /\
  p_speed p <= MAX_GAME_SPEED (config g).
Proof.
  intros g p.
  apply (player_within_lanes_and_speed sampleMath 0 600 800
           (rng_of_list [] draw_50)
           [EvStart 0; EvInput left; EvInput left; EvInput accelerate] p).
  vm_compute. reflexivity.
Defined.

(** X7.  In every state a game can reach, no obstacle or power-up on
    screen is flagged for deletion, every obstacle is in one of the
    three lanes with its hitbox inside its bounds, and every power-up
    has the effect and duration that the catalog gives its type. *)
Theorem entities_on_screen_are_live :
  forall (M : MathLib) hs w h r (es : list Event),
    let g := run es (Engine_new hs w h r) in
    Forall (fun o =>
              o_markedForDeletion o = false /\ (o_lane o < 3)%nat /\
              contained (Obstacle_hitbox o) (Obstacle_bounds o))
           (obstacles g) /\
    Forall (fun u =>
              pu_markedForDeletion u = false /\ (pu_lane u < 3)%nat /\
              exists t,
                In t POWER_UP_TYPES /\ pu_type u = pt_type t /\
                pu_effect u = pt_effect t /\
                pu_duration u = or_default (pt_duration t) 0)
           (powerUps g).
Proof.
  intros M hs w h r es g.
  destruct (run_sound es _ (Engine_new_sound hs w h r)) as (_ & _ & C & D & _).
  fold g in C, D. split.
  - eapply Forall_impl; [|exact C].
    intros o (U & A & L & _). repeat split; auto.
    all: now apply anchored_contained.
  - exact D.
Qed.

(** X8.  In every state a game can reach, the score multiplier is 1 or 2
    and the time scale is 1 or 0.5. *)
Theorem effects_are_two_valued :
  forall (M : MathLib) hs w h r (es : list Event),
    let g := run es (Engine_new hs w h r) in
    (scoreMultiplier g = 1 \/ scoreMultiplier g = 2) /\
    (timeScale g = 1 \/ timeScale g = 5 # 10).
Proof.
  intros M hs w h r es g.
  destruct (run_sound es _ (Engine_new_sound hs w h r))
    as (_ & _ & _ & _ & E).
  exact E.
Qed.

(** X9.  From any state a game can reach, an animation frame whose
    timestamp is not earlier than the engine's game time never lowers
    the score. *)
Theorem score_grows_with_forward_frames :
  forall (M : MathLib) hs w h r (es : list Event) (now ts : Q),
    let g := run es (Engine_new hs w h r) in
    (0 < gameTime g -> gameTime g <= ts) ->
    (score g <= score (step (EvFrame now ts) g))%Z.
Proof.
  intros M hs w h r es now ts g T.
  pose proof (run_sound es _ (Engine_new_sound hs w h r)) as S. fold g in S.
  unfold step. destruct (animationPending g); [|lia].
  change (score g) with (score (set_animationPending false g)) at 1.
  apply gameLoop_score_mono.
  - revert S. apply sound_same; reflexivity.
  - exact T.
Qed.

Lemma score_grows_with_forward_frames_witness :
  let g := pickup_run draw_25 49 in
  (score g <= score (step (H := sampleMath) (EvFrame 13900 13900) g))%Z.
Proof.
  apply (score_grows_with_forward_frames sampleMath 0 600 800
           (pickup_rng draw_25) (EvStart 0 :: frames_from 9000 100 49)
           13900 13900).
  intros _. vm_compute. discriminate.
Defined.

(** ** The high score *)

Lemma setState_GAME_OVER_highScore g :
  highScore (setState_GAME_OVER g) = Z.max (highScore g) (score g).
Proof.
  unfold setState_GAME_OVER, endGame. engine_fields.
  destruct (Z.ltb_spec (highScore g) (score g)); engine_fields; lia.
Qed.

Lemma checkObstacleCollisions_highScore `{MathLib} p g :
  (highScore g <= highScore (checkObstacleCollisions p g))%Z.
Proof.
  unfold checkObstacleCollisions.
  destruct (splice_last_hit _ _) as [[o rest]|]; [|lia].
  destruct (explosion _ _ _ _ _ _) as [ps r].
  destruct (Player_takeDamage _ p) as [dead p'].
  destruct dead.
  - unfold setState_GAME_OVER, endGame. engine_fields.
    destruct (Z.ltb_spec (highScore g) (score g)); engine_fields; lia.
  - engine_fields. lia.
Qed.

Lemma checkPowerUpCollisions_highScore `{MathLib} now p g :
  highScore (checkPowerUpCollisions now p g) = highScore g.
Proof.
  unfold checkPowerUpCollisions.
  destruct (splice_last_hit _ _) as [[u rest]|]; [|reflexivity].
  destruct (explosion _ _ _ _ _ _) as [ps r].
  unfold applyPowerUp. destruct (pu_effect u); reflexivity.
Qed.

Lemma checkCollisions_highScore `{MathLib} now g :
  (highScore g <= highScore (checkCollisions now g))%Z.
Proof.
  unfold checkCollisions, with_player.
  destruct (player g) as [p|]; [|lia].
  destruct (p_invincible p); [lia|]. cbv zeta.
  pose proof (checkObstacleCollisions_highScore p g) as L1.
  destruct (player (checkObstacleCollisions p g)) as [p1|]; [|exact L1].
  rewrite checkPowerUpCollisions_highScore. exact L1.
Qed.

Lemma update_highScore `{MathLib} now d g :
  (highScore g <= highScore (update now d g))%Z.
Proof.
  apply (update_preserves (fun g' => (highScore g <= highScore g')%Z));
    try lia.
  - intros p g0 _ L. exact L.
  - intros p g0 _ L. unfold update_road. break_lets; exact L.
  - intros p g0 _ L. unfold updateObstacles. break_lets. exact L.
  - intros p g0 _ L. unfold updatePowerUps. break_lets. exact L.
  - intros g0 L. unfold update_particleSystem. break_lets. exact L.
  - intros g0 L. pose proof (checkCollisions_highScore now g0). lia.
  - intros g0 L. unfold update_spawnObstacle, spawnObstacle, Math_random,
      Obstacle_new. cbn [fst snd]. break_lets; exact L.
  - intros g0 L. unfold update_spawnPowerUp, Math_random, with_player.
    cbv zeta. destruct (js_gt _ _); [|exact L].
    destruct (js_lt _ _); [|exact L]. cbn [player set_rng].
    destruct (player g0); [|exact L].
    unfold spawnPowerUp, Math_random.
    cbn [obstacles config set_rng]. destruct (safeLanes_of _ _); [exact L|].
    destruct (PowerUp_new _ _ _ _) as [u r1]. exact L.
  - intros g0 L. unfold update_difficulty, increaseDifficulty.
    destruct (js_gt _ _); [|exact L]. engine_fields.
    destruct (player g0); [destruct (js_lt _ _)|]; exact L.
  - intros g0 L. unfold update_score, with_player.
    destruct (player g0); [|exact L]. cbv zeta.
    destruct (negb _); exact L.
Qed.

Lemma gameLoop_highScore `{MathLib} now ts g :
  (highScore g <= highScore (gameLoop now ts g))%Z.
Proof.
  unfold gameLoop. destruct (negb _); [lia|]. cbv zeta.
  unfold requestAnimationFrame. cbn [highScore set_animationPending].
  match goal with |- context [update now ?d ?g0] =>
    pose proof (update_highScore now d g0) as L
  end.
  exact L.
Qed.

Lemma runTimers_highScore l g :
  highScore (fold_left (fun g t => runTimer (timer_action t) g) l g)
  = highScore g.
Proof.
  revert g. induction l as [|t l IH]; intros g; cbn [fold_left];
    [reflexivity|].
  rewrite IH. now destruct (timer_action t).
Qed.

Lemma step_highScore `{MathLib} e g :
  (highScore g <= highScore (step e g))%Z.
Proof.
  apply (step_preserves (fun g' => (highScore g <= highScore g')%Z));
    try lia.
  - intros now ts g0 _ L. pose proof (gameLoop_highScore now ts g0). lia.
  - intros b g0 L. exact L.
  - intros now g0 L. unfold fireTimers. now rewrite runTimers_highScore.
  - intros g0 L. exact L.
  - intros n o g0 L. exact L.
  - intros g0 _ L. exact L.
  - intros g0 L. exact L.
  - intros g0 _ L. exact L.
  - intros input g0 _ L. unfold handleInput, with_player.
    destruct (negb _); [exact L|]. destruct (player g0); exact L.
  - intros d g0 L. unfold setDifficulty. destruct d; [|exact L].
    cbv zeta. engine_fields. destruct (player g0); exact L.
Qed.

(** X10.  No event ever lowers the stored high score, and the game-over
    transition leaves it at the larger of its old value and the score of
    that moment. *)
Theorem highScore_never_decreases :
  forall (M : MathLib),
    (forall (es : list Event) (g : Engine),
        (highScore g <= highScore (run es g))%Z) /\
    (forall g : Engine,
        highScore (setState_GAME_OVER g) = Z.max (highScore g) (score g) /\
        state (setState_GAME_OVER g) = GAME_OVER /\
        score (setState_GAME_OVER g) = score g).
Proof.
  intros M. split.
  - intros es. unfold run. induction es as [|e es IH]; intros g; simpl.
    + lia.
    + pose proof (step_highScore e g). specialize (IH (step e g)). lia.
  - intros g. split; [apply setState_GAME_OVER_highScore|].
    unfold setState_GAME_OVER, endGame. engine_fields.
    destruct (_ <? _)%Z; split; reflexivity.
Qed.

(** ** Pausing *)

Lemma paused_ignores `{MathLib} e g :
  state g = PAUSED -> animationPending g = false ->
  ignored_while_paused e -> step e g = g.
Proof.
  intros Hs Ha I. destruct e; try (now elim I); unfold step.
  - now rewrite Ha.
  - now rewrite Hs.
  - apply handleInput_not_playing. rewrite Hs. discriminate.
Qed.

(** X11.  Pausing a playing game sets the state to paused, cancels the
    pending animation frame and leaves score, game time, player and
    entities as they are.  From then on animation frames, player input
    and further pause requests change nothing at all. *)
Theorem paused_game_is_frozen :
  forall (M : MathLib) (g : Engine),
    state g = PLAYING ->
    let g' := step EvPause g in
    (state g' = PAUSED /\ animationPending g' = false /\
     score g' = score g /\ gameTime g' = gameTime g /\
     player g' = player g /\ obstacles g' = obstacles g /\
     powerUps g' = powerUps g /\ timers g' = timers g) /\
    forall es : list Event,
      Forall ignored_while_paused es -> run es g' = g'.
Proof.
  intros M g Hs g'.
  assert (E : g' = emit_stateChange PAUSED (state g)
                     (pauseGame (set_state PAUSED g))).
  { subst g'. unfold step, setState. now rewrite Hs. }
  assert (P : state g' = PAUSED /\ animationPending g' = false)
    by (rewrite E; split; reflexivity).
  split.
  - rewrite E. repeat split.
  - clear E. destruct P as (P1 & P2). intros es F. unfold run.
    induction F as [|e es He Hes IH]; simpl; [reflexivity|].
    now rewrite (paused_ignores e g' P1 P2 He).
Qed.

Lemma paused_game_is_frozen_witness :
  let g := pickup_run draw_25 49 in
  let g' := step (H := sampleMath) EvPause g in
  run (H := sampleMath)
    [EvFrame 14000 14000; EvInput left; EvPause; EvFrame 15000 15000] g'
  = g'.
Proof.
  intros g g'.
  apply (proj2 (paused_game_is_frozen sampleMath g
                  ltac:(vm_compute; reflexivity))).
  repeat constructor.
Defined.

(** ** Starting a run *)

Lemma checkCollisions_empty `{MathLib} now g :
  obstacles g = [] -> powerUps g = [] -> checkCollisions now g = g.
Proof.
  intros O U. unfold checkCollisions, with_player.
  destruct (player g) as [p|] eqn:Hp; [|reflexivity].
  destruct (p_invincible p); [reflexivity|]. cbv zeta.
  assert (E : checkObstacleCollisions p g = g).
  { unfold checkObstacleCollisions. now rewrite O. }
  rewrite E, Hp. unfold checkPowerUpCollisions. now rewrite U.
Qed.

Lemma Qfloor_zero x : 0 <= x -> x < 1 -> Qfloor x = 0%Z.
Proof.
  intros A B.
  assert (0 <= Qfloor x)%Z by now apply Qfloor_nonneg.
  assert (Qfloor x < 1)%Z; [|lia].
  rewrite Zlt_Qlt. eapply Qle_lt_trans; [apply Qfloor_le | exact B].
Qed.

Lemma js_gt_zero_false x : 0 < x -> js_gt (0 - 0) x = false.
Proof. intros L. apply js_gt_false. lra. Qed.

Lemma update_just_started `{MathLib} now c (hs : Z) tm sc g :
  shipped c ->
  just_started c g /\ highScore g = hs /\ timers g = tm /\
  stateChanges g = sc ->
  let g' := update now ((16 # 1000) * 1) g in
  just_started c g' /\ highScore g' = hs /\ timers g' = tm /\
  stateChanges g' = sc.
Proof.
  intros Sh. destruct (shipped_constants _ Sh)
    as (_ & _ & Mi & Pm & _ & B0 & _ & B15 & _ & SI & SM & _).
  cbv zeta.
  apply (update_preserves
           (fun g => just_started c g /\ highScore g = hs /\
                     timers g = tm /\ stateChanges g = sc)).
  - intros p g0 Hp (J & F). split; [|exact F].
    destruct J as (C & S & Sc & T & rest). split; [exact C|].
    split; [exact S|]. split; [exact Sc|]. split; [exact T|].
    destruct rest as (L1 & L2 & L3 & O & U & TS & MU & q & Hq & Q1 & Q2 & Q3 & Q4 & Q5 & Q6).
    repeat (split; [assumption|]).
    rewrite Hq in Hp. injection Hp as <-.
    destruct (Player_update_idle (Qmin ((16 # 1000) * 1) (1 # 10)) q Q5 Q6)
      as (E1 & E2 & E3 & E4 & E5).
    destruct (Player_update_lanes (Qmin ((16 # 1000) * 1) (1 # 10)) q)
      as (_ & [E6 | E6]).
    + eexists. split; [reflexivity|]. rewrite E1, E2, E3, E4, E5, E6.
      repeat split; assumption.
    + eexists. split; [reflexivity|]. rewrite E1, E2, E3, E4, E5, E6.
      repeat split; assumption.
  - intros p g0 _ J. unfold update_road. break_lets; exact J.
  - intros p g0 _ (J & F). unfold updateObstacles.
    destruct J as (C & S & Sc & T & L1 & L2 & L3 & O & U & TS & MU & EX).
    rewrite O. cbn [updateObstacles_loop].
    split; [|exact F]. unfold just_started. engine_fields.
    repeat (split; [assumption || reflexivity|]). exact EX.
  - intros p g0 _ (J & F). unfold updatePowerUps.
    destruct J as (C & S & Sc & T & L1 & L2 & L3 & O & U & TS & MU & EX).
    rewrite U. cbn [updatePowerUps_loop].
    split; [|exact F]. unfold just_started. engine_fields.
    repeat (split; [assumption || reflexivity|]). exact EX.
  - intros g0 J. unfold update_particleSystem. break_lets. exact J.
  - intros g0 J. rewrite checkCollisions_empty; [exact J | apply J..].
  - intros g0 J. unfold update_spawnObstacle.
    destruct J as ((C & S & Sc & T & L1 & rest) & F). rewrite T, L1.
    rewrite js_gt_zero_false;
      [exact (conj (conj C (conj S (conj Sc (conj T (conj L1 rest))))) F)|].
    eapply Qlt_le_trans; [|apply getObstacleSpawnInterval_min].
    rewrite C, Mi. reflexivity.
  - intros g0 J. unfold update_spawnPowerUp.
    destruct J as ((C & S & Sc & T & L1 & L2 & rest) & F). rewrite T, L2.
    rewrite js_gt_zero_false;
      [exact (conj (conj C (conj S (conj Sc (conj T (conj L1 (conj L2 rest)))))) F)|].
    unfold getPowerUpSpawnInterval. rewrite C, Pm.
    eapply Qlt_le_trans; [|apply Q.le_max_l]. reflexivity.
  - intros g0 J. unfold update_difficulty.
    destruct J as ((C & S & Sc & T & L1 & L2 & L3 & rest) & F). rewrite T, L3.
    rewrite js_gt_zero_false;
      [exact (conj (conj C (conj S (conj Sc (conj T (conj L1 (conj L2 (conj L3 rest))))))) F)|].
    now rewrite C.
  - intros g0 (J & F). unfold update_score, with_player.
    destruct J as (C & S & Sc & T & L1 & L2 & L3 & O & U & TS & MU
                   & q & Hq & Q1 & Q2 & rest).
    rewrite Hq. cbv zeta.
    assert (Z0 : Qfloor (Qmin ((16 # 1000) * 1) (1 # 10)
                         * (p_speed q * scoreMultiplier g0)
                         * SCORE_MULTIPLIER (config g0)) = 0%Z).
    { rewrite C, SM, MU, Q2.
      change (Qmin ((16 # 1000) * 1) (1 # 10)) with (16 # 1000).
      apply Qfloor_zero; lra. }
    rewrite Z0, Sc.
    destruct (negb _); (split; [|exact F]); unfold just_started;
      engine_fields; rewrite ?Hq;
      repeat (split; [assumption || reflexivity|]);
      exists q; auto 10.
Qed.

Lemma startGame_reset_just_started g :
  just_started (config g) (startGame_reset (set_state PLAYING g)).
Proof.
  unfold just_started, startGame_reset. cbv zeta. engine_fields.
  repeat (split; [reflexivity|]). eexists. split; [reflexivity|].
  repeat split.
Qed.

Lemma startGame_first_frame `{MathLib} now g :
  state g = PLAYING -> gameTime g = 0 -> timeScale g = 1 ->
  gameLoop now 0 g =
  requestAnimationFrame (update now ((16 # 1000) * 1) (set_gameTime 0 g)).
Proof.
  intros S T TS. rewrite gameLoop_playing by assumption.
  rewrite T, TS. reflexivity.
Qed.

Lemma startGame_reset_kept g :
  highScore (startGame_reset g) = highScore g /\
  timers (startGame_reset g) = timers g /\
  stateChanges (startGame_reset g) = stateChanges g.
Proof. unfold startGame_reset. cbv zeta. engine_fields. repeat split. Qed.

Lemma setState_PLAYING_fresh `{MathLib} now g :
  shipped (config g) ->
  just_started (config g) (setState now PLAYING g) /\
  animationPending (setState now PLAYING g) = true /\
  highScore (setState now PLAYING g) = highScore g /\
  timers (setState now PLAYING g) = timers g /\
  stateChanges (setState now PLAYING g)
  = stateChanges g ++ [(state g, PLAYING)].
Proof.
  intros Sh. unfold setState, startGame. cbv zeta.
  pose proof (startGame_reset_just_started g) as J0.
  pose proof (startGame_reset_kept (set_state PLAYING g)) as F0.
  change (highScore (set_state PLAYING g)) with (highScore g) in F0.
  change (timers (set_state PLAYING g)) with (timers g) in F0.
  change (stateChanges (set_state PLAYING g)) with (stateChanges g) in F0.
  generalize dependent (startGame_reset (set_state PLAYING g)).
  intros g0 J0 F0.
  rewrite startGame_first_frame by apply J0.
  assert (J1 : just_started (config g) (set_gameTime 0 g0) /\
               highScore (set_gameTime 0 g0) = highScore g /\
               timers (set_gameTime 0 g0) = timers g /\
               stateChanges (set_gameTime 0 g0) = stateChanges g).
  { split; [|exact F0].
    destruct J0 as (C & S & Sc & T & L1 & L2 & L3 & O & U & TS & MU & EX).
    unfold just_started. engine_fields.
    repeat (split; [assumption || reflexivity|]). exact EX. }
  generalize dependent (set_gameTime 0 g0). intros g1 J1.
  pose proof (update_just_started now (config g) _ _ _ g1 Sh J1) as J2.
  cbv zeta in J2.
  generalize dependent (update now ((16 # 1000) * 1) g1). intros g2 J2.
  destruct J2 as (J2 & H1 & H2 & H3).
  destruct J2 as (C & S & Sc & T & L1 & L2 & L3 & O & U & TS & MU & EX).
  unfold emit_stateChange, requestAnimationFrame.
  unfold just_started. engine_fields. rewrite H3.
  split; [repeat (split; [assumption|]); exact EX|].
  repeat split; assumption.
Qed.

(** X12.  Starting or restarting a game, from any state a game can
    reach, leaves the engine playing with the first frame done and
    another requested: score 0, game time 0, no obstacles or power-ups,
    time scale and multiplier back at 1, and a new player in the centre
    lane with the starting lives and base speed of the current
    difficulty.  The configuration, the high score and the pending
    effect callbacks of the previous run are kept. *)
Theorem start_resets_the_run :
  forall (M : MathLib) hs w h r (es : list Event) (now : Q),
    let g := run es (Engine_new hs w h r) in
    let g' := step (EvStart now) g in
    just_started (config g) g' /\
    animationPending g' = true /\
    highScore g' = highScore g /\
    timers g' = timers g /\
    stateChanges g' = stateChanges g ++ [(state g, PLAYING)].
Proof.
  intros M hs w h r es now g g'.
  assert (Sh : shipped (config g)) by (apply run_shipped; now left).
  clearbody g. subst g'.
  change (step (EvStart now) g) with (setState now PLAYING g).
  now apply setState_PLAYING_fresh.
Qed.

(** ** One collision of each kind per frame *)

Lemma splice_last_hit_split {A : Type} (hit : A -> bool) l :
  match splice_last_hit hit l with
  | Some (h, rest) =>
    exists l1 l2,
      l = l1 ++ h :: l2 /\ rest = l1 ++ l2 /\ hit h = true /\
      forall a, In a l2 -> hit a = false
  | None => forall a, In a l -> hit a = false
  end.
Proof.
  induction l as [|a l IH]; simpl.
  - intros a [].
  - destruct (splice_last_hit hit l) as [[h rest]|].
    + destruct IH as (l1 & l2 & E1 & E2 & Hh & N).
      exists (a :: l1), l2. subst. repeat split; auto.
    + destruct (hit a) eqn:Ha.
      * exists [], l. repeat split; auto.
      * intros b [<- | Hb]; auto.
Qed.

Lemma splice_last_hit_spec {A : Type} (hit : A -> bool) l :
  last_hit_removed hit l
    match splice_last_hit hit l with
    | Some (_, rest) => rest
    | None => l
    end.
Proof.
  pose proof (splice_last_hit_split hit l) as S.
  destruct (splice_last_hit hit l) as [[h rest]|].
  - right. destruct S as (l1 & l2 & S). now exists l1, h, l2.
  - left. now split.
Qed.

Lemma splice_last_hit_ext {A : Type} (hit hit' : A -> bool) l :
  (forall a, hit a = hit' a) ->
  splice_last_hit hit l = splice_last_hit hit' l.
Proof.
  intros E. induction l as [|a l IH]; simpl; [reflexivity|].
  now rewrite IH, E.
Qed.

Lemma checkCollision_same_body {B : Type} `{Body B} (p p' : Player) (b : B) :
  p_x p' = p_x p -> p_y p' = p_y p ->
  p_width p' = p_width p -> p_height p' = p_height p ->
  checkCollision p' b = checkCollision p b.
Proof.
  intros X Y W Hh. unfold checkCollision. cbn [body_x body_y body_width body_height Player_Body].
  now rewrite X, Y, W, Hh.
Qed.

Lemma checkObstacleCollisions_lists `{MathLib} p g :
  player g = Some p ->
  p_invincible p = false ->
  let g1 := checkObstacleCollisions p g in
  powerUps g1 = powerUps g /\ score g1 = score g /\
  (exists p1,
      player g1 = Some p1 /\ p_x p1 = p_x p /\ p_y p1 = p_y p /\
      p_width p1 = p_width p /\ p_height p1 = p_height p) /\
  obstacles g1 =
  match splice_last_hit
          (fun o => checkCollision p (Obstacle_hitbox o)) (obstacles g) with
  | Some (_, rest) => rest
  | None => obstacles g
  end.
Proof.
  intros Hp Hi. unfold checkObstacleCollisions.
  destruct (splice_last_hit _ _) as [[o rest]|].
  2:{ cbv zeta. repeat split. exists p. now repeat split. }
  destruct (explosion _ _ _ _ _ _) as [ps r].
  unfold Player_takeDamage. rewrite Hi. player_fields.
  destruct (p_lives p - 1 <=? 0)%Z eqn:E.
  - unfold setState_GAME_OVER, endGame. engine_fields.
    destruct (highScore g <? score g)%Z; engine_fields;
      repeat split; eexists; (split; [reflexivity|]); repeat split.
  - engine_fields. repeat split.
    eexists; (split; [reflexivity|]); repeat split.
Qed.

Lemma checkPowerUpCollisions_lists `{MathLib} now p g :
  let g' := checkPowerUpCollisions now p g in
  obstacles g' = obstacles g /\ score g' = score g /\
  powerUps g' =
  match splice_last_hit (fun u => checkCollision p u) (powerUps g) with
  | Some (_, rest) => rest
  | None => powerUps g
  end.
Proof.
  unfold checkPowerUpCollisions.
  destruct (splice_last_hit _ _) as [[u rest]|]; [|now repeat split].
  destruct (explosion _ _ _ _ _ _) as [ps r].
  unfold applyPowerUp.
  destruct (pu_effect u); engine_fields; repeat split.
Qed.

(** X13.  One call of [checkCollisions] changes nothing at all while the
    player is invincible: no crash and no power-up is picked up.
    Otherwise it takes at most one obstacle and at most one power-up out
    of their arrays, in each case the colliding one nearest the end of
    the array, and it leaves the score as it is. *)
Theorem collisions_take_one_of_each :
  forall (M : MathLib) (now : Q) (g : Engine) (p : Player),
    player g = Some p ->
    let g' := checkCollisions now g in
    (p_invincible p = true -> g' = g) /\
    (p_invincible p = false ->
     score g' = score g /\
     last_hit_removed (fun o => checkCollision p (Obstacle_hitbox o))
       (obstacles g) (obstacles g') /\
     last_hit_removed (fun u => checkCollision p u)
       (powerUps g) (powerUps g')).
Proof.
  intros M now g p Hp g'. subst g'. unfold checkCollisions, with_player.
  rewrite Hp. split; intros Hi; rewrite Hi; [reflexivity|]. cbv zeta.
  destruct (checkObstacleCollisions_lists p g Hp Hi)
    as (U1 & S1 & (p1 & Hp1 & X & Y & W & Hh) & O1).
  cbv zeta in U1, S1, Hp1, O1.
  generalize dependent (checkObstacleCollisions p g). intros g1 U1 S1 Hp1 O1.
  rewrite Hp1.
  destruct (checkPowerUpCollisions_lists now p1 g1) as (O2 & S2 & U2).
  cbv zeta in O2, S2, U2.
  rewrite O2, S2, U2, S1, O1, U1.
  split; [reflexivity|]. split; [apply splice_last_hit_spec|].
  rewrite (splice_last_hit_ext (fun u => checkCollision p1 u)
             (fun u => checkCollision p u)).
  - apply splice_last_hit_spec.
  - intros u. now apply checkCollision_same_body.
Qed.

Lemma collisions_take_one_of_each_witness :
  let g := run (H := sampleMath) [EvStart 0]
             (Engine_new 0 600 800 (rng_of_list [] draw_50)) in
  let p := the_player g in
  let g' := checkCollisions (H := sampleMath) 16 g in
  (p_invincible p = true -> g' = g) /\
  (p_invincible p = false ->
   score g' = score g /\
   last_hit_removed (fun o => checkCollision p (Obstacle_hitbox o))
     (obstacles g) (obstacles g') /\
   last_hit_removed (fun u => checkCollision p u)
     (powerUps g) (powerUps g')).
Proof.
  intros g p.
  apply (collisions_take_one_of_each sampleMath 16 g p).
  vm_compute. reflexivity.
Defined.

(** ** What an update of the particle system leaves *)

Lemma js_ge_false a b : js_ge a b = false -> a < b.
Proof.
  intros E. apply Qnot_le_lt. intros L. apply js_ge_spec in L. congruence.
Qed.

Lemma update_particles_alive delta ps :
  Forall (fun p => pa_age p < pa_lifetime p) (update_particles delta ps).
Proof.
  induction ps as [|p ps IH]; simpl; [constructor|].
  destruct (js_ge _ _) eqn:E; [exact IH|].
  constructor; [|exact IH]. now apply js_ge_false in E.
Qed.

Lemma update_particles_steps delta ps :
  exists kept,
    update_particles delta ps = map (Particle_step delta) kept /\
    kept = filter (fun p => negb (js_ge (pa_age p + delta * 1000)
                                        (pa_lifetime p))) ps.
Proof.
  eexists. split; [|reflexivity].
  induction ps as [|p ps IH]; simpl; [reflexivity|].
  destruct (js_ge _ _); simpl; now rewrite IH.
Qed.

Lemma same_but_clock_refl e : same_but_clock e e.
Proof. exists (em_lastEmitTime e). now destruct e. Qed.

Lemma update_emitters_kept `{MathLib} cfg delta es st :
  Forall2 same_but_clock
    (filter (fun e => negb (em_oneShot e)) es)
    (fst (update_emitters cfg delta es st)).
Proof.
  induction es as [|e es IH]; simpl; [constructor|].
  destruct (update_emitters cfg delta es st) as [rest st'].
  simpl in IH.
  destruct (em_oneShot e) eqn:O; simpl.
  - rewrite ?O. exact IH.
  - destruct (em_active e) eqn:A; simpl.
    + destruct (js_ge _ _); simpl; rewrite ?O;
        (constructor; [|exact IH]); unfold same_but_clock;
        rewrite O, A; eexists; reflexivity.
    + rewrite ?O. constructor; [apply same_but_clock_refl | exact IH].
Qed.

(** X14.  After [update(delta)] of the particle system every particle
    left is younger than its lifetime, and these are the particles, old
    or emitted during the update, whose age after the step stays below
    their lifetime, each moved one step; no one-shot emitter is left, and
    the continuous emitters are all kept, in order, unchanged except for
    their emit clock. *)
Theorem particle_update_drops_dead_and_one_shots :
  forall (M : MathLib) (cfg : Config) (delta : Q) (s : ParticleSystem)
         (r : RNG),
    let s' := fst (ParticleSystem_update cfg delta s r) in
    Forall (fun p => pa_age p < pa_lifetime p) (particles s') /\
    particles s' =
    map (Particle_step delta)
      (filter (fun p => negb (js_ge (pa_age p + delta * 1000)
                                    (pa_lifetime p)))
         (fst (snd (update_emitters cfg delta (emitters s)
                      (particles s, r))))) /\
    Forall (fun e => em_oneShot e = false) (emitters s') /\
    Forall2 same_but_clock
      (filter (fun e => negb (em_oneShot e)) (emitters s)) (emitters s').
Proof.
  intros M cfg delta s r s'. subst s'. unfold ParticleSystem_update.
  pose proof (update_emitters_kept cfg delta (emitters s) (particles s, r))
    as K.
  destruct (update_emitters cfg delta (emitters s) (particles s, r))
    as [es [ps r']].
  cbn [fst snd particles emitters] in *.
  split; [apply update_particles_alive|].
  split.
  { destruct (update_particles_steps delta ps) as (kept & E1 & E2).
    now rewrite E1, E2. }
  split; [|exact K].
  clear -K. remember (filter _ (emitters s)) as l eqn:El.
  assert (F : Forall (fun e => em_oneShot e = false) l).
  { subst l. apply Forall_forall. intros e He.
    apply filter_In in He. destruct He as (_ & He).
    now apply negb_true_iff in He. }
  clear El. induction K as [|e e' l l' (t & ->) K IH]; [constructor|].
  inversion F; subst. constructor; [assumption | now apply IH].
Qed.

(** ** Where obstacles are spawned *)




(** ** How long invincibility lasts *)





Section Countdown.
Variable ok : Player -> Prop.
Variable act : Player -> bool.
Variable time : Player -> Q.

Hypothesis step_on :
  forall d p,
    ok p -> act p = true ->
    ok (Player_update d p) /\
    if js_le (time p - d * 1000) 0
    then act (Player_update d p) = false
    else act (Player_update d p) = true /\
         time (Player_update d p) = time p - d * 1000.
Hypothesis step_off :
  forall d p,
    ok p -> act p = false ->
    ok (Player_update d p) /\ act (Player_update d p) = false.


End Countdown.



(** ** Difficulty presets *)


(** ** Steering *)



(** X19.  [moveLeft] and [moveRight] change nothing but the target lane,
    by one lane, and do nothing at the edge of the road; away from the
    edges each undoes the other. *)
Theorem steering_moves_one_lane :
  forall (cfg : Config) (p : Player),
    (0 <= p_targetLane p <= Z.of_nat (LANE_COUNT cfg) - 1)%Z ->
    Player_moveLeft p
    = set_p_targetLane (Z.max 0 (p_targetLane p - 1)) p /\
    Player_moveRight cfg p
    = set_p_targetLane
        (Z.min (Z.of_nat (LANE_COUNT cfg) - 1) (p_targetLane p + 1)) p /\
    ((0 < p_targetLane p)%Z ->
     Player_moveRight cfg (Player_moveLeft p) = p) /\
    ((p_targetLane p < Z.of_nat (LANE_COUNT cfg) - 1)%Z ->
     Player_moveLeft (Player_moveRight cfg p) = p).
Proof.
  intros cfg p B. unfold Player_moveLeft, Player_moveRight.
  destruct p as [x y w h lw l t]. player_fields. cbn [p_targetLane] in B.
  repeat split.
  - destruct (0 <? t)%Z eqn:E.
    + apply Z.ltb_lt in E. now rewrite Z.max_r by lia.
    + apply Z.ltb_ge in E. rewrite Z.max_l by lia.
      unfold set_p_targetLane. player_fields. f_equal. lia.
  - destruct (t <? Z.of_nat (LANE_COUNT cfg) - 1)%Z eqn:E.
    + apply Z.ltb_lt in E. now rewrite Z.min_r by lia.
    + apply Z.ltb_ge in E. rewrite Z.min_l by lia.
      unfold set_p_targetLane. player_fields. f_equal. lia.
  - intros L. assert (E : (0 <? t)%Z = true) by (apply Z.ltb_lt; lia).
    rewrite E. player_fields.
    assert (E' : (t - 1 <? Z.of_nat (LANE_COUNT cfg) - 1)%Z = true)
      by (apply Z.ltb_lt; lia).
    rewrite E'. unfold set_p_targetLane. player_fields. f_equal. lia.
  - intros L.
    assert (E : (t <? Z.of_nat (LANE_COUNT cfg) - 1)%Z = true)
      by (apply Z.ltb_lt; lia).
    rewrite E. player_fields.
    assert (E' : (0 <? t + 1)%Z = true) by (apply Z.ltb_lt; lia).
    rewrite E'. unfold set_p_targetLane. player_fields. f_equal. lia.
Qed.

Lemma steering_moves_one_lane_witness :
  let p := Player_new GAME_CONFIG 200 800 in
  Player_moveLeft p
  = set_p_targetLane (Z.max 0 (p_targetLane p - 1)) p /\
  Player_moveRight GAME_CONFIG p
  = set_p_targetLane
      (Z.min (Z.of_nat (LANE_COUNT GAME_CONFIG) - 1) (p_targetLane p + 1)) p /\
  ((0 < p_targetLane p)%Z ->
   Player_moveRight GAME_CONFIG (Player_moveLeft p) = p) /\
  ((p_targetLane p < Z.of_nat (LANE_COUNT GAME_CONFIG) - 1)%Z ->
   Player_moveLeft (Player_moveRight GAME_CONFIG p) = p).
Proof.
  intros p.
  apply (steering_moves_one_lane GAME_CONFIG p).
  vm_compute. split; discriminate.
Defined.

(** ** The distance score of a frame *)

Lemma shipped_max_speed c : shipped c -> MAX_GAME_SPEED c <= 4.
Proof.
  intros [-> | (d & ->)]; [discriminate|]. destruct d; discriminate.
Qed.

Lemma Qfloor_upper x (n : Z) : x <= inject_Z n -> (Qfloor x <= n)%Z.
Proof.
  intros L. rewrite Zle_Qle. eapply Qle_trans; [apply Qfloor_le | exact L].
Qed.

(** X20.  The score for the distance travelled.  In every state a game
    can reach, and for a time step between 0 and the cap of 0.1 s, the
    last part of [update] adds between 0 and 8 points; without the double
    score effect it adds nothing at all when the step is shorter than
    25 ms, because [Math.floor] rounds the product down to 0. *)
Theorem distance_score_per_frame :
  forall (M : MathLib) hs w h r (es : list Event) (delta : Q),
    let g := run es (Engine_new hs w h r) in
    0 <= delta <= 1 # 10 ->
    (0 <= score (update_score delta g) - score g <= 8)%Z /\
    (scoreMultiplier g = 1 -> delta < 25 # 1000 ->
     score (update_score delta g) = score g).
Proof.
  intros M hs w h r es delta g D.
  pose proof (run_sound es _ (Engine_new_sound hs w h r)) as S. fold g in S.
  clearbody g. unfold update_score, with_player.
  destruct (player g) as [p|] eqn:Hp; [|split; [lia | reflexivity]].
  cbv zeta.
  pose proof (sound_speed_pos g p S Hp) as P0.
  pose proof S as (Sh & B & _ & _ & Mu & _).
  destruct (B p Hp) as (_ & _ & _ & P1).
  pose proof (shipped_max_speed _ Sh) as P2.
  destruct (shipped_constants _ Sh)
    as (_ & _ & _ & _ & _ & _ & _ & _ & _ & _ & SM & _).
  set (x := delta * (p_speed p * scoreMultiplier g)
            * SCORE_MULTIPLIER (config g)).
  assert (X : 0 <= x <= 8 /\
              (scoreMultiplier g = 1 -> delta < 25 # 1000 -> x < 1)).
  { subst x. rewrite SM. destruct Mu as [-> | ->].
    - split; [split; nra|]. intros _ L. nra.
    - split; [split; nra|]. intros E. discriminate. }
  clearbody x. destruct X as ((X0 & X8) & X1).
  assert (F : (0 <= Qfloor x <= 8)%Z).
  { split; [now apply Qfloor_nonneg | now apply Qfloor_upper]. }
  destruct (negb _); engine_fields; (split; [lia|]); intros E1 L;
    rewrite (Qfloor_zero x X0 (X1 E1 L)); lia.
Qed.

Lemma distance_score_per_frame_witness :
  let g := run (H := sampleMath) [EvStart 0]
             (Engine_new 0 600 800 (rng_of_list [] draw_50)) in
  (0 <= score (update_score (16 # 1000) g) - score g <= 8)%Z /\
  (scoreMultiplier g = 1 -> 16 # 1000 < 25 # 1000 ->
   score (update_score (16 # 1000) g) = score g).
Proof.
  intros g.
  apply (distance_score_per_frame sampleMath 0 600 800
           (rng_of_list [] draw_50) [EvStart 0] (16 # 1000)).
  split; discriminate.
Defined.

(** ** The power-up spawn attempt of a frame *)





(** ** Difficulty increases *)

Lemma Qmin_step a m i : 0 <= i -> Qmin (Qmin a m + i) m == Qmin (a + i) m.
Proof.
  intros I.
  destruct (Q.min_spec a m) as [(A1 & A2) | (A1 & A2)];
    destruct (Q.min_spec (Qmin a m + i) m) as [(B1 & B2) | (B1 & B2)];
    destruct (Q.min_spec (a + i) m) as [(C1 & C2) | (C1 & C2)];
    rewrite B2, C2; rewrite A2 in B1; try rewrite A2; lra.
Qed.

Lemma increaseDifficulty_step g p :
  player g = Some p ->
  p_speed p <= MAX_GAME_SPEED (config g) ->
  0 <= SPEED_INCREMENT (config g) ->
  config (increaseDifficulty g) = config g /\
  difficulty (increaseDifficulty g)
  = difficulty g + DIFFICULTY_INCREASE_RATE (config g) /\
  exists p',
    player (increaseDifficulty g) = Some p' /\
    p_speed p' == Qmin (p_speed p + SPEED_INCREMENT (config g))
                       (MAX_GAME_SPEED (config g)) /\
    p_lives p' = p_lives p.
Proof.
  intros Hp L I. unfold increaseDifficulty. cbv zeta. engine_fields.
  rewrite Hp. destruct (js_lt _ _) eqn:E; engine_fields.
  - repeat split. eexists. split; [reflexivity|]. split; reflexivity.
  - apply js_lt_false in E. repeat split. exists p.
    split; [exact Hp|]. split; [|reflexivity].
    rewrite Q.min_r by lra. lra.
Qed.

(** X22.  Difficulty increases add up.  After [n] calls of
    [increaseDifficulty] the difficulty counter has grown by [n] times
    the increase rate, and the speed of the player by [n] speed
    increments, but not beyond [MAX_GAME_SPEED]; the lives are as
    before. *)
Theorem difficulty_increases_add_up :
  forall (n : nat) (g : Engine) (p : Player),
    player g = Some p ->
    p_speed p <= MAX_GAME_SPEED (config g) ->
    0 <= SPEED_INCREMENT (config g) ->
    let g' := Nat.iter n increaseDifficulty g in
    config g' = config g /\
    difficulty g'
    == difficulty g
       + inject_Z (Z.of_nat n) * DIFFICULTY_INCREASE_RATE (config g) /\
    exists p',
      player g' = Some p' /\
      p_speed p'
      == Qmin (p_speed p
               + inject_Z (Z.of_nat n) * SPEED_INCREMENT (config g))
              (MAX_GAME_SPEED (config g)) /\
      p_lives p' = p_lives p.
Proof.
  intros n g p Hp L I. cbv zeta.
  induction n as [|n IH].
  - cbn [Nat.iter nat_rect]. split; [reflexivity|].
    split; [cbn [Z.of_nat]; change (inject_Z 0) with 0; ring|]. exists p.
    split; [exact Hp|]. split; [|reflexivity].
    cbn [Z.of_nat]. change (inject_Z 0) with 0.
    setoid_replace (p_speed p + 0 * SPEED_INCREMENT (config g))
      with (p_speed p) by ring.
    symmetry. apply Q.min_l. exact L.
  - change (Nat.iter (S n) increaseDifficulty g)
      with (increaseDifficulty (Nat.iter n increaseDifficulty g)).
    destruct IH as (C & D & p1 & Hp1 & S1 & L1).
    generalize dependent (Nat.iter n increaseDifficulty g). intros g1 C D Hp1.
    assert (L' : p_speed p1 <= MAX_GAME_SPEED (config g1)).
    { rewrite S1, C. apply Q.le_min_r. }
    assert (I' : 0 <= SPEED_INCREMENT (config g1)) by now rewrite C.
    destruct (increaseDifficulty_step g1 p1 Hp1 L' I')
      as (C2 & D2 & p2 & Hp2 & S2 & L2).
    rewrite Nat2Z.inj_succ. unfold Z.succ. rewrite inject_Z_plus.
    change (inject_Z 1) with 1.
    split; [congruence|]. split; [rewrite D2, D, C; ring|].
    exists p2. split; [exact Hp2|]. split; [|congruence].
    rewrite S2, C, S1. rewrite Qmin_step by exact I.
    apply Q.min_compat; [ring | reflexivity].
Qed.

Lemma difficulty_increases_add_up_witness :
  let g := run (H := sampleMath) [EvStart 0]
             (Engine_new 0 600 800 (rng_of_list [] draw_50)) in
  let p := the_player g in
  let g' := Nat.iter 3 increaseDifficulty g in
  config g' = config g /\
  difficulty g'
  == difficulty g
     + inject_Z (Z.of_nat 3) * DIFFICULTY_INCREASE_RATE (config g) /\
  exists p',
    player g' = Some p' /\
    p_speed p'
    == Qmin (p_speed p
             + inject_Z (Z.of_nat 3) * SPEED_INCREMENT (config g))
            (MAX_GAME_SPEED (config g)) /\
    p_lives p' = p_lives p.
Proof.
  intros g p.
  apply (difficulty_increases_add_up 3 g p).
  - vm_compute. reflexivity.
  - vm_compute. discriminate.
  - vm_compute. discriminate.
Defined.
